(** * Curse: dungeon generation, field of view and path finding

    A shallow embedding of the algorithmic core of the roguelike
    (src/map, the FOV engine, the A* path finder and the item placer),
    and the properties its specification states about them.

    Conventions of the embedding.
    - JavaScript integers (coordinates, sizes, floor numbers) are [Z].
    - Fractional numbers (slopes, step costs, results of [Math.random()])
      are exact rationals [Q].
    - The map is the array of rows the code indexes as [map[y][x]]; a read
      outside the array makes the JavaScript code throw a [TypeError],
      which the embedding renders as [None].
    - Mutation of the shared map, the random source and the console are
      threaded through an explicit state. *)

From Stdlib Require Import ZArith QArith Qround Lia Lqa Ascii String Bool.
From stdpp Require Import base option list sorting gmap.

Local Open Scope Z_scope.

(** ** A state-and-failure monad for the generators *)

Definition M (S A : Type) : Type := S -> option (A * S).

Definition ret {S A} (a : A) : M S A := fun s => Some (a, s).

Definition bind {S A B} (c : M S A) (k : A -> M S B) : M S B :=
  fun s => match c s with
           | Some (a, s') => k a s'
           | None => None
           end.

Definition throw {S A} : M S A := fun _ => None.

Definition gets {S A} (f : S -> A) : M S A := fun s => Some (f s, s).

Definition modify {S} (f : S -> S) : M S unit := fun s => Some (tt, f s).

#[global] Instance M_ret {S} : MRet (M S) := fun A a => ret a.
#[global] Instance M_bind {S} : MBind (M S) := fun A B k c => bind c k.

(** [for (const a of l) body(a)] *)
Fixpoint forEach {S A} (l : list A) (body : A -> M S unit) : M S unit :=
  match l with
  | [] => ret tt
  | a :: l' => body a;; forEach l' body
  end.

(** ** Tiles (src/map/Tile.js, src/utils/Constants.js) *)

Module TILE_TYPES.
Definition WALL : ascii := "#"%char.
Definition FLOOR : ascii := "."%char.
Definition STAIRS : ascii := ">"%char.
Definition DOOR : ascii := "+"%char.
Definition LOCKED_DOOR : ascii := "L"%char.
Definition SECRET_DOOR : ascii := "S"%char.
Definition TRAP : ascii := "^"%char.
End TILE_TYPES.

Module MAP.
Definition WIDTH : Z := 80.
Definition HEIGHT : Z := 50.
End MAP.

Record TrapData := mkTrapData {
  trap_damage : Z;
  trap_type : string;
  trap_triggered : bool
}.

(** The fields of [Tile] the map code reads or writes.  [item] is [null]
    or [true] in the source and only tested for truthiness. *)
Record Tile := mkTile {
  char : ascii;
  discovered : bool;
  visible : bool;
  floorType : string;
  item : bool;
  hidden : bool;
  trapData : option TrapData
}.

(** [new Tile(char)] *)
Definition newTile (c : ascii) : Tile :=
  mkTile c false false "default" false false None.

Definition isBlocking (t : Tile) : bool := Ascii.eqb (char t) TILE_TYPES.WALL.

Definition blocksVision (t : Tile) : bool := Ascii.eqb (char t) TILE_TYPES.WALL.

Definition isWalkable (t : Tile) : bool :=
  negb (isBlocking t) && negb (Ascii.eqb (char t) TILE_TYPES.TRAP).

Definition isInteractive (t : Tile) : bool :=
  Ascii.eqb (char t) TILE_TYPES.DOOR
  || Ascii.eqb (char t) TILE_TYPES.LOCKED_DOOR
  || Ascii.eqb (char t) TILE_TYPES.SECRET_DOOR
  || Ascii.eqb (char t) TILE_TYPES.STAIRS.

Definition set_char (c : ascii) (t : Tile) : Tile :=
  mkTile c (discovered t) (visible t) (floorType t) (item t) (hidden t) (trapData t).

Definition set_floorType (s : string) (t : Tile) : Tile :=
  mkTile (char t) (discovered t) (visible t) s (item t) (hidden t) (trapData t).

Definition set_visible (b : bool) (t : Tile) : Tile :=
  mkTile (char t) (discovered t) b (floorType t) (item t) (hidden t) (trapData t).

Definition set_discovered (b : bool) (t : Tile) : Tile :=
  mkTile (char t) b (visible t) (floorType t) (item t) (hidden t) (trapData t).

Definition set_item (b : bool) (t : Tile) : Tile :=
  mkTile (char t) (discovered t) (visible t) (floorType t) b (hidden t) (trapData t).

Definition set_trap (h : bool) (d : TrapData) (t : Tile) : Tile :=
  mkTile TILE_TYPES.TRAP (discovered t) (visible t) (floorType t) (item t) h (Some d).

(** ** The map: an array of rows, indexed [map[y][x]] *)

Abbreviation Grid := (list (list Tile)).

(** Reading [map[y][x]]: [None] when the row or the cell does not exist. *)
Definition tileAt (m : Grid) (x y : Z) : option Tile :=
  if (0 <=? x) && (0 <=? y)
  then match m !! Z.to_nat y with
       | Some row => row !! Z.to_nat x
       | None => None
       end
  else None.

(** Writing a field of the object stored at [map[y][x]]. *)
Definition updTile (f : Tile -> Tile) (m : Grid) (x y : Z) : Grid :=
  alter (alter f (Z.to_nat x)) (Z.to_nat y) m.

(** A map of [h] rows of [w] tiles each. *)
Definition wfGrid (w h : Z) (m : Grid) : Prop :=
  Z.of_nat (length m) = h /\ Forall (fun row => Z.of_nat (length row) = w) m.

(** Cells the code indexes: the cell exists in the array. *)
Definition defined (m : Grid) (x y : Z) : Prop := is_Some (tileAt m x y).

(** [map[y][x]] read inside a generator. *)
Definition readTile (x y : Z) : M Grid Tile :=
  fun m => match tileAt m x y with
           | Some t => Some (t, m)
           | None => None
           end.

(** [map[y][x].field = v]: throws when the cell does not exist. *)
Definition writeTile (f : Tile -> Tile) (x y : Z) : M Grid unit :=
  fun m => match tileAt m x y with
           | Some _ => Some (tt, updTile f m x y)
           | None => None
           end.

(** ** Numbers *)

(** [a < b] on fractional numbers. *)
Definition Qltb (a b : Q) : bool :=
  (Qnum a * Zpos (Qden b) <? Qnum b * Zpos (Qden a)).

(** [l[i]] for a JavaScript number [i]: [undefined] outside the array. *)
Definition nthZ {A} (l : list A) (i : Z) : option A :=
  if 0 <=? i then l !! Z.to_nat i else None.

(** ** The generation state: map, random source and console *)

(** [w_rnd] is the sequence of values [Math.random()] returns, [w_pos] the
    number of values drawn so far, [w_log] the lines written to the
    console. *)
Record World := mkWorld {
  w_map : Grid;
  w_rnd : nat -> Q;
  w_pos : nat;
  w_log : list string
}.

Definition random : M World Q :=
  fun w => Some (w_rnd w (w_pos w),
                 mkWorld (w_map w) (w_rnd w) (S (w_pos w)) (w_log w)).

(** [Math.floor(Math.random() * n)] *)
Definition randomInt (n : Z) : M World Z :=
  r ← random; mret (Qfloor (r * inject_Z n)).

Definition warn (msg : string) : M World unit :=
  modify (fun w => mkWorld (w_map w) (w_rnd w) (w_pos w) (w_log w ++ [msg])).

(** Run a map operation on the map of the world. *)
Definition onMap {A} (c : M Grid A) : M World A :=
  fun w => match c (w_map w) with
           | Some (a, m') => Some (a, mkWorld m' (w_rnd w) (w_pos w) (w_log w))
           | None => None
           end.

(** ** Corridors (CorridorGenerator) *)

Record Point := mkPoint { px : Z; py : Z }.

Record Room := mkRoom {
  room_x : Z;
  room_y : Z;
  room_width : Z;
  room_height : Z;
  room_isSpecial : bool;
  room_center : Point
}.

Record CorridorGenerator := mkCorridorGenerator { cg_width : Z; cg_height : Z }.

(** The body of the loops of [hCorridor] and [vCorridor]. *)
Definition carveCell (g : CorridorGenerator) (x y : Z) : M Grid unit :=
  if (0 <=? x) && (x <? cg_width g) && (0 <=? y) && (y <? cg_height g)
  then t ← readTile x y;
       if Ascii.eqb (char t) TILE_TYPES.WALL
       then writeTile (set_char TILE_TYPES.FLOOR) x y
       else mret tt
  else mret tt.

Definition hCorridor (g : CorridorGenerator) (x1 x2 y : Z) : M Grid unit :=
  let start := Z.min x1 x2 in
  let stop := Z.max x1 x2 in
  forEach (seqZ start (stop - start + 1)) (fun x => carveCell g x y).

Definition vCorridor (g : CorridorGenerator) (y1 y2 x : Z) : M Grid unit :=
  let start := Z.min y1 y2 in
  let stop := Z.max y1 y2 in
  forEach (seqZ start (stop - start + 1)) (fun y => carveCell g x y).

Definition calculateDistance (a b : Point) : Z :=
  Z.abs (px a - px b) + Z.abs (py a - py b).

Definition createElbowCorridor (g : CorridorGenerator) (x1 y1 x2 y2 : Z)
  : M World unit :=
  r ← random;
  let horizontalFirst := Qltb r (1 # 2) in
  if horizontalFirst
  then onMap (hCorridor g x1 x2 y1);; onMap (vCorridor g y1 y2 x2)
  else onMap (vCorridor g y1 y2 x1);; onMap (hCorridor g x1 x2 y2).

(** The loop of [createZigzagCorridor]: [i] runs over the segment numbers,
    the current position is threaded through. *)
Fixpoint zigzagLoop (g : CorridorGenerator) (segments : Z) (x2 y2 : Z)
    (idxs : list Z) (currentX currentY : Z) : M World (Z * Z) :=
  match idxs with
  | [] => mret (currentX, currentY)
  | i :: idxs' =>
      let frac := (inject_Z (i + 1) / inject_Z segments)%Q in
      let targetX :=
        if i =? segments - 1 then x2
        else currentX + Qfloor (inject_Z (x2 - currentX) * frac) in
      let targetY :=
        if i =? segments - 1 then y2
        else currentY + Qfloor (inject_Z (y2 - currentY) * frac) in
      if i mod 2 =? 0
      then onMap (hCorridor g currentX targetX currentY);;
           zigzagLoop g segments x2 y2 idxs' targetX currentY
      else onMap (vCorridor g currentY targetY currentX);;
           zigzagLoop g segments x2 y2 idxs' currentX targetY
  end.

Definition createZigzagCorridor (g : CorridorGenerator) (x1 y1 x2 y2 : Z)
  : M World unit :=
  k ← randomInt 3;
  let segments := k + 2 in
  '(currentX, currentY) ← zigzagLoop g segments x2 y2 (seqZ 0 segments) x1 y1;
  onMap (hCorridor g currentX x2 currentY);;
  onMap (vCorridor g currentY y2 x2).

Definition createCorridor (g : CorridorGenerator) (roomA roomB : Room)
  : M World unit :=
  let x1 := px (room_center roomA) in
  let y1 := py (room_center roomA) in
  let x2 := px (room_center roomB) in
  let y2 := py (room_center roomB) in
  r ← random;
  if Qltb r (1 # 2)
  then createElbowCorridor g x1 y1 x2 y2
  else createZigzagCorridor g x1 y1 x2 y2.

(** The search of [connectRooms] for the next pair of rooms.  [connected]
    is the [Set] in insertion order, [minDistance] is [None] for
    [Infinity], [pair] is [(roomA, roomB)] once assigned. *)
Record RoomSearch := mkRoomSearch {
  connected : list nat;
  minDistance : option Z;
  pair : option (Room * Room)
}.

(** The body of the inner loop, for the connected room [i] and the
    candidate [j]. *)
Definition considerRoom (rooms : list Room) (i j : nat) (s : RoomSearch)
  : option RoomSearch :=
  if bool_decide (j ∈ connected s) then Some s
  else
    ri ← rooms !! i;
    rj ← rooms !! j;
    let distance := calculateDistance (room_center ri) (room_center rj) in
    let closer := match minDistance s with
                  | None => true
                  | Some d => distance <? d
                  end in
    if closer
    then Some (mkRoomSearch (connected s ++ [j]) (Some distance) (Some (ri, rj)))
    else Some s.

Fixpoint scanCandidates (rooms : list Room) (i : nat) (js : list nat)
    (s : RoomSearch) : option RoomSearch :=
  match js with
  | [] => Some s
  | j :: js' => s' ← considerRoom rooms i j s; scanCandidates rooms i js' s'
  end.

(** [for (const i of connected)]: the iteration visits the entries in
    insertion order, the ones added while it runs included; [k] is the
    position reached.  The set holds distinct indices of [rooms], so
    [length rooms] steps exhaust it. *)
Fixpoint scanConnected (steps : nat) (rooms : list Room) (k : nat)
    (s : RoomSearch) : option RoomSearch :=
  match steps with
  | O => Some s
  | S steps' =>
      match connected s !! k with
      | None => Some s
      | Some i =>
          s' ← scanCandidates rooms i (seq 0 (length rooms)) s;
          scanConnected steps' rooms (S k) s'
      end
  end.

(** The [while (connected.size < rooms.length)] loop; every pass adds a
    room to [connected], so [length rooms] passes are enough and the loop
    is cut there. *)
Fixpoint connectLoop (passes : nat) (g : CorridorGenerator)
    (rooms : list Room) (conn : list nat) : M World (list nat) :=
  if bool_decide (length conn < length rooms)%nat
  then match passes with
       | O => throw
       | S passes' =>
           match scanConnected (length rooms) rooms 0 (mkRoomSearch conn None None) with
           | None => throw
           | Some s =>
               match pair s with
               | Some (roomA, roomB) => createCorridor g roomA roomB
               | None => mret tt
               end;;
               connectLoop passes' g rooms (connected s)
           end
       end
  else mret conn.

(** One of the extra corridors that close loops. *)
Definition extraCorridor (g : CorridorGenerator) (rooms : list Room)
  : M World unit :=
  ia ← randomInt (Z.of_nat (length rooms));
  ib ← randomInt (Z.of_nat (length rooms));
  match nthZ rooms ia, nthZ rooms ib with
  | Some roomA, Some roomB =>
      if ia =? ib then mret tt else createCorridor g roomA roomB
  | None, None => mret tt
  | _, _ => throw
  end.

Definition connectRooms (g : CorridorGenerator) (rooms : list Room)
  : M World unit :=
  if bool_decide (length rooms <= 1)%nat then mret tt
  else
    connectLoop (length rooms) g rooms [0%nat];;
    let extraCorridors := Z.of_nat (length rooms) / 4 in
    forEach (seqZ 0 extraCorridors) (fun _ => extraCorridor g rooms).

(** ** Rooms (RoomGenerator) *)

Record RoomGenerator := mkRoomGenerator {
  rg_width : Z;
  rg_height : Z;
  minRoomSize : Z;
  maxRoomSize : Z;
  maxRooms : Z
}.

(** [new RoomGenerator(width, height)] *)
Definition newRoomGenerator (width height : Z) : RoomGenerator :=
  mkRoomGenerator width height 3 8 15.

(** The cells of the rectangle at [(x0, y0)] of [w] columns and [h] rows,
    in the order of [for y ... for x ...]. *)
Definition rect (x0 y0 w h : Z) : list (Z * Z) :=
  mjoin ((fun y => (fun x => (x, y)) <$> seqZ x0 w) <$> seqZ y0 h).

Definition calculateRoomAttempts (floor : Z) : Z := 20 + Z.min (floor * 2) 30.

Definition adjustRoomParams (rg : RoomGenerator) (floor : Z) : RoomGenerator :=
  if 5 <? floor
  then mkRoomGenerator (rg_width rg) (rg_height rg) (minRoomSize rg) 9 18
  else if 10 <? floor
  then mkRoomGenerator (rg_width rg) (rg_height rg) (minRoomSize rg) 10 20
  else rg.

Definition generateRoom (rg : RoomGenerator) (floor : Z) : M World Room :=
  w ← randomInt (maxRoomSize rg - minRoomSize rg + 1);
  let width := w + minRoomSize rg in
  h ← randomInt (maxRoomSize rg - minRoomSize rg + 1);
  let height := h + minRoomSize rg in
  x0 ← randomInt (rg_width rg - width - 2);
  let x := x0 + 1 in
  y0 ← randomInt (rg_height rg - height - 2);
  let y := y0 + 1 in
  r ← random;
  let isSpecial := Qltb r ((5 # 100) + inject_Z floor * (1 # 100)) in
  mret (mkRoom x y width height isSpecial
          (mkPoint (x + width / 2) (y + height / 2))).

(** The two nested loops of [canPlaceRoom]: [Some false] at the first cell
    that is not wall, the cells after it are not read. *)
Fixpoint allWall (cells : list (Z * Z)) (m : Grid) : option bool :=
  match cells with
  | [] => Some true
  | (x, y) :: cells' =>
      match tileAt m x y with
      | None => None
      | Some t =>
          if Ascii.eqb (char t) TILE_TYPES.WALL then allWall cells' m
          else Some false
      end
  end.

Definition canPlaceRoom (rg : RoomGenerator) (room : Room) : M Grid bool :=
  if (room_x room <? 1) || (room_y room <? 1)
     || (rg_width rg - 1 <=? room_x room + room_width room)
     || (rg_height rg - 1 <=? room_y room + room_height room)
  then mret false
  else fun m =>
    match allWall (rect (room_x room - 1) (room_y room - 1)
                        (room_width room + 2) (room_height room + 2)) m with
    | Some b => Some (b, m)
    | None => None
    end.

(** [types[Math.floor(Math.random() * types.length)]]; an index outside
    the array gives [undefined], rendered as that word. *)
Definition getSpecialFloorType : M World string :=
  let types := ["water"; "dirt"; "default"]%string in
  i ← randomInt (Z.of_nat (length types));
  mret (default "undefined"%string (nthZ types i)).

(** The body of the loops of [carveRoom]. *)
Definition carveRoomCell (room : Room) (x y : Z) : M World unit :=
  onMap (writeTile (set_char TILE_TYPES.FLOOR) x y);;
  if room_isSpecial room
  then ft ← getSpecialFloorType; onMap (writeTile (set_floorType ft) x y)
  else mret tt.

Definition carveRoom (room : Room) : M World unit :=
  forEach (rect (room_x room) (room_y room) (room_width room) (room_height room))
    (fun c => carveRoomCell room c.1 c.2).

(** The loop of [generateRooms]; [attempts] counts the iterations left. *)
Fixpoint generateRoomsLoop (attempts : nat) (rg : RoomGenerator) (floor : Z)
    (rooms : list Room) : M World (list Room) :=
  match attempts with
  | O => mret rooms
  | S attempts' =>
      if maxRooms rg <=? Z.of_nat (length rooms) then mret rooms
      else
        room ← generateRoom rg floor;
        ok ← onMap (canPlaceRoom rg room);
        if ok : bool
        then carveRoom room;;
             generateRoomsLoop attempts' rg floor (rooms ++ [room])
        else generateRoomsLoop attempts' rg floor rooms
  end.

(** [generateRooms] also returns the generator, whose size parameters
    [adjustRoomParams] overwrites. *)
Definition generateRooms (rg : RoomGenerator) (floor : Z)
  : M World (list Room * RoomGenerator) :=
  let attempts := calculateRoomAttempts floor in
  let rg' := adjustRoomParams rg floor in
  rooms ← generateRoomsLoop (Z.to_nat attempts) rg' floor [];
  mret (rooms, rg').

(** ** The orchestrator (MapGenerator) *)

Definition initializeMap (width height : Z) : Grid :=
  replicate (Z.to_nat height) (replicate (Z.to_nat width) (newTile TILE_TYPES.WALL)).

Record Farthest := mkFarthest { far_x : Z; far_y : Z; far_distance : Z }.

(** The first pair of loops of [findStartPosition]. *)
Fixpoint scanFarthest (stairsPos : Point) (cells : list (Z * Z)) (m : Grid)
    (best : Farthest) : option Farthest :=
  match cells with
  | [] => Some best
  | (x, y) :: cells' =>
      match tileAt m x y with
      | None => None
      | Some t =>
          if Ascii.eqb (char t) TILE_TYPES.FLOOR
          then
            let distance := Z.abs (x - px stairsPos) + Z.abs (y - py stairsPos) in
            if far_distance best <? distance
            then scanFarthest stairsPos cells' m (mkFarthest x y distance)
            else scanFarthest stairsPos cells' m best
          else scanFarthest stairsPos cells' m best
      end
  end.

(** The second pair of loops: the first floor tile in scan order. *)
Fixpoint firstFloor (cells : list (Z * Z)) (m : Grid) : option (option Point) :=
  match cells with
  | [] => Some None
  | (x, y) :: cells' =>
      match tileAt m x y with
      | None => None
      | Some t =>
          if Ascii.eqb (char t) TILE_TYPES.FLOOR then Some (Some (mkPoint x y))
          else firstFloor cells' m
      end
  end.

Definition findStartPosition (width height : Z) (m : Grid) (stairsPos : Point)
  : option Point :=
  let cells := rect 0 0 width height in
  farthestTile ← scanFarthest stairsPos cells m (mkFarthest 0 0 0);
  if 0 <? far_distance farthestTile
  then Some (mkPoint (far_x farthestTile) (far_y farthestTile))
  else
    found ← firstFloor cells m;
    match found with
    | Some p => Some p
    | None => Some (mkPoint 1 1)
    end.

(** ** Field of view (FOV) *)

(** The FOV object: the tiles of the last computation and the origin and
    radius they were computed for. *)
Record FOV := mkFOV {
  visibleTiles : list Point;
  lastPlayerPos : Point;
  lastRadius : Z
}.

(** [new FOV()] *)
Definition newFOV : FOV := mkFOV [] (mkPoint (-1) (-1)) (-1).

(** The FOV object and the map it is run on. *)
Record Sight := mkSight { s_fov : FOV; s_map : Grid }.

Definition sightMap {A} (c : M Grid A) : M Sight A :=
  fun s => match c (s_map s) with
           | Some (a, m') => Some (a, mkSight (s_fov s) m')
           | None => None
           end.

(** [this.visibleTiles.push({x, y})] *)
Definition pushVisible (x y : Z) : M Sight unit :=
  modify (fun s =>
    mkSight (mkFOV (visibleTiles (s_fov s) ++ [mkPoint x y])
                   (lastPlayerPos (s_fov s)) (lastRadius (s_fov s)))
            (s_map s)).

Definition mapOctantToCoordinates (originX originY row col octant : Z) : Z * Z :=
  if octant =? 0 then (originX + col, originY - row)
  else if octant =? 1 then (originX + row, originY - col)
  else if octant =? 2 then (originX + row, originY + col)
  else if octant =? 3 then (originX + col, originY + row)
  else if octant =? 4 then (originX - col, originY + row)
  else if octant =? 5 then (originX - row, originY + col)
  else if octant =? 6 then (originX - row, originY - col)
  else if octant =? 7 then (originX - col, originY - row)
  else (originX, originY).

(** [getSlope(row, col, originX, originY)]; [row] is at least 1 in every
    call. *)
Definition getSlope (row : Z) (col : Q) : Q := (col / inject_Z row)%Q.

(** The body of the inner loop of [castShadows], for the cell [j] of the
    row [i].  The loop variables are [blocked] and [newStart]; [recur] is
    the recursive call [castShadows(map, originX, originY, radius, i + 1,
    startSlope, newStart, octant)] as a function of its two slopes. *)
Definition castCell (recur : Q -> Q -> M Sight unit)
    (originX originY radius i : Z) (startSlope : Q) (octant j : Z)
    (loopVars : bool * Q) : M Sight (bool * Q) :=
  let '(mapX, mapY) := mapOctantToCoordinates originX originY i j octant in
  if (mapX <? 0) || (MAP.WIDTH <=? mapX) || (mapY <? 0) || (MAP.HEIGHT <=? mapY)
  then mret loopVars
  else
    let dx := mapX - originX in
    let dy := mapY - originY in
    let distanceSquared := dx * dx + dy * dy in
    if radius * radius <? distanceSquared then mret loopVars
    else
      sightMap (writeTile (set_visible true) mapX mapY);;
      sightMap (writeTile (set_discovered true) mapX mapY);;
      pushVisible mapX mapY;;
      t ← sightMap (readTile mapX mapY);
      let '(blocked, newStart) := loopVars in
      if negb blocked && blocksVision t
      then
        let newStart' := getSlope i (inject_Z j - (1 # 2)) in
        recur startSlope newStart';;
        mret (true, newStart')
      else if blocked && negb (blocksVision t)
      then mret (false, getSlope i (inject_Z j - (1 # 2)))
      else mret loopVars.

(** The inner loop over the cells [js] of a row. *)
Fixpoint castRow (recur : Q -> Q -> M Sight unit)
    (originX originY radius i : Z) (startSlope : Q) (octant : Z)
    (js : list Z) (loopVars : bool * Q) : M Sight (bool * Q) :=
  match js with
  | [] => mret loopVars
  | j :: js' =>
      loopVars' ← castCell recur originX originY radius i startSlope octant j loopVars;
      castRow recur originX originY radius i startSlope octant js' loopVars'
  end.

(** The loop [for (let i = row; i <= radius; i++)] of a call whose slopes
    passed the test at its head; [rows] is the number of rows left,
    [radius - i + 1].  The recursive call for row [i + 1] has one row
    less. *)
Fixpoint castRows (rows : nat) (originX originY radius i : Z)
    (startSlope endSlope : Q) (octant : Z) : M Sight unit :=
  match rows with
  | O => mret tt
  | S rows' =>
      let recur := fun ss es =>
        if Qltb ss es then mret tt
        else castRows rows' originX originY radius (i + 1) ss es octant in
      let first := Qfloor (inject_Z i * endSlope) in
      let last := Qceiling (inject_Z i * startSlope) in
      '(blocked, _) ← castRow recur originX originY radius i startSlope octant
                        (seqZ first (last - first + 1)) (false, startSlope);
      if blocked : bool then mret tt
      else castRows rows' originX originY radius (i + 1) startSlope endSlope octant
  end.

Definition castShadows (originX originY radius row : Z)
    (startSlope endSlope : Q) (octant : Z) : M Sight unit :=
  if Qltb startSlope endSlope then mret tt
  else castRows (Z.to_nat (radius - row + 1)) originX originY radius row
                startSlope endSlope octant.

Definition cacheHit (f : FOV) (originX originY radius : Z) : bool :=
  (px (lastPlayerPos f) =? originX) && (py (lastPlayerPos f) =? originY)
  && (lastRadius f =? radius).

Definition calculate (originX originY radius : Z) : M Sight (list Point) :=
  f ← gets s_fov;
  if cacheHit f originX originY radius then mret (visibleTiles f)
  else
    modify (fun s => mkSight (mkFOV [] (mkPoint originX originY) radius) (s_map s));;
    pushVisible originX originY;;
    sightMap (writeTile (set_visible true) originX originY);;
    sightMap (writeTile (set_discovered true) originX originY);;
    forEach (seqZ 0 8)
      (fun octant => castShadows originX originY radius 1 1 0 octant);;
    gets (fun s => visibleTiles (s_fov s)).

Definition resetVisibility : M Grid unit :=
  forEach (rect 0 0 MAP.WIDTH MAP.HEIGHT)
    (fun c => writeTile (set_visible false) c.1 c.2).

Definition isVisible (f : FOV) (x y : Z) : bool :=
  existsb (fun tile => (px tile =? x) && (py tile =? y)) (visibleTiles f).

(** ** Path finding (PathFinder, PriorityQueue) *)

Module PathFinder.

(** The map object of the path finder is not part of the sources at hand;
    the finder uses its two methods [isInBounds] and [getTile] and reads
    the tile properties below.  [moveCost] may be absent. *)
Record PTile := mkPTile {
  walkable : bool;
  hasTrap : bool;
  hidden : bool;
  moveCost : option Q;
  transparent : bool
}.

Record DungeonMap := mkDungeonMap {
  isInBounds : Z -> Z -> bool;
  getTile : Z -> Z -> option PTile
}.

(** A position key: the string [`${x},${y}`] of the source, which
    [keyToPos] splits back into the same two integers. *)
Abbreviation Key := (Z * Z)%type.

Definition posToKey (x y : Z) : Key := (x, y).

Definition keyToPos (k : Key) : Z * Z := k.

(** A number that may be [NaN] ([None]); [undefined] met in arithmetic
    gives [NaN]. *)
Abbreviation Num := (option Q).

Definition numAdd (a b : Num) : Num :=
  match a, b with
  | Some x, Some y => Some (x + y)%Q
  | _, _ => None
  end.

(** [a < b] and [a >= b]: both are false when a side is [NaN]. *)
Definition numLt (a b : Num) : bool :=
  match a, b with
  | Some x, Some y => Qltb x y
  | _, _ => false
  end.

Definition numGe (a b : Num) : bool :=
  match a, b with
  | Some x, Some y => negb (Qltb x y)
  | _, _ => false
  end.

(** *** The priority queue *)

Record Element := mkElement { value : Key; priority : Num }.

(** The queue holds element objects: [elems] is the store of the objects
    created so far, an object being named by its index there; [values] is
    the heap array and [valueMap] the map from values to objects, both
    holding such names.  [updatePriority] writes into the store, which is
    how the array sees the new priority. *)
Record PriorityQueue := mkPriorityQueue {
  elems : list Element;
  values : list nat;
  valueMap : gmap Key nat
}.

(** [new PriorityQueue()] *)
Definition emptyQueue : PriorityQueue := mkPriorityQueue [] [] ∅.

Definition isEmpty (q : PriorityQueue) : bool :=
  bool_decide (length (values q) = 0%nat).

(** [element.priority] for the object named [r]. *)
Definition priorityOf (store : list Element) (r : nat) : Num :=
  match store !! r with
  | Some e => priority e
  | None => None
  end.

(** The loop of [_bubbleUp] and [_bubbleUpElement]: [element] sits at
    [idx]; [None] where the source would read a property of [undefined].
    [idx] shrinks at every turn, so [steps = idx] turns are all there
    are. *)
Fixpoint bubbleLoop (steps : nat) (store : list Element) (element idx : nat)
    (vals : list nat) : option (list nat) :=
  match steps with
  | O => Some vals
  | S steps' =>
      if bool_decide (0 < idx)%nat
      then
        let parentIdx := ((idx - 1) / 2)%nat in
        match vals !! parentIdx with
        | None => None
        | Some parent =>
            if numGe (priorityOf store element) (priorityOf store parent)
            then Some vals
            else bubbleLoop steps' store element parentIdx
                   (<[idx := parent]> (<[parentIdx := element]> vals))
        end
      else Some vals
  end.

(** The loop of [_sinkDown] and [_sinkDownElement]; [idx] grows at every
    turn and stays below the length, so [steps = length] turns are all
    there are. *)
Fixpoint sinkLoop (steps : nat) (store : list Element) (element idx : nat)
    (vals : list nat) : option (list nat) :=
  match steps with
  | O => Some vals
  | S steps' =>
      let len := length vals in
      let leftChildIdx := (2 * idx + 1)%nat in
      let rightChildIdx := (2 * idx + 2)%nat in
      swapL ←
        (if bool_decide (leftChildIdx < len)%nat
         then leftChild ← vals !! leftChildIdx;
              Some (if numLt (priorityOf store leftChild) (priorityOf store element)
                    then Some (leftChildIdx, leftChild) else None)
         else Some None);
      swap ←
        (if bool_decide (rightChildIdx < len)%nat
         then rightChild ← vals !! rightChildIdx;
              Some (match swapL with
                    | None =>
                        if numLt (priorityOf store rightChild) (priorityOf store element)
                        then Some (rightChildIdx, rightChild) else None
                    | Some (_, leftChild) =>
                        if numLt (priorityOf store rightChild) (priorityOf store leftChild)
                        then Some (rightChildIdx, rightChild) else swapL
                    end)
         else Some swapL);
      match swap with
      | None => Some vals
      | Some (swapIdx, child) =>
          sinkLoop steps' store element swapIdx
            (<[swapIdx := element]> (<[idx := child]> vals))
      end
  end.

(** [this.values.indexOf(element)]; [None] stands for -1. *)
Fixpoint indexOf (vals : list nat) (element : nat) : option nat :=
  match vals with
  | [] => None
  | r :: vals' =>
      if bool_decide (r = element) then Some 0%nat
      else S <$> indexOf vals' element
  end.

Definition enqueue (q : PriorityQueue) (v : Key) (p : Num) : option PriorityQueue :=
  let element := length (elems q) in
  let store := elems q ++ [mkElement v p] in
  let vals := values q ++ [element] in
  let idx := (length vals - 1)%nat in
  vals' ← bubbleLoop idx store element idx vals;
  Some (mkPriorityQueue store vals' (<[v := element]> (valueMap q))).

(** [dequeue] returns the value ([None] for [null]) and the queue. *)
Definition dequeue (q : PriorityQueue) : option (option Key * PriorityQueue) :=
  match values q with
  | [] => Some (None, q)
  | min :: _ =>
      e ← elems q !! min;
      let stop := List.last (values q) min in
      let vals := removelast (values q) in
      let vmap := delete (value e) (valueMap q) in
      if bool_decide (0 < length vals)%nat
      then
        let vals1 := <[0%nat := stop]> vals in
        vals2 ← sinkLoop (length vals1) (elems q) stop 0 vals1;
        Some (Some (value e), mkPriorityQueue (elems q) vals2 vmap)
      else Some (Some (value e), mkPriorityQueue (elems q) vals vmap)
  end.

Definition updatePriority (q : PriorityQueue) (v : Key) (newPriority : Num)
  : option (bool * PriorityQueue) :=
  match valueMap q !! v with
  | None => Some (false, q)
  | Some element =>
      let oldPriority := priorityOf (elems q) element in
      let store := alter (fun e => mkElement (value e) newPriority) element (elems q) in
      if numLt newPriority oldPriority
      then
        match indexOf (values q) element with
        | None => Some (true, mkPriorityQueue store (values q) (valueMap q))
        | Some idx =>
            vals ← bubbleLoop idx store element idx (values q);
            Some (true, mkPriorityQueue store vals (valueMap q))
        end
      else if numLt oldPriority newPriority
      then
        idx ← indexOf (values q) element;
        vals ← sinkLoop (length (values q)) store element idx (values q);
        Some (true, mkPriorityQueue store vals (valueMap q))
      else Some (true, mkPriorityQueue store (values q) (valueMap q))
  end.

Definition containsValue (q : PriorityQueue) (v : Key) : bool :=
  bool_decide (is_Some (valueMap q !! v)).

(** *** The path finder *)

Record PathFinder := mkPathFinder {
  map : option DungeonMap;
  allowDiagonal : bool;
  avoidEntities : bool;
  avoidTraps : bool;
  cutCorners : bool;
  maxIterations : Z;
  heuristicWeight : Q;
  entityMap : gset Key
}.

(** [new PathFinder(map)] *)
Definition newPathFinder (m : option DungeonMap) : PathFinder :=
  mkPathFinder m true true true false 1000 (12 # 10) ∅.

Record Options := mkOptions {
  o_allowDiagonal : option bool;
  o_avoidEntities : option bool;
  o_avoidTraps : option bool;
  o_cutCorners : option bool;
  o_maxIterations : option Z;
  o_heuristicWeight : option Q
}.

Definition noOptions : Options := mkOptions None None None None None None.

Definition setOptions (pf : PathFinder) (o : Options) : PathFinder :=
  mkPathFinder (map pf)
    (default (allowDiagonal pf) (o_allowDiagonal o))
    (default (avoidEntities pf) (o_avoidEntities o))
    (default (avoidTraps pf) (o_avoidTraps o))
    (default (cutCorners pf) (o_cutCorners o))
    (default (maxIterations pf) (o_maxIterations o))
    (default (heuristicWeight pf) (o_heuristicWeight o))
    (entityMap pf).

(** [entities] is [None] for a missing argument. *)
Definition updateEntityMap (pf : PathFinder) (entities : option (list Point))
  : PathFinder :=
  let keys : gset Key :=
    match entities with
    | Some es =>
        if avoidEntities pf
        then list_to_set ((fun e => posToKey (px e) (py e)) <$> es)
        else ∅
    | None => ∅
    end in
  mkPathFinder (map pf) (allowDiagonal pf) (avoidEntities pf) (avoidTraps pf)
    (cutCorners pf) (maxIterations pf) (heuristicWeight pf) keys.

Definition isOccupiedByEntity (pf : PathFinder) (x y : Z) : bool :=
  if negb (avoidEntities pf) then false
  else bool_decide (posToKey x y ∈ entityMap pf).

Definition isWalkable (m : DungeonMap) (pf : PathFinder) (x y : Z) : bool :=
  if negb (isInBounds m x y) then false
  else match getTile m x y with
       | None => false
       | Some tile =>
           if negb (walkable tile) then false
           else if avoidEntities pf && isOccupiedByEntity pf x y then false
           else if avoidTraps pf && hasTrap tile && negb (hidden tile) then false
           else true
       end.

Record Neighbor := mkNeighbor { n_x : Z; n_y : Z; n_cost : Q }.

Definition checkNeighbor (m : DungeonMap) (pf : PathFinder) (x y : Z)
    (baseCost : Q) (neighbors : list Neighbor) : list Neighbor :=
  if isWalkable m pf x y
  then
    let cost :=
      match getTile m x y with
      | Some tile =>
          match moveCost tile with
          | Some c => if Qeq_bool c 0 then baseCost else (baseCost * c)%Q
          | None => baseCost
          end
      | None => baseCost
      end in
    neighbors ++ [mkNeighbor x y cost]
  else neighbors.

Definition getNeighbors (m : DungeonMap) (pf : PathFinder) (x y : Z)
  : list Neighbor :=
  let n1 := checkNeighbor m pf (x + 1) y 1 [] in
  let n2 := checkNeighbor m pf (x - 1) y 1 n1 in
  let n3 := checkNeighbor m pf x (y + 1) 1 n2 in
  let n4 := checkNeighbor m pf x (y - 1) 1 n3 in
  if allowDiagonal pf
  then
    let diagonalCost := (14 # 10)%Q in
    let n5 :=
      if cutCorners pf || (isWalkable m pf (x + 1) y && isWalkable m pf x (y + 1))
      then checkNeighbor m pf (x + 1) (y + 1) diagonalCost n4 else n4 in
    let n6 :=
      if cutCorners pf || (isWalkable m pf (x + 1) y && isWalkable m pf x (y - 1))
      then checkNeighbor m pf (x + 1) (y - 1) diagonalCost n5 else n5 in
    let n7 :=
      if cutCorners pf || (isWalkable m pf (x - 1) y && isWalkable m pf x (y + 1))
      then checkNeighbor m pf (x - 1) (y + 1) diagonalCost n6 else n6 in
    if cutCorners pf || (isWalkable m pf (x - 1) y && isWalkable m pf x (y - 1))
    then checkNeighbor m pf (x - 1) (y - 1) diagonalCost n7 else n7
  else n4.

(** [Math.SQRT2], the double nearest to the square root of 2. *)
Definition SQRT2 : Q := 6369051672525773 # 4503599627370496.

Definition heuristic (pf : PathFinder) (x1 y1 x2 y2 : Z) : Q :=
  if allowDiagonal pf
  then
    let dx := Z.abs (x1 - x2) in
    let dy := Z.abs (y1 - y2) in
    (inject_Z (dx + dy) + (SQRT2 - 2) * inject_Z (Z.min dx dy))%Q
  else inject_Z (Z.abs (x1 - x2) + Z.abs (y1 - y2)).

(** The [while (cameFrom.has(current))] loop of [reconstructPath]; [None]
    when it has not ended after [steps] turns. *)
Fixpoint reconstructLoop (steps : nat) (cameFrom : gmap Key Key)
    (current : Key) (path : list Point) : option (list Point * Key) :=
  match cameFrom !! current with
  | None => Some (path, current)
  | Some previous =>
      match steps with
      | O => None
      | S steps' =>
          let '(x, y) := keyToPos current in
          reconstructLoop steps' cameFrom previous (mkPoint x y :: path)
      end
  end.

Definition reconstructPath (steps : nat) (cameFrom : gmap Key Key)
    (currentKey : Key) : option (list Point) :=
  '(path, current) ← reconstructLoop steps cameFrom currentKey [];
  if bool_decide (0 < length path)%nat
  then let '(x, y) := keyToPos current in Some (mkPoint x y :: path)
  else Some path.

(** The maps of the search.  [closedSet] is a [Map] whose keys are kept
    in insertion order; [gScore.get(k)] of a missing key is [undefined]. *)
Record Search := mkSearch {
  openSet : PriorityQueue;
  closedSet : list Key;
  gScore : gmap Key Num;
  fScore : gmap Key Num;
  cameFrom : gmap Key Key
}.

Definition getNum (scores : gmap Key Num) (k : Key) : Num :=
  match scores !! k with
  | Some n => n
  | None => None
  end.

(** The body of [for (const neighbor of neighbors)]. *)
Definition processNeighbor (pf : PathFinder) (endX endY : Z) (currentKey : Key)
    (neighbor : Neighbor) (st : Search) : option Search :=
  let neighborKey := posToKey (n_x neighbor) (n_y neighbor) in
  if bool_decide (neighborKey ∈ closedSet st) then Some st
  else
    let tentativeGScore := numAdd (getNum (gScore st) currentKey) (Some (n_cost neighbor)) in
    let neighborInOpenSet := containsValue (openSet st) neighborKey in
    if negb neighborInOpenSet || numLt tentativeGScore (getNum (gScore st) neighborKey)
    then
      let cameFrom' := <[neighborKey := currentKey]> (cameFrom st) in
      let gScore' := <[neighborKey := tentativeGScore]> (gScore st) in
      let f := numAdd tentativeGScore
                 (Some (heuristic pf (n_x neighbor) (n_y neighbor) endX endY
                        * heuristicWeight pf)%Q) in
      let fScore' := <[neighborKey := f]> (fScore st) in
      if negb neighborInOpenSet
      then q ← enqueue (openSet st) neighborKey f;
           Some (mkSearch q (closedSet st) gScore' fScore' cameFrom')
      else '(_, q) ← updatePriority (openSet st) neighborKey f;
           Some (mkSearch q (closedSet st) gScore' fScore' cameFrom')
    else Some st.

Fixpoint processNeighbors (pf : PathFinder) (endX endY : Z) (currentKey : Key)
    (neighbors : list Neighbor) (st : Search) : option Search :=
  match neighbors with
  | [] => Some st
  | n :: ns =>
      st' ← processNeighbor pf endX endY currentKey n st;
      processNeighbors pf endX endY currentKey ns st'
  end.

(** What [findPath] returns, [None] standing for [null], and the number of
    turns its main loop took. *)
Record Found := mkFound { path : option (list Point); iterations : nat }.

(** The main loop; [left] is [maxIterations - iterations].  The result is
    [None] when the source would throw or not return. *)
Fixpoint searchLoop (left : nat) (done : nat) (m : DungeonMap) (pf : PathFinder)
    (endX endY : Z) (st : Search) : option Found :=
  if isEmpty (openSet st) then Some (mkFound None done)
  else
    match left with
    | O => Some (mkFound None done)
    | S left' =>
        '(current, q) ← dequeue (openSet st);
        currentKey ← current;
        let '(currentX, currentY) := keyToPos currentKey in
        if (currentX =? endX) && (currentY =? endY)
        then
          p ← reconstructPath (S (length (closedSet st))) (cameFrom st) currentKey;
          Some (mkFound (Some p) (S done))
        else
          let closed :=
            if bool_decide (currentKey ∈ closedSet st) then closedSet st
            else closedSet st ++ [currentKey] in
          let neighbors := getNeighbors m pf currentX currentY in
          st' ← processNeighbors pf endX endY currentKey neighbors
                  (mkSearch q closed (gScore st) (fScore st) (cameFrom st));
          searchLoop left' (S done) m pf endX endY st'
    end.

(** [findPath]; the options are in force during the call and restored on
    every way out.  Without a map it writes to the console and returns
    [null]. *)
Definition findPath (pf0 : PathFinder) (startX startY endX endY : Z)
    (options : Options) : option Found :=
  let pf := setOptions pf0 options in
  match map pf with
  | None => Some (mkFound None 0)
  | Some m =>
      if negb (isWalkable m pf startX startY) || negb (isWalkable m pf endX endY)
      then Some (mkFound None 0)
      else
        let startKey := posToKey startX startY in
        let gScore0 : gmap Key Num := <[startKey := Some 0%Q]> ∅ in
        let f0 : Num := Some (heuristic pf startX startY endX endY) in
        let fScore0 : gmap Key Num := <[startKey := f0]> ∅ in
        q ← enqueue emptyQueue startKey f0;
        searchLoop (Z.to_nat (maxIterations pf)) 0 m pf endX endY
          (mkSearch q [] gScore0 fScore0 ∅)
  end.

Definition hasPath (pf : PathFinder) (startX startY endX endY : Z)
    (options : Options) : option bool :=
  let maxIt := match o_maxIterations options with
               | Some n => if n =? 0 then 500 else n
               | None => 500
               end in
  let pathOptions :=
    mkOptions (o_allowDiagonal options) (o_avoidEntities options)
      (o_avoidTraps options) (o_cutCorners options) (Some maxIt)
      (o_heuristicWeight options) in
  r ← findPath pf startX startY endX endY pathOptions;
  Some (bool_decide (is_Some (path r))).

End PathFinder.

(** [validPositions.splice(index, 1)] for an index inside the array. *)
Definition removeAt {A} (i : nat) (l : list A) : list A := take i l ++ drop (S i) l.

(** ** Features (StairsGenerator, DoorGenerator, TrapGenerator) *)

Record FeatureGenerator := mkFeatureGenerator { fg_width : Z; fg_height : Z }.

(** [[...rooms].sort((a, b) => distB - distA)]: the sort is stable, so a
    room goes behind the rooms that are at least as far from the centre. *)
Fixpoint insertByDistance (mapCenter : Point) (r : Room) (sorted : list Room)
  : list Room :=
  match sorted with
  | [] => [r]
  | s :: rest =>
      if calculateDistance (room_center s) mapCenter
         <? calculateDistance (room_center r) mapCenter
      then r :: s :: rest
      else s :: insertByDistance mapCenter r rest
  end.

Definition sortByDistance (mapCenter : Point) (rooms : list Room) : list Room :=
  foldl (fun sorted r => insertByDistance mapCenter r sorted) [] rooms.

(** The floor tiles among [cells], in scan order. *)
Fixpoint floorCells (cells : list (Z * Z)) (m : Grid) : option (list (Z * Z)) :=
  match cells with
  | [] => Some []
  | (x, y) :: cells' =>
      match tileAt m x y with
      | None => None
      | Some t =>
          rest ← floorCells cells' m;
          Some (if Ascii.eqb (char t) TILE_TYPES.FLOOR then (x, y) :: rest else rest)
      end
  end.

Definition placeStairs (g : FeatureGenerator) (rooms : list Room) : M World Point :=
  let mapCenter := mkPoint (fg_width g / 2) (fg_height g / 2) in
  match sortByDistance mapCenter rooms with
  | stairsRoom :: _ =>
      dx ← randomInt (room_width stairsRoom - 2);
      let stairsX := dx + room_x stairsRoom + 1 in
      dy ← randomInt (room_height stairsRoom - 2);
      let stairsY := dy + room_y stairsRoom + 1 in
      onMap (writeTile (set_char TILE_TYPES.STAIRS) stairsX stairsY);;
      mret (mkPoint stairsX stairsY)
  | [] =>
      candidates ← onMap (fun m =>
        match floorCells (rect 0 0 (fg_width g) (fg_height g)) m with
        | Some cs => Some (cs, m)
        | None => None
        end);
      match candidates with
      | _ :: _ =>
          i ← randomInt (Z.of_nat (length candidates));
          match nthZ candidates i with
          | None => throw
          | Some pos =>
              onMap (writeTile (set_char TILE_TYPES.STAIRS) pos.1 pos.2);;
              mret (mkPoint pos.1 pos.2)
          end
      | [] =>
          let fallbackPos := mkPoint (fg_width g - 2) (fg_height g - 2) in
          onMap (writeTile (set_char TILE_TYPES.STAIRS) (px fallbackPos) (py fallbackPos));;
          mret fallbackPos
      end
  end.

Record DoorSpot := mkDoorSpot { spot_x : Z; spot_y : Z; spot_orientation : string }.

Record Door := mkDoor {
  door_x : Z;
  door_y : Z;
  door_type : string;
  door_orientation : string
}.

Definition charAt (m : Grid) (x y : Z) : option ascii := char <$> tileAt m x y.

(** The body of the loops of [findPotentialDoorLocations]. *)
Definition doorSpotsAt (m : Grid) (x y : Z) : option (list DoorSpot) :=
  c ← charAt m x y;
  if Ascii.eqb c TILE_TYPES.FLOOR
  then
    up ← charAt m x (y - 1);
    down ← charAt m x (y + 1);
    horizontal ←
      (if Ascii.eqb up TILE_TYPES.WALL && Ascii.eqb down TILE_TYPES.WALL
       then left ← charAt m (x - 1) y;
            if Ascii.eqb left TILE_TYPES.FLOOR
            then right ← charAt m (x + 1) y;
                 Some (if Ascii.eqb right TILE_TYPES.FLOOR
                       then [mkDoorSpot x y "horizontal"] else [])
            else Some []
       else Some []);
    left ← charAt m (x - 1) y;
    vertical ←
      (if Ascii.eqb left TILE_TYPES.WALL
       then right ← charAt m (x + 1) y;
            if Ascii.eqb right TILE_TYPES.WALL
            then if Ascii.eqb up TILE_TYPES.FLOOR && Ascii.eqb down TILE_TYPES.FLOOR
                 then Some [mkDoorSpot x y "vertical"] else Some []
            else Some []
       else Some []);
    Some (horizontal ++ vertical)
  else Some [].

Fixpoint doorSpots (cells : list (Z * Z)) (m : Grid) : option (list DoorSpot) :=
  match cells with
  | [] => Some []
  | (x, y) :: cells' =>
      here ← doorSpotsAt m x y;
      rest ← doorSpots cells' m;
      Some (here ++ rest)
  end.

Definition findPotentialDoorLocations (g : FeatureGenerator) : M Grid (list DoorSpot) :=
  fun m =>
    match doorSpots (rect 1 1 (fg_width g - 2) (fg_height g - 2)) m with
    | Some spots => Some (spots, m)
    | None => None
    end.

(** [shuffleArray]: [i] runs from the last index down to 1.  A [j] outside
    the array, which [Math.random()] never produces, is rendered as a
    failure. *)
Fixpoint shuffleFrom {A} (i : nat) (array : list A) : M World (list A) :=
  match i with
  | O => mret array
  | S i' =>
      j ← randomInt (Z.of_nat i + 1);
      match array !! i, nthZ array j with
      | Some ai, Some aj =>
          shuffleFrom i' (<[Z.to_nat j := ai]> (<[i := aj]> array))
      | _, _ => throw
      end
  end.

Definition shuffleArray {A} (array : list A) : M World (list A) :=
  shuffleFrom (length array - 1) array.

(** The loop shared by [placeRegularDoors], [placeLockedDoors] and
    [placeSecretDoors]; [count] is the number of doors still wanted. *)
Fixpoint stampDoors (kind : ascii) (type : string) (spots : list DoorSpot)
    (count : nat) (doorPositions : list Door) : M Grid (list Door) :=
  match spots, count with
  | [], _ => mret doorPositions
  | _, O => mret doorPositions
  | pos :: spots', S count' =>
      t ← readTile (spot_x pos) (spot_y pos);
      if Ascii.eqb (char t) TILE_TYPES.FLOOR
      then writeTile (set_char kind) (spot_x pos) (spot_y pos);;
           stampDoors kind type spots' count'
             (doorPositions ++
                [mkDoor (spot_x pos) (spot_y pos) type (spot_orientation pos)])
      else stampDoors kind type spots' count doorPositions
  end.

Definition placeDoorsOfKind (kind : ascii) (type : string)
    (potentialDoors : list DoorSpot) (count : Z) (doorPositions : list Door)
  : M World (list DoorSpot * list Door) :=
  shuffled ← shuffleArray potentialDoors;
  doors ← onMap (stampDoors kind type shuffled (Z.to_nat count) doorPositions);
  mret (shuffled, doors).

Definition placeDoors (g : FeatureGenerator) (floor : Z) : M World (list Door) :=
  potentialDoors ← onMap (findPotentialDoorLocations g);
  let doorCount := Qfloor (5 + inject_Z floor * (5 # 10)) in
  let regularDoorCount := Qfloor (inject_Z doorCount * (7 # 10)) in
  '(spots1, doors1) ←
    placeDoorsOfKind TILE_TYPES.DOOR "regular" potentialDoors regularDoorCount [];
  let lockedDoorCount := Qfloor (inject_Z doorCount * (2 # 10)) + floor / 3 in
  '(spots2, doors2) ←
    placeDoorsOfKind TILE_TYPES.LOCKED_DOOR "locked" spots1 lockedDoorCount doors1;
  let secretDoorCount := Qfloor (inject_Z doorCount * (1 # 10)) + floor / 4 in
  '(_, doors3) ←
    placeDoorsOfKind TILE_TYPES.SECRET_DOOR "secret" spots2 secretDoorCount doors2;
  mret doors3.

Record Trap := mkTrap {
  t_x : Z;
  t_y : Z;
  t_hidden : bool;
  t_damage : Z;
  t_type : string
}.

Definition isSpecialChar (c : ascii) : bool :=
  Ascii.eqb c TILE_TYPES.DOOR || Ascii.eqb c TILE_TYPES.LOCKED_DOOR
  || Ascii.eqb c TILE_TYPES.SECRET_DOOR || Ascii.eqb c TILE_TYPES.STAIRS.

Fixpoint anySpecial (g : FeatureGenerator) (neighbors : list (Z * Z)) (m : Grid)
  : option bool :=
  match neighbors with
  | [] => Some false
  | (x, y) :: rest =>
      if (x <? 0) || (fg_width g <=? x) || (y <? 0) || (fg_height g <=? y)
      then anySpecial g rest m
      else
        c ← charAt m x y;
        if isSpecialChar c then Some true else anySpecial g rest m
  end.

Definition hasSpecialNeighbor (g : FeatureGenerator) (m : Grid) (x y : Z)
  : option bool :=
  anySpecial g [(x + 1, y); (x - 1, y); (x, y + 1); (x, y - 1)] m.

Fixpoint trapCells (g : FeatureGenerator) (cells : list (Z * Z)) (m : Grid)
  : option (list (Z * Z)) :=
  match cells with
  | [] => Some []
  | (x, y) :: cells' =>
      c ← charAt m x y;
      here ←
        (if Ascii.eqb c TILE_TYPES.FLOOR
         then special ← hasSpecialNeighbor g m x y;
              Some (if special : bool then [] else [(x, y)])
         else Some []);
      rest ← trapCells g cells' m;
      Some (here ++ rest)
  end.

Definition findValidTrapPositions (g : FeatureGenerator) : M Grid (list (Z * Z)) :=
  fun m =>
    match trapCells g (rect 1 1 (fg_width g - 2) (fg_height g - 2)) m with
    | Some cells => Some (cells, m)
    | None => None
    end.

Definition getTrapType (floor : Z) : M World string :=
  let trapTypes := ["spike"; "poison"; "alarm"; "teleport"; "confusion"]%string in
  let pick (n : Z) : M World string :=
    i ← randomInt n; mret (default "undefined"%string (nthZ trapTypes i)) in
  if floor <=? 2 then mret "spike"%string
  else if floor <=? 5 then pick 2
  else if floor <=? 8 then pick 3
  else pick (Z.of_nat (length trapTypes)).

(** The loop of [placeTraps]; [count] is the number of turns left. *)
Fixpoint placeTrapsLoop (count : nat) (floor : Z) (hiddenTrapChance : Q)
    (validPositions : list (Z * Z)) (trapPositions : list Trap)
  : M World (list Trap) :=
  match count with
  | O => mret trapPositions
  | S count' =>
      if bool_decide (0 < length validPositions)%nat
      then
        index ← randomInt (Z.of_nat (length validPositions));
        match nthZ validPositions index with
        | None => throw
        | Some pos =>
            let validPositions' := removeAt (Z.to_nat index) validPositions in
            r ← random;
            let isHidden := Qltb r hiddenTrapChance in
            let minDamage := 1 + floor / 2 in
            let maxDamage := 3 + Qfloor (inject_Z floor / (3 # 2)) in
            d ← randomInt (maxDamage - minDamage + 1);
            let damage := d + minDamage in
            type ← getTrapType floor;
            onMap (writeTile (set_trap isHidden (mkTrapData damage type false))
                     pos.1 pos.2);;
            placeTrapsLoop count' floor hiddenTrapChance validPositions'
              (trapPositions ++ [mkTrap pos.1 pos.2 isHidden damage type])
        end
      else mret trapPositions
  end.

Definition placeTraps (g : FeatureGenerator) (floor difficulty : Z)
  : M World (list Trap) :=
  let baseCount := Qfloor (3 + inject_Z floor * (7 # 10)) in
  let difficultyMod := (inject_Z difficulty / 100)%Q in
  let trapCount := Qfloor (inject_Z baseCount * (1 + difficultyMod)) in
  let hiddenTrapChance :=
    ((6 # 10) + inject_Z floor * (2 # 100) + inject_Z difficulty * (2 # 1000))%Q in
  validPositions ← onMap (findValidTrapPositions g);
  placeTrapsLoop (Z.to_nat trapCount) floor hiddenTrapChance validPositions [].

(** ** Items (ItemPlacer) *)

(** A loot template and the item copied from it.  The placer reads
    [type], [damage], [defense], [bonuses] and [name] and writes [id],
    [x] and [y]; a property that is absent is [None]. *)
Record Item := mkItem {
  item_name : string;
  item_type : string;
  item_damage : option Q;
  item_defense : option Q;
  item_bonuses : option (list (string * Z));
  item_id : option string;
  item_x : option Z;
  item_y : option Z
}.

(** Where identifiers come from: [crypto.randomUUID] when the host has it,
    else a random number written in base 36; neither is part of the
    sources. *)
Record IdSource := mkIdSource {
  hasRandomUUID : bool;
  randomUUID : nat -> string;
  toBase36 : Q -> string
}.

(** The state of item placement: the generation state, the [items] array
    and the number of identifiers drawn from [crypto.randomUUID]. *)
Record Placing := mkPlacing {
  p_world : World;
  p_items : list Item;
  p_uuids : nat
}.

Record Placement := mkPlacement { pl_x : Z; pl_y : Z; pl_item : Item }.

Record ItemPlacer := mkItemPlacer { ip_width : Z; ip_height : Z }.

Definition inWorld {A} (c : M World A) : M Placing A :=
  fun s => match c (p_world s) with
           | Some (a, w') => Some (a, mkPlacing w' (p_items s) (p_uuids s))
           | None => None
           end.

Definition freshId (ids : IdSource) : M Placing string :=
  if hasRandomUUID ids
  then fun s => Some (randomUUID ids (p_uuids s),
                      mkPlacing (p_world s) (p_items s) (S (p_uuids s)))
  else r ← inWorld random; mret (toBase36 ids r).

Definition pushItem (it : Item) : M Placing unit :=
  modify (fun s => mkPlacing (p_world s) (p_items s ++ [it]) (p_uuids s)).

(** A number is truthy when it is there and not 0. *)
Definition truthy (n : option Q) : bool :=
  match n with
  | Some q => negb (Qeq_bool q 0)
  | None => false
  end.

(** [Math.max(1, Math.floor(stat * qualityMultiplier))] *)
Definition rescale (stat : option Q) (qualityMultiplier : Q) : option Q :=
  if truthy stat
  then (fun q => inject_Z (Z.max 1 (Qfloor (q * qualityMultiplier)))) <$> stat
  else stat.

(** [bonuses[key] = amount] on an object: an existing key keeps its place. *)
Fixpoint setBonus (key : string) (amount : Z) (bonuses : list (string * Z))
  : list (string * Z) :=
  match bonuses with
  | [] => [(key, amount)]
  | (k, v) :: rest =>
      if String.eqb k key then (key, amount) :: rest
      else (k, v) :: setBonus key amount rest
  end.

Definition adjustItemQuality (it : Item) (floor : Z) : M World Item :=
  r ← random;
  let qualityMultiplier := (1 + inject_Z floor * (1 # 10) + (r * (4 # 10) - (2 # 10)))%Q in
  let damage := rescale (item_damage it) qualityMultiplier in
  let defense := rescale (item_defense it) qualityMultiplier in
  let specialPropChance := ((1 # 10) + inject_Z floor * (3 # 100))%Q in
  r2 ← random;
  if Qltb r2 specialPropChance
  then
    let bonusTypes := ["strength"; "defense"; "speed"; "maxHp"]%string in
    i ← randomInt (Z.of_nat (length bonusTypes));
    let bonusType := default "undefined"%string (nthZ bonusTypes i) in
    let bonusAmount := Z.max 1 (floor / 3) in
    let bonuses := setBonus bonusType bonusAmount (default [] (item_bonuses it)) in
    let prefixes := ["Fine"; "Superior"; "Exceptional"; "Masterwork"; "Legendary"]%string in
    let prefix := default "undefined"%string
                    (nthZ prefixes (Z.min (floor / 3) (Z.of_nat (length prefixes) - 1))) in
    mret (mkItem (prefix ++ " " ++ item_name it) (item_type it) damage defense
            (Some bonuses) (item_id it) (item_x it) (item_y it))
  else
    mret (mkItem (item_name it) (item_type it) damage defense
            (item_bonuses it) (item_id it) (item_x it) (item_y it)).

(** [getRandomItem] and [getRandomItemOfType]: [None] for [null]; copying
    an [undefined] entry through JSON throws. *)
Definition getRandomItem (lootPool : option (list Item)) (floor : Z)
  : M World (option Item) :=
  match lootPool with
  | None => mret None
  | Some [] => mret None
  | Some pool =>
      i ← randomInt (Z.of_nat (length pool));
      match nthZ pool i with
      | None => throw
      | Some template => it ← adjustItemQuality template floor; mret (Some it)
      end
  end.

Definition getRandomItemOfType (items : list Item) (floor : Z)
  : M World (option Item) :=
  getRandomItem (Some items) floor.

(** The common end of a placement: identifier, position, tile mark and the
    two pushes. *)
Definition commitItem (ids : IdSource) (it : Item) (pos : Z * Z)
    (positions : list Placement) : M Placing (list Placement) :=
  id ← freshId ids;
  let it' := mkItem (item_name it) (item_type it) (item_damage it) (item_defense it)
               (item_bonuses it) (Some id) (Some pos.1) (Some pos.2) in
  inWorld (onMap (writeTile (set_item true) pos.1 pos.2));;
  pushItem it';;
  mret (positions ++ [mkPlacement pos.1 pos.2 it']).

Definition findValidItemPositions (ip : ItemPlacer) : M Grid (list (Z * Z)) :=
  fun m =>
    (fix scan (cells : list (Z * Z)) (valid : list (Z * Z)) :=
       match cells with
       | [] => Some (valid, m)
       | (x, y) :: cells' =>
           match tileAt m x y with
           | None => None
           | Some t =>
               if Ascii.eqb (char t) TILE_TYPES.FLOOR && negb (item t)
                  && negb (bool_decide (is_Some (trapData t)))
               then scan cells' (valid ++ [(x, y)])
               else scan cells' valid
           end
       end) (rect 1 1 (ip_width ip - 2) (ip_height ip - 2)) [].

(** [placeItemOfType]; it returns the two arrays it updates. *)
Definition placeItemOfType (ids : IdSource) (validPositions : list (Z * Z))
    (lootPool : list Item) (type : string) (floor : Z)
    (positions : list Placement) : M Placing (list (Z * Z) * list Placement) :=
  if bool_decide (length validPositions = 0%nat) then mret (validPositions, positions)
  else
    let typeItems := filter (fun it => item_type it = type) lootPool in
    if bool_decide (length typeItems = 0%nat) then mret (validPositions, positions)
    else
      index ← inWorld (randomInt (Z.of_nat (length validPositions)));
      match nthZ validPositions index with
      | None => throw
      | Some pos =>
          let validPositions' := removeAt (Z.to_nat index) validPositions in
          found ← inWorld (getRandomItemOfType typeItems floor);
          match found with
          | None => mret (validPositions', positions)
          | Some it =>
              positions' ← commitItem ids it pos positions;
              mret (validPositions', positions')
          end
      end.

(** The last loop of [placeItems]; [count] is the number of turns left. *)
Fixpoint placeRandomItems (count : nat) (ids : IdSource)
    (validPositions : list (Z * Z)) (lootPool : list Item) (floor : Z)
    (positions : list Placement) : M Placing (list Placement) :=
  match count with
  | O => mret positions
  | S count' =>
      if bool_decide (0 < length validPositions)%nat
      then
        index ← inWorld (randomInt (Z.of_nat (length validPositions)));
        match nthZ validPositions index with
        | None => throw
        | Some pos =>
            let validPositions' := removeAt (Z.to_nat index) validPositions in
            found ← inWorld (getRandomItem (Some lootPool) floor);
            match found with
            | None => placeRandomItems count' ids validPositions' lootPool floor positions
            | Some it =>
                positions' ← commitItem ids it pos positions;
                placeRandomItems count' ids validPositions' lootPool floor positions'
            end
        end
      else mret positions
  end.

(** [placeItems(map, items, floor, difficulty, lootPool)]; a missing pool
    is [None]. *)
Definition placeItems (ip : ItemPlacer) (ids : IdSource) (floor difficulty : Z)
    (lootPool : option (list Item)) : M Placing (list Placement) :=
  match lootPool with
  | None | Some [] =>
      inWorld (warn "No loot pool provided for item placement");;
      mret []
  | Some pool =>
      let lootFactor := (inject_Z difficulty / 50)%Q in
      let baseItemCount := 3 + Qfloor (inject_Z floor * (12 # 10)) in
      let itemCount := Qfloor (inject_Z baseItemCount * lootFactor) in
      validPositions ← inWorld (onMap (findValidItemPositions ip));
      if bool_decide (length validPositions = 0%nat) then mret []
      else
        r1 ← inWorld random;
        '(valid1, pos1) ←
          (if Qltb r1 (7 # 10)
           then placeItemOfType ids validPositions pool "weapon" floor []
           else mret (validPositions, []));
        r2 ← inWorld random;
        '(valid2, pos2) ←
          (if Qltb r2 (6 # 10)
           then placeItemOfType ids valid1 pool "body_armor" floor pos1
           else mret (valid1, pos1));
        r3 ← inWorld random;
        '(valid3, pos3) ←
          (if Qltb r3 (5 # 10)
           then placeItemOfType ids valid2 pool "helmet" floor pos2
           else mret (valid2, pos2));
        placeRandomItems (Z.to_nat itemCount) ids valid3 pool floor pos3
  end.

(** ** The level (MapGenerator.generateLevel) *)

(** The orchestrator and its four generators.  The room generator keeps
    the size parameters [adjustRoomParams] wrote in earlier calls. *)
Record MapGenerator := mkMapGenerator {
  mg_width : Z;
  mg_height : Z;
  roomGenerator : RoomGenerator;
  corridorGenerator : CorridorGenerator;
  featureGenerator : FeatureGenerator;
  itemPlacer : ItemPlacer
}.

(** [new MapGenerator()] *)
Definition newMapGenerator : MapGenerator :=
  mkMapGenerator MAP.WIDTH MAP.HEIGHT
    (newRoomGenerator MAP.WIDTH MAP.HEIGHT)
    (mkCorridorGenerator MAP.WIDTH MAP.HEIGHT)
    (mkFeatureGenerator MAP.WIDTH MAP.HEIGHT)
    (mkItemPlacer MAP.WIDTH MAP.HEIGHT).

Record Level := mkLevel {
  level_map : Grid;
  level_rooms : list Room;
  level_stairsPos : Point;
  level_startPos : Point;
  level_doors : list Door;
  level_traps : list Trap;
  level_items : list Item;
  level_floor : Z
}.

(** The first three statements of [generateLevel]: the wall-filled map,
    the rooms, the corridors. *)
Definition generateLayout (mg : MapGenerator) (floor : Z)
  : M World (list Room * MapGenerator) :=
  modify (fun w => mkWorld (initializeMap (mg_width mg) (mg_height mg))
                           (w_rnd w) (w_pos w) (w_log w));;
  '(rooms, rg) ← generateRooms (roomGenerator mg) floor;
  connectRooms (corridorGenerator mg) rooms;;
  mret (rooms,
        mkMapGenerator (mg_width mg) (mg_height mg) rg (corridorGenerator mg)
          (featureGenerator mg) (itemPlacer mg)).

(** [generateLevel(floor, difficulty, lootPool)].  The map and the items
    array are created by the call and handed back in the level. *)
Definition generateLevel (mg : MapGenerator) (ids : IdSource)
    (floor difficulty : Z) (lootPool : option (list Item))
  : M Placing (Level * MapGenerator) :=
  modify (fun s => mkPlacing (p_world s) [] (p_uuids s));;
  '(rooms, mg') ← inWorld (generateLayout mg floor);
  stairsPos ← inWorld (placeStairs (featureGenerator mg) rooms);
  doors ← inWorld (placeDoors (featureGenerator mg) floor);
  traps ← inWorld (placeTraps (featureGenerator mg) floor difficulty);
  placeItems (itemPlacer mg) ids floor difficulty lootPool;;
  m ← gets (fun s => w_map (p_world s));
  items ← gets p_items;
  match findStartPosition (mg_width mg) (mg_height mg) m stairsPos with
  | None => throw
  | Some startPos =>
      mret (mkLevel m rooms stairsPos startPos doors traps items floor, mg')
  end.

(** The loop of [generateDungeon]; [i] is the index of the next floor. *)
Fixpoint generateFloors (count : nat) (mg : MapGenerator) (ids : IdSource)
    (i : Z) (difficulty : Z) (lootPool : option (list Item))
    (floors : list Level) : M Placing (list Level * MapGenerator) :=
  match count with
  | O => mret (floors, mg)
  | S count' =>
      let floorDifficulty := difficulty + i * 5 in
      '(level, mg') ← generateLevel mg ids (i + 1) floorDifficulty lootPool;
      generateFloors count' mg' ids (i + 1) difficulty lootPool (floors ++ [level])
  end.

Definition generateDungeon (mg : MapGenerator) (ids : IdSource)
    (floorCount difficulty : Z) (lootPool : option (list Item))
  : M Placing (list Level * MapGenerator) :=
  generateFloors (Z.to_nat floorCount) mg ids 0 difficulty lootPool [].

(** ** Vocabulary of the specification *)

(** A tile one can stand on: it exists and is not wall. *)
Definition passable (m : Grid) (p : Z * Z) : Prop :=
  exists t, tileAt m p.1 p.2 = Some t /\ isBlocking t = false.

Definition adjacent4 (p q : Z * Z) : Prop :=
  Z.abs (p.1 - q.1) + Z.abs (p.2 - q.2) = 1.

(** One orthogonal step onto a passable tile, and any number of them. *)
Definition floorStep (m : Grid) (p q : Z * Z) : Prop :=
  adjacent4 p q /\ passable m q.

Definition reachable (m : Grid) : Z * Z -> Z * Z -> Prop := rtc (floorStep m).

Definition inRoom (r : Room) (p : Z * Z) : Prop :=
  room_x r <= p.1 < room_x r + room_width r /\
  room_y r <= p.2 < room_y r + room_height r.

Definition roomsConnected (m : Grid) (rooms : list Room) : Prop :=
  forall a b p q, a ∈ rooms -> b ∈ rooms -> inRoom a p -> inRoom b q ->
                  reachable m p q.

(** The rectangle of [a] grown by one tile on every side misses [b]. *)
Definition separated (a b : Room) : Prop :=
  forall p q, inRoom a p -> inRoom b q ->
              1 < Z.abs (p.1 - q.1) \/ 1 < Z.abs (p.2 - q.2).

Definition pairwiseSeparated (rooms : list Room) : Prop :=
  forall i j a b, rooms !! i = Some a -> rooms !! j = Some b -> i <> j ->
                  separated a b.

(** The room lies inside the map with a border to spare, as the first test
    of [canPlaceRoom] asks. *)
Definition roomFits (rg : RoomGenerator) (room : Room) : Prop :=
  1 <= room_x room /\ 1 <= room_y room /\
  room_x room + room_width room < rg_width rg - 1 /\
  room_y room + room_height room < rg_height rg - 1.

(** The rectangle of the room and the margin of one tile around it. *)
Definition inMargin (r : Room) (p : Z * Z) : Prop :=
  room_x r - 1 <= p.1 < room_x r + room_width r + 1 /\
  room_y r - 1 <= p.2 < room_y r + room_height r + 1.

Definition isWallAt (m : Grid) (p : Z * Z) : Prop :=
  exists t, tileAt m p.1 p.2 = Some t /\ char t = TILE_TYPES.WALL.

(** What the room loop maintains: the cells of the committed rooms are not
    wall, and the rooms keep their distance. *)
Definition roomsCarved (m : Grid) (rooms : list Room) : Prop :=
  forall a p, a ∈ rooms -> inRoom a p ->
              exists t, tileAt m p.1 p.2 = Some t /\ char t <> TILE_TYPES.WALL.

Definition floorAt (m : Grid) (p : Z * Z) : Prop :=
  exists t, tileAt m p.1 p.2 = Some t /\ char t = TILE_TYPES.FLOOR.

Definition coords (p : Point) : Z * Z := (px p, py p).

Definition manhattan (p : Z * Z) (s : Point) : Z :=
  Z.abs (p.1 - px s) + Z.abs (p.2 - py s).

(** [p] comes before [q] in a scan by rows. *)
Definition rowMajorLt (p q : Z * Z) : Prop :=
  p.2 < q.2 \/ (p.2 = q.2 /\ p.1 < q.1).

Definition wfGridb (w h : Z) (m : Grid) : bool :=
  (Z.of_nat (length m) =? h) && forallb (fun row => Z.of_nat (length row) =? w) m.

(** A carving call: [hCorridor(map, x1, x2, y)] or [vCorridor(map, y1, y2, x)]. *)
Inductive Segment :=
| HSeg (x1 x2 y : Z)
| VSeg (y1 y2 x : Z).

Definition carve (g : CorridorGenerator) (s : Segment) : M Grid unit :=
  match s with
  | HSeg x1 x2 y => hCorridor g x1 x2 y
  | VSeg y1 y2 x => vCorridor g y1 y2 x
  end.

(** What carving does to one tile: wall becomes floor, anything else stays. *)
Definition dig (t : Tile) : Tile :=
  if Ascii.eqb (char t) TILE_TYPES.WALL then set_char TILE_TYPES.FLOOR t else t.

Definition digIf (b : bool) (o : option Tile) : option Tile :=
  if b then dig <$> o else o.

(** The lengths of the rows. *)
Definition shape (m : Grid) : list nat := length <$> m.

Definition inBounds (g : CorridorGenerator) (x y : Z) : bool :=
  (0 <=? x) && (x <? cg_width g) && (0 <=? y) && (y <? cg_height g).

(** [(x, y)] is one of [cells] and lies inside the generator's bounds. *)
Definition hit (g : CorridorGenerator) (cells : list (Z * Z)) (x y : Z) : bool :=
  existsb (fun c => (c.1 =? x) && (c.2 =? y)) cells && inBounds g x y.

Definition segCells (s : Segment) : list (Z * Z) :=
  match s with
  | HSeg x1 x2 y =>
      (fun x => (x, y)) <$> seqZ (Z.min x1 x2) (Z.max x1 x2 - Z.min x1 x2 + 1)
  | VSeg y1 y2 x =>
      (fun y => (x, y)) <$> seqZ (Z.min y1 y2) (Z.max y1 y2 - Z.min y1 y2 + 1)
  end.

(** Every tile shown as visible has been discovered. *)
Definition visibleDiscovered (m : Grid) : Prop :=
  forall x y t, tileAt m x y = Some t -> visible t = true -> discovered t = true.

(** How a field-of-view operation may change a tile: the terrain stays,
    a discovered tile stays discovered, and a tile that became visible is
    discovered. *)
Definition tileStep (t t' : Tile) : Prop :=
  char t' = char t /\
  (discovered t = true -> discovered t' = true) /\
  (visible t' = true -> visible t = true \/ discovered t' = true).

Definition evolves (m m' : Grid) : Prop :=
  shape m' = shape m /\
  forall x y, option_Forall2 tileStep (tileAt m x y) (tileAt m' x y).

(** One operation of the FOV object on a map: [calculate] or
    [resetVisibility]. *)
Definition fovStep (s s' : Sight) : Prop :=
  (exists originX originY radius tiles,
     calculate originX originY radius s = Some (tiles, s')) \/
  (exists m', resetVisibility (s_map s) = Some (tt, m') /\
              s' = mkSight (s_fov s) m').


(** The disk of radius [radius] around the origin, cut to the map. *)
Definition inDisk (originX originY radius : Z) (p : Point) : Prop :=
  0 <= px p < MAP.WIDTH /\ 0 <= py p < MAP.HEIGHT /\
  (px p - originX) * (px p - originX) + (py p - originY) * (py p - originY)
    <= radius * radius.


(** Vocabulary for the path finder. *)
Module PathSpec.
Import PathFinder.

(** Two heap arrays hold the same objects. *)
Definition sameItems (l l' : list nat) : Prop :=
  length l' = length l /\ (forall x, x ∈ l' <-> x ∈ l) /\ (NoDup l -> NoDup l').

(** The queue is in order: the array holds distinct objects of the store,
    and the objects the map names are in the array under their value. *)
Definition wfQueue (q : PriorityQueue) : Prop :=
  NoDup (values q) /\
  (forall r, r ∈ values q -> (r < length (elems q))%nat) /\
  (forall k r, valueMap q !! k = Some r ->
               r ∈ values q /\ value <$> (elems q !! r) = Some k).

(** [k] is the value of an object of the array. *)
Definition queued (q : PriorityQueue) (k : Key) : Prop :=
  exists r e, r ∈ values q /\ elems q !! r = Some e /\ value e = k.

(** One move of the search: from [p] to a neighbour [getNeighbors] lists. *)
Definition moveTo (m : DungeonMap) (pf : PathFinder) (p q : Key) : Prop :=
  exists n, n ∈ getNeighbors m pf p.1 p.2 /\ posToKey (n_x n) (n_y n) = q.

Definition connected (m : DungeonMap) (pf : PathFinder) : Key -> Key -> Prop :=
  rtc (moveTo m pf).

(** Every entry of [cameFrom] leads to a node closed earlier than its key
    was, if the key is closed at all. *)
Definition ranked (closed : list Key) (cf : gmap Key Key) : Prop :=
  forall k c, cf !! k = Some c ->
    exists i, closed !! i = Some c /\ forall j, closed !! j = Some k -> (i < j)%nat.

(** What the main loop maintains, for a property [P] of positions that
    moves preserve: the queue is in order, [cameFrom] leads backwards, and
    every queued position has [P]. *)
Definition searchInv (P : Key -> Prop) (st : Search) : Prop :=
  wfQueue (openSet st) /\
  ranked (closedSet st) (cameFrom st) /\
  forall k, queued (openSet st) k -> P k.

End PathSpec.

(** ** Concrete scenarios *)

(** A run of the random source: three rooms are accepted, the second one
    far from the other two; every later draw is [0]. *)
Definition strandedDraws : list Q :=
  [0; 0; 0; 0; 1 # 2;
   0; 0; 1 # 2; 1 # 2; 1 # 2;
   0; 0; 1 # 16; 0; 1 # 2]%Q.

Definition strandedWorld : World :=
  mkWorld [] (fun n => nth n strandedDraws 0%Q) 0 [].

Definition strandedLevel : option (list Room * MapGenerator * World) :=
  generateLayout newMapGenerator 1 strandedWorld.

(** The world the run ends in, and its map. *)
Definition strandedOut : World :=
  match strandedLevel with
  | Some (_, w) => w
  | None => strandedWorld
  end.

Definition strandedMap : Grid := w_map strandedOut.

Definition strandedRooms : list Room :=
  [mkRoom 1 1 3 3 false (mkPoint 2 2);
   mkRoom 38 23 3 3 false (mkPoint 39 24);
   mkRoom 5 1 3 3 false (mkPoint 6 2)].

(** A wall-filled map of the game's size and the random source of the
    scenario above. *)
Definition freshWorld : World :=
  mkWorld (initializeMap MAP.WIDTH MAP.HEIGHT) (fun n => nth n strandedDraws 0%Q) 0 [].

(** A map of three rows of three walls, and the same map after
    [hCorridor(map, 0, 2, 1)]. *)
Definition smallGenerator : CorridorGenerator := mkCorridorGenerator 3 3.

Definition smallMap : Grid := initializeMap 3 3.

Definition smallMapCarved : Grid :=
  [replicate 3 (newTile TILE_TYPES.WALL);
   replicate 3 (newTile TILE_TYPES.FLOOR);
   replicate 3 (newTile TILE_TYPES.WALL)].

(** An open floor of the game's size, a fresh FOV object on it, and the
    outcome of [calculate(map, 5, 5, 2)]. *)
Definition openMap : Grid :=
  replicate (Z.to_nat MAP.HEIGHT) (replicate (Z.to_nat MAP.WIDTH) (newTile TILE_TYPES.FLOOR)).

Definition openSight : Sight := mkSight newFOV openMap.

Definition openTiles : list Point :=
  match calculate 5 5 2 openSight with
  | Some (tiles, _) => tiles
  | None => []
  end.

Definition openSightAfter : Sight :=
  match calculate 5 5 2 openSight with
  | Some (_, s') => s'
  | None => openSight
  end.

(** A map of a single walkable tile at (0,0), and a corridor of three
    walkable tiles whose middle one is missing. *)
Definition floorTile : PathFinder.PTile :=
  PathFinder.mkPTile true false false None true.

Definition oneTileMap : PathFinder.DungeonMap :=
  PathFinder.mkDungeonMap
    (fun x y => (x =? 0) && (y =? 0))
    (fun x y => if (x =? 0) && (y =? 0) then Some floorTile else None).

Definition splitMap : PathFinder.DungeonMap :=
  PathFinder.mkDungeonMap
    (fun x y => (0 <=? x) && (x <? 3) && (y =? 0))
    (fun x y => if ((x =? 0) || (x =? 2)) && (y =? 0) then Some floorTile else None).

(** Item placement on the open floor, with three identifiers at hand. *)
Definition someIds : IdSource :=
  mkIdSource true (fun n => nth n ["id-0"; "id-1"; "id-2"]%string "id-n"%string)
             (fun _ => "0"%string).

Definition placingStart : Placing :=
  mkPlacing (mkWorld openMap (fun n => nth n strandedDraws 0%Q) 0 []) [] 0.

(** The whole of [generateLevel] on the run of the random source that
    strands a room, without a loot pool. *)
Definition strandedPlacing : Placing := mkPlacing strandedWorld [] 0.

Definition strandedFinal : option (Level * MapGenerator * Placing) :=
  generateLevel newMapGenerator someIds 1 50 None strandedPlacing.

Definition strandedFinalLevel : Level :=
  match strandedFinal with
  | Some (level, _, _) => level
  | None => mkLevel [] [] (mkPoint 0 0) (mkPoint 0 0) [] [] [] 0
  end.

Definition strandedFinalState : Placing :=
  match strandedFinal with
  | Some (_, s) => s
  | None => strandedPlacing
  end.

(** ** Vocabulary for the field of view *)

(** The two writes of the FOV engine on a tile it sees. *)
Definition markSeen (t : Tile) : Tile := set_discovered true (set_visible true t).

Definition markIf (b : bool) (o : option Tile) : option Tile :=
  if b then markSeen <$> o else o.

(** The map of [s] is [m0] with the tiles of the FOV object's list marked
    as seen, and nothing else changed. *)
Definition marksOf (m0 : Grid) (s : Sight) : Prop :=
  shape (s_map s) = shape m0 /\
  forall x y, tileAt (s_map s) x y = markIf (isVisible (s_fov s) x y) (tileAt m0 x y).

(** The origin, or a tile of the disk around it. *)
Definition inSight (originX originY radius : Z) (p : Point) : Prop :=
  p = mkPoint originX originY \/ inDisk originX originY radius p.

(** The cells [resetVisibility] visits. *)
Definition inWindow (x y : Z) : bool :=
  (0 <=? x) && (x <? MAP.WIDTH) && (0 <=? y) && (y <? MAP.HEIGHT).

(** A map with a wall across the view, a fresh FOV object on it, and the
    outcome of [calculate(map, 5, 5, 3)]. *)
Definition walledMap : Grid :=
  updTile (set_char TILE_TYPES.WALL) (updTile (set_char TILE_TYPES.WALL) openMap 6 5) 5 4.

Definition walledSight : Sight := mkSight newFOV walledMap.

Definition walledTiles : list Point :=
  match calculate 5 5 3 walledSight with
  | Some (tiles, _) => tiles
  | None => []
  end.

Definition walledSightAfter : Sight :=
  match calculate 5 5 3 walledSight with
  | Some (_, s') => s'
  | None => walledSight
  end.

(** What a run of the shadow casting keeps for the origin [(ox, oy)] and
    the radius [r]: the map is the first map with the listed tiles marked,
    the list only grows, by tiles of the disk, and the cache key stays. *)
Definition castKeeps (m0 : Grid) (ox oy r : Z) (s s' : Sight) : Prop :=
  marksOf m0 s ->
  marksOf m0 s' /\
  (exists added, visibleTiles (s_fov s') = visibleTiles (s_fov s) ++ added /\
                 Forall (inDisk ox oy r) added) /\
  lastPlayerPos (s_fov s') = lastPlayerPos (s_fov s) /\
  lastRadius (s_fov s') = lastRadius (s_fov s).

(** ** Vocabulary for corridors *)

(** [m'] is [m] with some of its walls dug into floor. *)
Definition dugFrom (m m' : Grid) : Prop :=
  shape m' = shape m /\
  forall x y, exists b, tileAt m' x y = digIf b (tileAt m x y).

(** Every draw of the random source lies in [0, 1), as [Math.random()]
    promises. *)
Definition unitDraws (w : World) : Prop :=
  forall n, (0 <= w_rnd w n)%Q /\ (w_rnd w n < 1)%Q.

(** What a corridor operation leaves: a map of the generator's size in
    which walls only were dug, the random sequence and the console as they
    were. *)
Definition digs (g : CorridorGenerator) (w w' : World) : Prop :=
  wfGrid (cg_width g) (cg_height g) (w_map w') /\
  dugFrom (w_map w) (w_map w') /\
  w_rnd w' = w_rnd w /\ w_log w' = w_log w.

(** A chain of passable tiles leads from [p] to [q]. *)
Definition joined (m : Grid) (p q : Z * Z) : Prop :=
  passable m p /\ reachable m p q.

(** The operation [c] draws a corridor from [p] to [q]: on a map of the
    generator's size it returns, it only digs, and when both ends lie on
    the map they are joined afterwards. *)
Definition drawsCorridor (g : CorridorGenerator) (c : M World unit) (p q : Z * Z)
  : Prop :=
  forall w, wfGrid (cg_width g) (cg_height g) (w_map w) ->
    exists w', c w = Some (tt, w') /\ digs g w w' /\
      (inBounds g p.1 p.2 = true -> inBounds g q.1 q.2 = true ->
       joined (w_map w') p q).

(** The room indices the search of [connectRooms] holds are indices of
    [rooms]. *)
Definition validSearch (rooms : list Room) (s : RoomSearch) : Prop :=
  forall i, i ∈ connected s -> (i < length rooms)%nat.

(** What the search of a pass of [connectRooms] keeps, for the set [conn0]
    the pass started with: the set only grows at its end, and it has
    grown exactly when a distance has been recorded. *)
Definition searchGrows (rooms : list Room) (conn0 : list nat) (s : RoomSearch) : Prop :=
  validSearch rooms s /\
  exists extra, connected s = conn0 ++ extra /\
                (minDistance s = None <-> extra = []).

(** Two rooms far apart on a wall-filled map of the game's size, with a
    random source that chooses a zigzag corridor. *)
Definition zigzagDraws : list Q := [3 # 4; 1 # 2; 1 # 4]%Q.

Definition twoRooms : list Room :=
  [mkRoom 2 2 5 5 false (mkPoint 4 4); mkRoom 60 30 6 4 false (mkPoint 63 32)].

Definition twoRoomsWorld : World :=
  mkWorld (initializeMap MAP.WIDTH MAP.HEIGHT) (fun n => nth n zigzagDraws 0%Q) 0 [].

(** ** Vocabulary for rooms *)

(** [p] lies in one of [rooms]. *)
Definition inRooms (rooms : list Room) (p : Z * Z) : Prop :=
  exists a, a ∈ rooms /\ inRoom a p.

(** The size of the room is within the generator's limits and its centre
    is the one [generateRoom] computes, a cell of the room. *)
Definition roomSized (rg : RoomGenerator) (room : Room) : Prop :=
  minRoomSize rg <= room_width room <= maxRoomSize rg /\
  minRoomSize rg <= room_height room <= maxRoomSize rg /\
  room_center room = mkPoint (room_x room + room_width room / 2)
                             (room_y room + room_height room / 2).

(** ** Vocabulary for doors *)

(** A place for a door, as [findPotentialDoorLocations] asks: a floor tile
    of a corridor, with wall on two opposite sides and floor on the two
    others. *)
Definition isDoorSpot (m : Grid) (s : DoorSpot) : Prop :=
  let x := spot_x s in
  let y := spot_y s in
  charAt m x y = Some TILE_TYPES.FLOOR /\
  ((spot_orientation s = "horizontal"%string /\
    charAt m x (y - 1) = Some TILE_TYPES.WALL /\
    charAt m x (y + 1) = Some TILE_TYPES.WALL /\
    charAt m (x - 1) y = Some TILE_TYPES.FLOOR /\
    charAt m (x + 1) y = Some TILE_TYPES.FLOOR) \/
   (spot_orientation s = "vertical"%string /\
    charAt m (x - 1) y = Some TILE_TYPES.WALL /\
    charAt m (x + 1) y = Some TILE_TYPES.WALL /\
    charAt m x (y - 1) = Some TILE_TYPES.FLOOR /\
    charAt m x (y + 1) = Some TILE_TYPES.FLOOR)).

(** The tile character of a door of the given type. *)
Definition doorChar (type : string) : option ascii :=
  if String.eqb type "regular" then Some TILE_TYPES.DOOR
  else if String.eqb type "locked" then Some TILE_TYPES.LOCKED_DOOR
  else if String.eqb type "secret" then Some TILE_TYPES.SECRET_DOOR
  else None.

Definition spotAt (s : DoorSpot) : Z * Z := (spot_x s, spot_y s).

Definition doorAt (d : Door) : Z * Z := (door_x d, door_y d).

Definition spotOf (d : Door) : DoorSpot :=
  mkDoorSpot (door_x d) (door_y d) (door_orientation d).

(** What the door loops keep, from the map [m0] they started on to the map
    [m] and the doors placed so far: every door stands on a floor tile of
    [m0] and carries the character of its type, no two doors share a tile,
    and every other tile is as in [m0]. *)
Definition doorsOn (m0 m : Grid) (doors : list Door) : Prop :=
  shape m = shape m0 /\
  NoDup (doorAt <$> doors) /\
  (forall d, d ∈ doors ->
     charAt m0 (door_x d) (door_y d) = Some TILE_TYPES.FLOOR /\
     exists c, doorChar (door_type d) = Some c /\
               tileAt m (door_x d) (door_y d)
               = set_char c <$> tileAt m0 (door_x d) (door_y d)) /\
  (forall x y, (x, y) ∉ doorAt <$> doors -> tileAt m x y = tileAt m0 x y).

(** A corridor of the game's map with a door spot in it. *)
Definition corridorMap : Grid :=
  updTile (set_char TILE_TYPES.FLOOR)
    (updTile (set_char TILE_TYPES.FLOOR)
       (updTile (set_char TILE_TYPES.FLOOR) (initializeMap MAP.WIDTH MAP.HEIGHT) 4 5) 5 5) 6 5.

Definition corridorWorld : World :=
  mkWorld corridorMap (fun n => nth n strandedDraws 0%Q) 0 [].

(** ** Vocabulary for stairs and traps *)

(** The distance [placeStairs] sorts the rooms by. *)
Definition farness (g : FeatureGenerator) (r : Room) : Z :=
  calculateDistance (room_center r) (mkPoint (fg_width g / 2) (fg_height g / 2)).

(** The room lies on the map and has tiles that are not on its edge. *)
Definition roomOnMap (g : FeatureGenerator) (r : Room) : Prop :=
  3 <= room_width r /\ 3 <= room_height r /\
  0 <= room_x r /\ room_x r + room_width r <= fg_width g /\
  0 <= room_y r /\ room_y r + room_height r <= fg_height g.

(** The map [m'] is [m] with the character of the tile at [pos] replaced by
    the stairs. *)
Definition stairsPut (m m' : Grid) (pos : Point) : Prop :=
  forall x y,
    tileAt m' x y
    = if bool_decide (x = px pos /\ y = py pos)
      then set_char TILE_TYPES.STAIRS <$> tileAt m x y
      else tileAt m x y.

(** A door or the stairs at [(x, y)]. *)
Definition specialAt (m : Grid) (x y : Z) : Prop :=
  exists c, charAt m x y = Some c /\ isSpecialChar c = true.

(** A place for a trap, as [findValidTrapPositions] asks: a floor tile off
    the border with no door and no stairs on its four sides. *)
Definition isTrapSpot (g : FeatureGenerator) (m : Grid) (x y : Z) : Prop :=
  1 <= x < fg_width g - 1 /\ 1 <= y < fg_height g - 1 /\
  charAt m x y = Some TILE_TYPES.FLOOR /\
  ~ specialAt m (x + 1) y /\ ~ specialAt m (x - 1) y /\
  ~ specialAt m x (y + 1) /\ ~ specialAt m x (y - 1).

Definition trapAt (t : Trap) : Z * Z := (t_x t, t_y t).

(** What [placeTraps] writes into the tile of a trap. *)
Definition trapTile (t : Trap) : Tile -> Tile :=
  set_trap (t_hidden t) (mkTrapData (t_damage t) (t_type t) false).

(** The trap types [getTrapType] chooses from on a floor. *)
Definition trapTypesOn (floor : Z) : list string :=
  take (if floor <=? 2 then 1%nat else if floor <=? 5 then 2%nat
        else if floor <=? 8 then 3%nat else 5%nat)
       ["spike"; "poison"; "alarm"; "teleport"; "confusion"]%string.

(** Damage and type of a trap are those of its floor. *)
Definition trapFits (floor : Z) (t : Trap) : Prop :=
  1 + floor / 2 <= t_damage t <= 3 + floor * 2 / 3 /\
  t_type t ∈ trapTypesOn floor.

(** The traps stand on distinct tiles of [m], each tile holding the data of
    its trap in place of its character, [hidden] and [trapData]; every
    other tile is as in [m0]. *)
Definition trapsOn (m0 m : Grid) (traps : list Trap) : Prop :=
  shape m = shape m0 /\
  NoDup (trapAt <$> traps) /\
  (forall t, t ∈ traps ->
     tileAt m (t_x t) (t_y t) = trapTile t <$> tileAt m0 (t_x t) (t_y t)) /\
  (forall x y, (x, y) ∉ trapAt <$> traps -> tileAt m x y = tileAt m0 x y).

(** What the loop of [placeTraps] keeps: the traps laid and the positions
    still free are together the positions it started with. *)
Definition trapsLaid (floor : Z) (valid0 : list (Z * Z)) (m0 : Grid) (w0 : World)
    (valid : list (Z * Z)) (traps : list Trap) (w : World) : Prop :=
  shape (w_map w) = shape m0 /\
  (trapAt <$> traps) ++ valid ≡ₚ valid0 /\
  (forall t, t ∈ traps ->
     tileAt (w_map w) (t_x t) (t_y t) = trapTile t <$> tileAt m0 (t_x t) (t_y t) /\
     trapFits floor t) /\
  (forall x y, (x, y) ∉ trapAt <$> traps -> tileAt (w_map w) x y = tileAt m0 x y) /\
  w_rnd w = w_rnd w0 /\ w_log w = w_log w0.

(** * Properties *)

(** ** Properties of tiles *)

(** C3 (as stated, refuted): a trap tile is not walkable. *)
Lemma trap_tile_not_walkable :
  ~ (forall t : Tile, char t = TILE_TYPES.TRAP -> isWalkable t = true).
Proof.
  intros H. specialize (H (newTile TILE_TYPES.TRAP) eq_refl). discriminate H.
Qed.

(** C3 (amended): the terrain kind of a tile determines whether it blocks
    movement, blocks vision and is walkable; walls block both, the three
    kinds of door and traps block neither, doors are walkable and traps are
    not. *)
Theorem terrain_kind_determines_passability :
  (forall t1 t2 : Tile, char t1 = char t2 ->
     isBlocking t1 = isBlocking t2 /\ blocksVision t1 = blocksVision t2 /\
     isWalkable t1 = isWalkable t2) /\
  (forall t : Tile,
     (char t = TILE_TYPES.WALL ->
        isBlocking t = true /\ blocksVision t = true /\ isWalkable t = false) /\
     (char t = TILE_TYPES.DOOR \/ char t = TILE_TYPES.LOCKED_DOOR \/
      char t = TILE_TYPES.SECRET_DOOR ->
        isBlocking t = false /\ blocksVision t = false /\ isWalkable t = true) /\
     (char t = TILE_TYPES.TRAP ->
        isBlocking t = false /\ blocksVision t = false /\ isWalkable t = false)).
Proof.
  split.
  - intros t1 t2 E. unfold isWalkable, isBlocking, blocksVision. rewrite E. auto.
  - intros t. unfold isWalkable, isBlocking, blocksVision.
    repeat split; intros; repeat match goal with
      | H : _ \/ _ |- _ => destruct H
      | H : char t = _ |- _ => rewrite H
      end; reflexivity.
Qed.

Lemma terrain_kind_determines_passability_witness :
  isBlocking (newTile TILE_TYPES.TRAP) = false /\
  blocksVision (newTile TILE_TYPES.TRAP) = false /\
  isWalkable (newTile TILE_TYPES.TRAP) = false.
Proof.
  exact (proj2 (proj2 (proj2 terrain_kind_determines_passability
                         (newTile TILE_TYPES.TRAP))) eq_refl).
Defined.

(** ** Shape of the map *)

Lemma wfGridb_spec w h m : wfGridb w h m = true -> wfGrid w h m.
Proof.
  unfold wfGridb, wfGrid. rewrite andb_true_iff, Z.eqb_eq, forallb_forall.
  intros [Hh Hr]. split; [exact Hh|].
  apply Forall_forall. intros row Hin. apply Z.eqb_eq, Hr.
  by apply list_elem_of_In.
Qed.

Lemma tileAt_Some_bounds w h m x y t :
  wfGrid w h m -> tileAt m x y = Some t -> 0 <= x < w /\ 0 <= y < h.
Proof.
  intros [Hh Hr] H. unfold tileAt in H.
  destruct (0 <=? x) eqn:Hx, (0 <=? y) eqn:Hy; simpl in H; try discriminate.
  apply Z.leb_le in Hx, Hy.
  destruct (m !! Z.to_nat y) as [row|] eqn:Hrow; [|discriminate].
  pose proof (lookup_lt_Some _ _ _ Hrow) as Hly.
  pose proof (lookup_lt_Some _ _ _ H) as Hlx.
  rewrite Forall_forall in Hr.
  specialize (Hr row (list_elem_of_lookup_2 _ _ _ Hrow)). lia.
Qed.

Lemma tileAt_wf_Some w h m x y :
  wfGrid w h m -> 0 <= x < w -> 0 <= y < h -> is_Some (tileAt m x y).
Proof.
  intros [Hh Hr] Hx Hy. unfold tileAt.
  destruct (Z.leb_spec 0 x); [|lia]. destruct (Z.leb_spec 0 y); [|lia]. simpl.
  destruct (lookup_lt_is_Some_2 m (Z.to_nat y)) as [row Hrow]; [lia|].
  rewrite Hrow. apply lookup_lt_is_Some_2.
  rewrite Forall_forall in Hr.
  specialize (Hr row (list_elem_of_lookup_2 _ _ _ Hrow)). lia.
Qed.

(** ** The monad *)

Lemma bind_Some {S A B} (c : M S A) (k : A -> M S B) s b s' :
  (c ≫= k) s = Some (b, s') <->
  exists a s1, c s = Some (a, s1) /\ k a s1 = Some (b, s').
Proof.
  unfold mbind, M_bind, bind. destruct (c s) as [[a s1]|]; split.
  - intros H. by exists a, s1.
  - intros (a' & s1' & [= -> ->] & H). exact H.
  - discriminate.
  - intros (a' & s1' & [=] & _).
Qed.

Lemma forEach_nil {S A} (body : A -> M S unit) s :
  forEach [] body s = Some (tt, s).
Proof. reflexivity. Qed.

Lemma forEach_cons_Some {S A} (a : A) l (body : A -> M S unit) s s' :
  forEach (a :: l) body s = Some (tt, s') <->
  exists s1, body a s = Some (tt, s1) /\ forEach l body s1 = Some (tt, s').
Proof.
  simpl. rewrite bind_Some. split.
  - intros ([] & s1 & H1 & H2). by exists s1.
  - intros (s1 & H1 & H2). by exists tt, s1.
Qed.

(** ** Reading and writing tiles *)

Lemma tileAt_updTile f m x y x' y' :
  0 <= x -> 0 <= y ->
  tileAt (updTile f m x y) x' y' =
  if bool_decide (x' = x /\ y' = y) then f <$> tileAt m x y else tileAt m x' y'.
Proof.
  intros Hx Hy. unfold tileAt, updTile.
  destruct (Z.leb_spec 0 x); [|lia]. destruct (Z.leb_spec 0 y); [|lia].
  destruct (Z.leb_spec 0 x'), (Z.leb_spec 0 y'); simpl;
    try (rewrite bool_decide_eq_false_2 by lia; reflexivity).
  case_bool_decide as Hd.
  - destruct Hd as [-> ->]. rewrite list_lookup_alter_eq.
    destruct (m !! Z.to_nat y) as [row|]; simpl; [|reflexivity].
    apply list_lookup_alter_eq.
  - destruct (decide (y' = y)) as [->|Hny].
    + rewrite list_lookup_alter_eq.
      destruct (m !! Z.to_nat y) as [row|]; simpl; [|reflexivity].
      apply list_lookup_alter_ne. lia.
    + rewrite list_lookup_alter_ne by lia. reflexivity.
Qed.

Lemma shape_updTile f m x y : shape (updTile f m x y) = shape m.
Proof.
  unfold shape, updTile. apply list_eq. intros i.
  rewrite !list_lookup_fmap. destruct (decide (i = Z.to_nat y)) as [->|Hne].
  - rewrite list_lookup_alter_eq. destruct (m !! Z.to_nat y); simpl; [|reflexivity].
    by rewrite length_alter.
  - by rewrite list_lookup_alter_ne.
Qed.

(** Two maps of the same shape with the same tiles are the same map. *)
Lemma grid_ext (m1 m2 : Grid) :
  shape m1 = shape m2 ->
  (forall x y, tileAt m1 x y = tileAt m2 x y) -> m1 = m2.
Proof.
  intros Hs Ht. apply list_eq. intros j.
  assert (Hl : length <$> (m1 !! j) = length <$> (m2 !! j)).
  { rewrite <- !list_lookup_fmap. unfold shape in Hs. by rewrite Hs. }
  destruct (m1 !! j) as [r1|] eqn:E1, (m2 !! j) as [r2|] eqn:E2;
    try discriminate; [|reflexivity].
  f_equal. apply list_eq. intros i.
  specialize (Ht (Z.of_nat i) (Z.of_nat j)). unfold tileAt in Ht.
  destruct (Z.leb_spec 0 (Z.of_nat i)); [|lia].
  destruct (Z.leb_spec 0 (Z.of_nat j)); [|lia].
  simpl in Ht. rewrite !Nat2Z.id, E1, E2 in Ht. exact Ht.
Qed.

Lemma writeTile_Some f x y m m' :
  writeTile f x y m = Some (tt, m') ->
  m' = updTile f m x y /\ is_Some (tileAt m x y) /\ 0 <= x /\ 0 <= y.
Proof.
  unfold writeTile. destruct (tileAt m x y) as [t|] eqn:E; [|discriminate].
  intros [= <-]. split; [reflexivity|]. split; [by eexists|].
  unfold tileAt in E.
  destruct (Z.leb_spec 0 x), (Z.leb_spec 0 y); simpl in E; try discriminate. lia.
Qed.

(** ** Corridor carving *)

Lemma dig_idem t : dig (dig t) = dig t.
Proof.
  unfold dig. destruct (Ascii.eqb (char t) TILE_TYPES.WALL) eqn:E.
  - reflexivity.
  - by rewrite E.
Qed.

Lemma digIf_digIf b1 b2 o : digIf b2 (digIf b1 o) = digIf (b1 || b2) o.
Proof.
  destruct b1, b2, o as [t|]; simpl; try reflexivity. by rewrite dig_idem.
Qed.

Lemma digIf_is_Some b o : is_Some (digIf b o) <-> is_Some o.
Proof. destruct b; simpl; [apply fmap_is_Some | reflexivity]. Qed.

Lemma hit_cons g c cells x y :
  hit g (c :: cells) x y = hit g [c] x y || hit g cells x y.
Proof.
  unfold hit. simpl. destruct ((c.1 =? x) && (c.2 =? y)), (inBounds g x y),
    (existsb (fun c0 => (c0.1 =? x) && (c0.2 =? y)) cells); reflexivity.
Qed.

Lemma hit_true g cells x y :
  hit g cells x y = true <-> (x, y) ∈ cells /\ inBounds g x y = true.
Proof.
  unfold hit. rewrite andb_true_iff, existsb_exists. split.
  - intros [([cx cy] & Hin & Heq) Hb]. simpl in Heq.
    apply andb_true_iff in Heq as [->%Z.eqb_eq ->%Z.eqb_eq].
    split; [by apply list_elem_of_In | exact Hb].
  - intros [Hin Hb]. split; [|exact Hb]. exists (x, y).
    split; [by apply list_elem_of_In|]. simpl. by rewrite !Z.eqb_refl.
Qed.

Lemma carveCell_Some g x y m m' :
  carveCell g x y m = Some (tt, m') ->
  shape m' = shape m /\
  (inBounds g x y = true -> is_Some (tileAt m x y)) /\
  forall x' y', tileAt m' x' y' = digIf (hit g [(x, y)] x' y') (tileAt m x' y').
Proof.
  unfold carveCell.
  change ((0 <=? x) && (x <? cg_width g) && (0 <=? y) && (y <? cg_height g))
    with (inBounds g x y).
  destruct (inBounds g x y) eqn:Hin.
  - rewrite bind_Some. intros (t & m1 & Hread & Hrest).
    unfold readTile in Hread.
    destruct (tileAt m x y) as [t0|] eqn:Ht; [|discriminate].
    injection Hread as -> ->.
    assert (Hxy : 0 <= x /\ 0 <= y).
    { unfold inBounds in Hin. rewrite !andb_true_iff in Hin. lia. }
    destruct (Ascii.eqb (char t) TILE_TYPES.WALL) eqn:Hw.
    + apply writeTile_Some in Hrest as (-> & _ & _).
      split; [apply shape_updTile|]. split; [by eexists|].
      intros x' y'. rewrite tileAt_updTile by lia.
      case_bool_decide as Hd.
      * destruct Hd as [-> ->].
        assert (hit g [(x, y)] x y = true) as ->
          by (apply hit_true; split; [apply list_elem_of_here|done]).
        rewrite Ht. simpl. unfold dig. by rewrite Hw.
      * assert (hit g [(x, y)] x' y' = false) as ->; [|done].
        apply not_true_is_false. rewrite hit_true, list_elem_of_singleton.
        intros [[= -> ->] _]. by apply Hd.
    + injection Hrest as <-. split; [done|]. split; [by eexists|].
      intros x' y'. destruct (hit g [(x, y)] x' y') eqn:Hh; [|done].
      apply hit_true in Hh as [[= -> ->]%list_elem_of_singleton _].
      rewrite Ht. simpl. unfold dig. by rewrite Hw.
  - intros [= <-]. split; [done|]. split; [done|].
    intros x' y'. destruct (hit g [(x, y)] x' y') eqn:Hh; [|done].
    apply hit_true in Hh as [[= -> ->]%list_elem_of_singleton Hb]. congruence.
Qed.

Lemma carveCell_total g x y m :
  (inBounds g x y = true -> is_Some (tileAt m x y)) ->
  exists m', carveCell g x y m = Some (tt, m').
Proof.
  intros Hdef. unfold carveCell.
  change ((0 <=? x) && (x <? cg_width g) && (0 <=? y) && (y <? cg_height g))
    with (inBounds g x y).
  destruct (inBounds g x y) eqn:Hin; [|by eexists].
  destruct (Hdef eq_refl) as [t Ht].
  unfold mbind, M_bind, bind, readTile. rewrite Ht.
  destruct (Ascii.eqb (char t) TILE_TYPES.WALL); [|by eexists].
  unfold writeTile. rewrite Ht. by eexists.
Qed.

Section CarveLoop.
Context {A : Type} (g : CorridorGenerator) (pos : A -> Z * Z).

Lemma forEach_carve_Some l m m' :
  forEach l (fun a => carveCell g (pos a).1 (pos a).2) m = Some (tt, m') ->
  shape m' = shape m /\
  (forall a, a ∈ l -> inBounds g (pos a).1 (pos a).2 = true ->
             is_Some (tileAt m (pos a).1 (pos a).2)) /\
  forall x y, tileAt m' x y = digIf (hit g (pos <$> l) x y) (tileAt m x y).
Proof.
  revert m. induction l as [|a l IH]; intros m.
  - intros [= <-]. split; [done|]. split; [by intros a ?%elem_of_nil|]. intros x y.
    unfold hit. reflexivity.
  - rewrite forEach_cons_Some. intros (m1 & H1 & H2).
    apply carveCell_Some in H1 as (Hs1 & Hd1 & Ht1).
    apply IH in H2 as (Hs2 & Hd2 & Ht2).
    split; [congruence|]. split.
    + intros b [->|Hb]%elem_of_cons Hin; [by apply Hd1|].
      specialize (Hd2 b Hb Hin). rewrite Ht1 in Hd2.
      by apply digIf_is_Some in Hd2.
    + intros x y. rewrite Ht2, Ht1, digIf_digIf. rewrite fmap_cons.
      rewrite (hit_cons g (pos a)). by destruct (pos a).
Qed.

Lemma forEach_carve_total l m :
  (forall a, a ∈ l -> inBounds g (pos a).1 (pos a).2 = true ->
             is_Some (tileAt m (pos a).1 (pos a).2)) ->
  exists m', forEach l (fun a => carveCell g (pos a).1 (pos a).2) m = Some (tt, m').
Proof.
  revert m. induction l as [|a l IH]; intros m Hdef.
  - by eexists.
  - destruct (carveCell_total g (pos a).1 (pos a).2 m) as [m1 H1].
    { apply Hdef. apply list_elem_of_here. }
    destruct (IH m1) as [m' H2].
    { intros b Hb Hin. apply carveCell_Some in H1 as (_ & _ & Ht1).
      rewrite Ht1. apply digIf_is_Some, Hdef; [by apply list_elem_of_further|done]. }
    exists m'. apply forEach_cons_Some. by exists m1.
Qed.
End CarveLoop.

Lemma carve_Some g s m m' :
  carve g s m = Some (tt, m') ->
  shape m' = shape m /\
  (forall c, c ∈ segCells s -> inBounds g c.1 c.2 = true ->
             is_Some (tileAt m c.1 c.2)) /\
  forall x y, tileAt m' x y = digIf (hit g (segCells s) x y) (tileAt m x y).
Proof.
  intros H.
  destruct s as [x1 x2 y0|y1 y2 x0]; simpl in H; unfold hCorridor, vCorridor in H.
  - apply (forEach_carve_Some g (fun x => (x, y0))) in H as (Hs & Hd & Ht).
    split; [done|]. split; [|exact Ht].
    intros c (a & -> & Ha)%list_elem_of_fmap. by apply Hd.
  - apply (forEach_carve_Some g (fun y => (x0, y))) in H as (Hs & Hd & Ht).
    split; [done|]. split; [|exact Ht].
    intros c (a & -> & Ha)%list_elem_of_fmap. by apply Hd.
Qed.

Lemma carve_total g s m :
  (forall c, c ∈ segCells s -> inBounds g c.1 c.2 = true ->
             is_Some (tileAt m c.1 c.2)) ->
  exists m', carve g s m = Some (tt, m').
Proof.
  intros Hdef. destruct s as [x1 x2 y0|y1 y2 x0]; simpl; unfold hCorridor, vCorridor.
  - apply (forEach_carve_total g (fun x => (x, y0))).
    intros a Ha. apply (Hdef (a, y0)). simpl. by apply (list_elem_of_fmap_2 (fun x => (x, y0))).
  - apply (forEach_carve_total g (fun y => (x0, y))).
    intros a Ha. apply (Hdef (x0, a)). simpl. by apply (list_elem_of_fmap_2 (fun y => (x0, y))).
Qed.

(** C7: a carving call ([hCorridor] or [vCorridor]) leaves every tile that
    is not wall as it is and changes a wall tile at most into floor; run
    again on its own result it changes nothing; and it can be swapped with
    any other carving call: both orders end in the same map. *)
Theorem corridor_carving_idempotent_and_order_independent g s m m' :
  carve g s m = Some (tt, m') ->
  (forall x y t, tileAt m x y = Some t -> char t <> TILE_TYPES.WALL ->
                 tileAt m' x y = Some t) /\
  (forall x y t, tileAt m x y = Some t -> char t = TILE_TYPES.WALL ->
                 tileAt m' x y = Some t \/
                 tileAt m' x y = Some (set_char TILE_TYPES.FLOOR t)) /\
  carve g s m' = Some (tt, m') /\
  (forall s2 m2, carve g s2 m' = Some (tt, m2) ->
     exists m1, carve g s2 m = Some (tt, m1) /\ carve g s m1 = Some (tt, m2)).
Proof.
  intros H. pose proof (carve_Some _ _ _ _ H) as (Hs & Hd & Ht).
  split; [|split; [|split]].
  - intros x y t Hm Hc. rewrite Ht, Hm. unfold digIf, dig.
    destruct (hit g (segCells s) x y); [|done]. simpl.
    by apply Ascii.eqb_neq in Hc as ->.
  - intros x y t Hm Hc. rewrite Ht, Hm. unfold digIf, dig.
    destruct (hit g (segCells s) x y); [|by left]. simpl.
    right. by apply Ascii.eqb_eq in Hc as ->.
  - destruct (carve_total g s m') as [m'' H'].
    { intros c Hc Hin. rewrite Ht. by apply digIf_is_Some, Hd. }
    rewrite H'. do 2 f_equal.
    pose proof (carve_Some _ _ _ _ H') as (Hs' & _ & Ht').
    apply grid_ext; [congruence|].
    intros x y. rewrite Ht', Ht, digIf_digIf. by rewrite orb_diag.
  - intros s2 m2 H2. pose proof (carve_Some _ _ _ _ H2) as (Hs2 & Hd2 & Ht2).
    destruct (carve_total g s2 m) as [m1 H1].
    { intros c Hc Hin. specialize (Hd2 c Hc Hin). rewrite Ht in Hd2.
      by apply digIf_is_Some in Hd2. }
    pose proof (carve_Some _ _ _ _ H1) as (Hs1 & _ & Ht1).
    destruct (carve_total g s m1) as [m2' H3].
    { intros c Hc Hin. rewrite Ht1. by apply digIf_is_Some, Hd. }
    pose proof (carve_Some _ _ _ _ H3) as (Hs3 & _ & Ht3).
    exists m1. split; [done|]. rewrite H3. do 2 f_equal.
    apply grid_ext; [congruence|].
    intros x y. rewrite Ht3, Ht1, Ht2, Ht, !digIf_digIf. by rewrite orb_comm.
Qed.

Lemma corridor_carving_idempotent_and_order_independent_witness :
  carve smallGenerator (HSeg 0 2 1) smallMapCarved = Some (tt, smallMapCarved).
Proof.
  exact (proj1 (proj2 (proj2
    (corridor_carving_idempotent_and_order_independent
       smallGenerator (HSeg 0 2 1) smallMap smallMapCarved eq_refl)))).
Defined.

(** ** Room placement *)

Lemma wfGrid_shape w h (m m' : Grid) :
  shape m' = shape m -> wfGrid w h m -> wfGrid w h m'.
Proof.
  unfold shape, wfGrid. intros Hs [Hh Hr].
  assert (Hlen : length m' = length m).
  { by rewrite <- (length_fmap length m'), Hs, length_fmap. }
  split; [lia|].
  apply Forall_lookup. intros i row' Hi.
  assert (Hi' : (length <$> m') !! i = Some (length row'))
    by (by rewrite list_lookup_fmap, Hi).
  rewrite Hs, list_lookup_fmap in Hi'.
  destruct (m !! i) as [row|] eqn:E; [|discriminate].
  injection Hi' as Hi'. rewrite Forall_lookup in Hr.
  specialize (Hr i row E). simpl in Hr. lia.
Qed.

Lemma elem_of_rect x0 y0 w h x y :
  (x, y) ∈ rect x0 y0 w h <-> x0 <= x < x0 + w /\ y0 <= y < y0 + h.
Proof.
  unfold rect. rewrite list_elem_of_join. split.
  - intros (l & Hin & Hl).
    apply list_elem_of_fmap in Hl as (y' & -> & Hy).
    apply list_elem_of_fmap in Hin as (x' & [= -> ->] & Hx).
    apply elem_of_seqZ in Hx, Hy. lia.
  - intros [Hx Hy]. exists ((fun x => (x, y)) <$> seqZ x0 w). split.
    + apply (list_elem_of_fmap_2 (fun x => (x, y))), elem_of_seqZ. lia.
    + apply (list_elem_of_fmap_2 (fun y => (fun x => (x, y)) <$> seqZ x0 w)),
        elem_of_seqZ. lia.
Qed.

Lemma onMap_Some {A} (c : M Grid A) w a w' :
  onMap c w = Some (a, w') <->
  exists m', c (w_map w) = Some (a, m') /\
             w' = mkWorld m' (w_rnd w) (w_pos w) (w_log w).
Proof.
  unfold onMap. destruct (c (w_map w)) as [[a' m']|]; split.
  - intros [= -> <-]. by exists m'.
  - intros (m'' & [= -> ->] & ->). reflexivity.
  - discriminate.
  - intros (m'' & [=] & _).
Qed.

Lemma allWall_true cells m :
  allWall cells m = Some true <-> forall c, c ∈ cells -> isWallAt m c.
Proof.
  induction cells as [|[x y] cells IH]; simpl.
  - split; [by intros _ c ?%elem_of_nil|done].
  - split.
    + destruct (tileAt m x y) as [t|] eqn:Ht; [|discriminate].
      destruct (Ascii.eqb (char t) TILE_TYPES.WALL) eqn:Hw; [|discriminate].
      intros H c [->|Hc]%elem_of_cons.
      * exists t. split; [done|]. by apply Ascii.eqb_eq.
      * by apply IH.
    + intros H. destruct (H (x, y) (list_elem_of_here _ _)) as (t & Ht & Hw).
      simpl in Ht. rewrite Ht. apply Ascii.eqb_eq in Hw as ->.
      apply IH. intros c Hc. apply H. by apply list_elem_of_further.
Qed.

Lemma allWall_total cells m :
  (forall c, c ∈ cells -> is_Some (tileAt m c.1 c.2)) -> is_Some (allWall cells m).
Proof.
  induction cells as [|[x y] cells IH]; simpl; intros H; [by eexists|].
  destruct (H (x, y) (list_elem_of_here _ _)) as [t Ht]. simpl in Ht. rewrite Ht.
  destruct (Ascii.eqb (char t) TILE_TYPES.WALL); [|by eexists].
  apply IH. intros c Hc. apply H. by apply list_elem_of_further.
Qed.

Lemma canPlaceRoom_Some rg room m b m' :
  canPlaceRoom rg room m = Some (b, m') ->
  m' = m /\
  (b = true <-> roomFits rg room /\ forall p, inMargin room p -> isWallAt m p).
Proof.
  unfold canPlaceRoom, roomFits.
  destruct (Z.ltb_spec (room_x room) 1); simpl.
  { intros [= <- <-]. split; [done|]. split; [done|lia]. }
  destruct (Z.ltb_spec (room_y room) 1); simpl.
  { intros [= <- <-]. split; [done|]. split; [done|lia]. }
  destruct (Z.leb_spec (rg_width rg - 1) (room_x room + room_width room)); simpl.
  { intros [= <- <-]. split; [done|]. split; [done|lia]. }
  destruct (Z.leb_spec (rg_height rg - 1) (room_y room + room_height room)); simpl.
  { intros [= <- <-]. split; [done|]. split; [done|lia]. }
  destruct (allWall _ m) as [b'|] eqn:Hall; [|discriminate].
  intros [= <- <-]. split; [done|].
  destruct b'.
  - split; [|done]. intros _. split; [lia|].
    intros [x y] [Hx Hy]. apply (proj1 (allWall_true _ _) Hall).
    apply elem_of_rect. simpl in *. lia.
  - split; [done|]. intros [_ Hw].
    assert (allWall (rect (room_x room - 1) (room_y room - 1)
                          (room_width room + 2) (room_height room + 2)) m = Some true).
    { apply allWall_true. intros [x y] Hc%elem_of_rect. apply Hw.
      unfold inMargin. simpl. lia. }
    congruence.
Qed.

Lemma canPlaceRoom_total rg room m :
  wfGrid (rg_width rg) (rg_height rg) m ->
  exists b, canPlaceRoom rg room m = Some (b, m).
Proof.
  intros Hwf. unfold canPlaceRoom.
  destruct (Z.ltb_spec (room_x room) 1); simpl; [by eexists|].
  destruct (Z.ltb_spec (room_y room) 1); simpl; [by eexists|].
  destruct (Z.leb_spec (rg_width rg - 1) (room_x room + room_width room));
    simpl; [by eexists|].
  destruct (Z.leb_spec (rg_height rg - 1) (room_y room + room_height room));
    simpl; [by eexists|].
  destruct (allWall_total
              (rect (room_x room - 1) (room_y room - 1)
                    (room_width room + 2) (room_height room + 2)) m) as [b Hb].
  { intros [x y] Hc%elem_of_rect. simpl.
    apply (tileAt_wf_Some _ _ _ _ _ Hwf); lia. }
  rewrite Hb. by eexists.
Qed.

Lemma getSpecialFloorType_Some w :
  exists ft w', getSpecialFloorType w = Some (ft, w') /\ w_map w' = w_map w.
Proof. do 2 eexists. split; reflexivity. Qed.

Lemma generateRoom_Some rg floor w :
  exists room w', generateRoom rg floor w = Some (room, w') /\ w_map w' = w_map w.
Proof.
  cbv beta iota zeta delta
    [generateRoom randomInt random mbind M_bind bind mret M_ret ret].
  do 2 eexists. split; reflexivity.
Qed.

Lemma carveRoomCell_Some room x y w w' :
  carveRoomCell room x y w = Some (tt, w') ->
  shape (w_map w') = shape (w_map w) /\
  (exists t', tileAt (w_map w') x y = Some t' /\ char t' = TILE_TYPES.FLOOR) /\
  (forall x' y', (x', y') <> (x, y) ->
                 tileAt (w_map w') x' y' = tileAt (w_map w) x' y').
Proof.
  unfold carveRoomCell. rewrite bind_Some.
  intros ([] & w1 & H1 & H2).
  apply onMap_Some in H1 as (m1 & H1 & ->).
  apply writeTile_Some in H1 as (-> & [t Ht] & Hx & Hy).
  destruct (room_isSpecial room).
  - apply bind_Some in H2 as (ft & w2 & Hft & H2).
    destruct (getSpecialFloorType_Some
                (mkWorld (updTile (set_char TILE_TYPES.FLOOR) (w_map w) x y)
                         (w_rnd w) (w_pos w) (w_log w))) as (ft' & w2' & Hft' & Hm).
    rewrite Hft in Hft'. injection Hft' as <- <-. simpl in Hm.
    apply onMap_Some in H2 as (m2 & H2 & ->). rewrite Hm in H2.
    apply writeTile_Some in H2 as (-> & _ & _ & _). simpl.
    split; [by rewrite !shape_updTile|]. split.
    + rewrite !tileAt_updTile by lia. rewrite !bool_decide_eq_true_2 by done.
      rewrite Ht. simpl. by eexists.
    + intros x' y' Hne. rewrite !tileAt_updTile by lia.
      rewrite !bool_decide_eq_false_2; [done|intros [-> ->]; by apply Hne].
  - injection H2 as <-. simpl.
    split; [by rewrite shape_updTile|]. split.
    + rewrite tileAt_updTile by lia. rewrite bool_decide_eq_true_2 by done.
      rewrite Ht. simpl. by eexists.
    + intros x' y' Hne. rewrite tileAt_updTile by lia.
      rewrite bool_decide_eq_false_2; [done|intros [-> ->]; by apply Hne].
Qed.

Lemma carveRoomCell_total room x y w :
  is_Some (tileAt (w_map w) x y) ->
  exists w', carveRoomCell room x y w = Some (tt, w').
Proof.
  intros [t Ht].
  assert (Hxy : 0 <= x /\ 0 <= y).
  { unfold tileAt in Ht.
    destruct (Z.leb_spec 0 x), (Z.leb_spec 0 y); simpl in Ht; try discriminate. lia. }
  set (w1 := mkWorld (updTile (set_char TILE_TYPES.FLOOR) (w_map w) x y)
                     (w_rnd w) (w_pos w) (w_log w)).
  assert (H1 : onMap (writeTile (set_char TILE_TYPES.FLOOR) x y) w = Some (tt, w1)).
  { apply onMap_Some. eexists. split; [|reflexivity]. unfold writeTile. by rewrite Ht. }
  unfold carveRoomCell. destruct (room_isSpecial room).
  - destruct (getSpecialFloorType_Some w1) as (ft & w2 & Hft & Hm).
    eexists. apply bind_Some. exists tt, w1. split; [done|].
    apply bind_Some. exists ft, w2. split; [done|].
    apply onMap_Some. eexists. split; [|reflexivity].
    unfold writeTile. rewrite Hm. simpl.
    rewrite tileAt_updTile by lia. rewrite bool_decide_eq_true_2 by done.
    by rewrite Ht.
  - eexists. apply bind_Some. exists tt, w1. by split.
Qed.

Lemma carveCells_Some room cells w w' :
  forEach cells (fun c => carveRoomCell room c.1 c.2) w = Some (tt, w') ->
  shape (w_map w') = shape (w_map w) /\
  (forall c, c ∈ cells ->
     exists t', tileAt (w_map w') c.1 c.2 = Some t' /\ char t' = TILE_TYPES.FLOOR) /\
  (forall c, c ∉ cells -> tileAt (w_map w') c.1 c.2 = tileAt (w_map w) c.1 c.2).
Proof.
  revert w. induction cells as [|[x y] cells IH]; intros w.
  - intros [= <-]. split; [done|]. split; [by intros c ?%elem_of_nil|done].
  - rewrite forEach_cons_Some. intros (w1 & H1 & H2).
    apply carveRoomCell_Some in H1 as (Hs1 & Hf1 & Ho1).
    apply IH in H2 as (Hs2 & Hf2 & Ho2).
    split; [congruence|]. split.
    + intros c Hc. destruct (decide (c ∈ cells)) as [Hin|Hout]; [by apply Hf2|].
      apply elem_of_cons in Hc as [->|Hc]; [|done].
      rewrite (Ho2 _ Hout). exact Hf1.
    + intros [cx cy] Hc. apply not_elem_of_cons in Hc as [Hne Hc].
      rewrite (Ho2 _ Hc). by apply Ho1.
Qed.

Lemma carveCells_total room cells w :
  (forall c, c ∈ cells -> is_Some (tileAt (w_map w) c.1 c.2)) ->
  exists w', forEach cells (fun c => carveRoomCell room c.1 c.2) w = Some (tt, w').
Proof.
  revert w. induction cells as [|[x y] cells IH]; intros w Hdef; [by eexists|].
  destruct (carveRoomCell_total room x y w) as [w1 H1].
  { apply (Hdef (x, y)), list_elem_of_here. }
  destruct (IH w1) as [w' H2].
  { intros [cx cy] Hc. pose proof (carveRoomCell_Some _ _ _ _ _ H1) as (_ & Hf & Ho).
    destruct (decide ((cx, cy) = (x, y))) as [[= -> ->]|Hne].
    - destruct Hf as (t' & Ht' & _). simpl. rewrite Ht'. by eexists.
    - simpl. rewrite (Ho _ _ Hne). apply (Hdef (cx, cy)). by apply list_elem_of_further. }
  exists w'. apply forEach_cons_Some. by exists w1.
Qed.

Lemma separated_sym a b : separated a b -> separated b a.
Proof. intros H p q Hp Hq. specialize (H q p Hq Hp). lia. Qed.

Lemma pairwiseSeparated_snoc rooms room :
  pairwiseSeparated rooms ->
  (forall a, a ∈ rooms -> separated a room) ->
  pairwiseSeparated (rooms ++ [room]).
Proof.
  intros Hpw Hnew i j a b Hi Hj Hne.
  apply lookup_snoc_Some in Hi as [[_ Hi]|[-> <-]];
    apply lookup_snoc_Some in Hj as [[_ Hj]|[-> <-]].
  - by apply (Hpw i j).
  - apply Hnew. by eapply list_elem_of_lookup_2.
  - apply separated_sym, Hnew. by eapply list_elem_of_lookup_2.
  - done.
Qed.

Lemma accepted_room_separated m rooms room :
  roomsCarved m rooms ->
  (forall p, inMargin room p -> isWallAt m p) ->
  forall a, a ∈ rooms -> separated a room.
Proof.
  intros Hcarved Hwall a Ha p q Hp Hq.
  destruct (decide (1 < Z.abs (p.1 - q.1))) as [|Hx]; [by left|].
  destruct (decide (1 < Z.abs (p.2 - q.2))) as [|Hy]; [by right|].
  exfalso. destruct (Hcarved a p Ha Hp) as (t & Ht & Hnw).
  destruct (Hwall p) as (t' & Ht' & Hw).
  { unfold inMargin. unfold inRoom in Hq. lia. }
  congruence.
Qed.

Lemma generateRoomsLoop_spec attempts rg floor rooms w :
  wfGrid (rg_width rg) (rg_height rg) (w_map w) ->
  roomsCarved (w_map w) rooms -> pairwiseSeparated rooms ->
  exists rooms' w',
    generateRoomsLoop attempts rg floor rooms w = Some (rooms', w') /\
    wfGrid (rg_width rg) (rg_height rg) (w_map w') /\
    roomsCarved (w_map w') rooms' /\ pairwiseSeparated rooms'.
Proof.
  revert rooms w. induction attempts as [|n IH]; intros rooms w Hwf Hcarved Hpw.
  { by exists rooms, w. }
  simpl. destruct (maxRooms rg <=? Z.of_nat (length rooms)); [by exists rooms, w|].
  destruct (generateRoom_Some rg floor w) as (room & w1 & Hgen & Hm1).
  destruct (canPlaceRoom_total rg room (w_map w1)) as [ok Hok]; [by rewrite Hm1|].
  pose proof (canPlaceRoom_Some _ _ _ _ _ Hok) as [_ Hiff].
  assert (Hok' : onMap (canPlaceRoom rg room) w1 = Some (ok, w1)).
  { apply onMap_Some. exists (w_map w1). split; [done|]. by destruct w1. }
  destruct ok.
  - destruct (proj1 Hiff eq_refl) as [Hfits Hwall].
    destruct (carveCells_total room
                (rect (room_x room) (room_y room) (room_width room) (room_height room))
                w1) as [w2 Hcarve].
    { intros [x y] Hc%elem_of_rect. destruct (Hwall (x, y)) as (t & Ht & _).
      - unfold inMargin. simpl. lia.
      - by eexists. }
    pose proof (carveCells_Some _ _ _ _ Hcarve) as (Hs & Hfl & Hoth).
    destruct (IH (rooms ++ [room]) w2) as (rooms' & w' & Hloop & Hres).
    + eapply wfGrid_shape; [exact Hs|]. by rewrite Hm1.
    + intros a p [Ha|Ha]%elem_of_app Hp;
        [|apply list_elem_of_singleton in Ha as ->].
      * destruct (decide (p ∈ rect (room_x room) (room_y room)
                                    (room_width room) (room_height room))) as [Hin|Hout].
        -- destruct (Hfl p Hin) as (t' & Ht' & Hc). exists t'. split; [done|].
           rewrite Hc. discriminate.
        -- rewrite (Hoth p Hout), Hm1. by apply (Hcarved a).
      * destruct (Hfl p) as (t' & Ht' & Hc).
        { destruct p. apply elem_of_rect. exact Hp. }
        exists t'. split; [done|]. rewrite Hc. discriminate.
    + apply pairwiseSeparated_snoc; [done|].
      apply (accepted_room_separated (w_map w1)); [by rewrite Hm1|done].
    + exists rooms', w'. split; [|exact Hres].
      apply bind_Some. exists room, w1. split; [done|].
      apply bind_Some. exists true, w1. split; [done|].
      apply bind_Some. by exists tt, w2.
  - destruct (IH rooms w1) as (rooms' & w' & Hloop & Hres);
      [by rewrite Hm1 | by rewrite Hm1 | done |].
    exists rooms', w'. split; [|exact Hres].
    apply bind_Some. exists room, w1. split; [done|].
    apply bind_Some. by exists false, w1.
Qed.

(** C2: [canPlaceRoom] accepts a proposal exactly when the room fits inside
    the map and every cell of its rectangle and of the margin of one tile
    around it is wall; and on a map of the generator's size [generateRooms]
    returns a room list in which any two rooms are at least one tile
    apart. *)
Theorem committed_rooms_do_not_overlap rg floor w :
  wfGrid (rg_width rg) (rg_height rg) (w_map w) ->
  (forall room,
     canPlaceRoom rg room (w_map w) = Some (true, w_map w) <->
     roomFits rg room /\ forall p, inMargin room p -> isWallAt (w_map w) p) /\
  exists rooms rg' w',
    generateRooms rg floor w = Some (rooms, rg', w') /\
    pairwiseSeparated rooms.
Proof.
  intros Hwf. split.
  - intros room. destruct (canPlaceRoom_total rg room (w_map w) Hwf) as [b Hb].
    pose proof (canPlaceRoom_Some _ _ _ _ _ Hb) as [_ Hiff].
    rewrite Hb. rewrite <- Hiff. split; [by intros [= ->] | by intros ->].
  - unfold generateRooms.
    assert (Hdim : rg_width (adjustRoomParams rg floor) = rg_width rg /\
                   rg_height (adjustRoomParams rg floor) = rg_height rg).
    { unfold adjustRoomParams. by destruct (5 <? floor), (10 <? floor). }
    destruct Hdim as [Hw Hh].
    destruct (generateRoomsLoop_spec (Z.to_nat (calculateRoomAttempts floor))
                (adjustRoomParams rg floor) floor [] w)
      as (rooms & w' & Hloop & _ & _ & Hpw).
    + by rewrite Hw, Hh.
    + by intros a p ?%elem_of_nil.
    + intros i j a b Hi. by rewrite lookup_nil in Hi.
    + exists rooms, (adjustRoomParams rg floor), w'. split; [|done].
      apply bind_Some. by exists rooms, w'.
Qed.

Lemma committed_rooms_do_not_overlap_witness :
  exists rooms rg' w',
    generateRooms (newRoomGenerator MAP.WIDTH MAP.HEIGHT) 1 freshWorld
      = Some (rooms, rg', w') /\
    pairwiseSeparated rooms.
Proof.
  exact (proj2 (committed_rooms_do_not_overlap
                  (newRoomGenerator MAP.WIDTH MAP.HEIGHT) 1 freshWorld
                  (wfGridb_spec MAP.WIDTH MAP.HEIGHT (w_map freshWorld) eq_refl))).
Defined.

(** ** The start position *)

Lemma seqZ_sorted m n : StronglySorted Z.lt (seqZ m n).
Proof.
  remember (Z.to_nat n) as k eqn:Hk. revert m n Hk.
  induction k as [|k IH]; intros m n Hk.
  - rewrite seqZ_nil by lia. constructor.
  - rewrite seqZ_cons by lia. constructor.
    + apply IH. lia.
    + apply Forall_forall. intros x Hx%elem_of_seqZ. lia.
Qed.

Lemma rect_sorted x0 y0 w h : StronglySorted rowMajorLt (rect x0 y0 w h).
Proof.
  unfold rect. pose proof (seqZ_sorted y0 h) as Hys.
  induction Hys as [|y ys Hsorted IH Hall]; [constructor|].
  rewrite fmap_cons. simpl. apply StronglySorted_app_2.
  - intros p q (x1 & -> & _)%list_elem_of_fmap (row & Hq & Hrow)%list_elem_of_join.
    apply list_elem_of_fmap in Hrow as (y' & -> & Hy').
    apply list_elem_of_fmap in Hq as (x2 & -> & _).
    rewrite Forall_forall in Hall. left. simpl. by apply Hall.
  - apply (StronglySorted_fmap _ Z.lt); [|apply seqZ_sorted].
    intros a b Hab. right. simpl. lia.
  - exact IH.
Qed.

Lemma scanFarthest_spec stairsPos cells m best :
  (forall c, c ∈ cells -> is_Some (tileAt m c.1 c.2)) ->
  exists r,
    scanFarthest stairsPos cells m best = Some r /\
    far_distance best <= far_distance r /\
    (forall c, c ∈ cells -> floorAt m c -> manhattan c stairsPos <= far_distance r) /\
    (r = best \/
     (floorAt m (far_x r, far_y r) /\
      far_distance r = manhattan (far_x r, far_y r) stairsPos)).
Proof.
  revert best. induction cells as [|[x y] cells IH]; intros best Hdef; simpl.
  - exists best. split; [done|]. split; [lia|]. split; [by intros c ?%elem_of_nil|by left].
  - destruct (Hdef (x, y) (list_elem_of_here _ _)) as [t Ht]. simpl in Ht. rewrite Ht.
    assert (Hdef' : forall c, c ∈ cells -> is_Some (tileAt m c.1 c.2))
      by (intros c Hc; apply Hdef; by apply list_elem_of_further).
    destruct (Ascii.eqb (char t) TILE_TYPES.FLOOR) eqn:Hfl.
    + apply Ascii.eqb_eq in Hfl.
      destruct (Z.ltb_spec (far_distance best)
                  (Z.abs (x - px stairsPos) + Z.abs (y - py stairsPos))) as [Hlt|Hge].
      * destruct (IH (mkFarthest x y (Z.abs (x - px stairsPos) + Z.abs (y - py stairsPos)))
                    Hdef') as (r & Hr & Hle & Hmax & Hcases).
        exists r. split; [done|]. simpl in Hle. split; [lia|]. split.
        -- intros c [->|Hc]%elem_of_cons Hf; [unfold manhattan; simpl; lia|by apply Hmax].
        -- right. destruct Hcases as [->|Hcases]; [|done]. simpl.
           split; [by exists t|done].
      * destruct (IH best Hdef') as (r & Hr & Hle & Hmax & Hcases).
        exists r. split; [done|]. split; [done|]. split; [|done].
        intros c [->|Hc]%elem_of_cons Hf; [unfold manhattan; simpl; lia|by apply Hmax].
    + destruct (IH best Hdef') as (r & Hr & Hle & Hmax & Hcases).
      exists r. split; [done|]. split; [done|]. split; [|done].
      intros c [->|Hc]%elem_of_cons Hf; [|by apply Hmax].
      destruct Hf as (t' & Ht' & Hc'). simpl in Ht'. rewrite Ht in Ht'.
      injection Ht' as <-. apply Ascii.eqb_neq in Hfl. done.
Qed.

Lemma firstFloor_spec cells m :
  (forall c, c ∈ cells -> is_Some (tileAt m c.1 c.2)) ->
  exists r,
    firstFloor cells m = Some r /\
    match r with
    | Some p => exists l1 l2, cells = l1 ++ coords p :: l2 /\ floorAt m (coords p) /\
                              forall c, c ∈ l1 -> ~ floorAt m c
    | None => forall c, c ∈ cells -> ~ floorAt m c
    end.
Proof.
  induction cells as [|[x y] cells IH]; intros Hdef; simpl.
  - exists None. split; [done|]. by intros c ?%elem_of_nil.
  - destruct (Hdef (x, y) (list_elem_of_here _ _)) as [t Ht]. simpl in Ht. rewrite Ht.
    destruct (Ascii.eqb (char t) TILE_TYPES.FLOOR) eqn:Hfl.
    + exists (Some (mkPoint x y)). split; [done|]. exists [], cells.
      split; [done|]. split; [|by intros c ?%elem_of_nil].
      exists t. split; [done|]. by apply Ascii.eqb_eq.
    + assert (Hnf : ~ floorAt m (x, y)).
      { intros (t' & Ht' & Hc'). simpl in Ht'. rewrite Ht in Ht'.
        injection Ht' as <-. by apply Ascii.eqb_neq in Hfl. }
      destruct IH as (r & Hr & Hspec).
      { intros c Hc. apply Hdef. by apply list_elem_of_further. }
      exists r. split; [done|]. destruct r as [p|].
      * destruct Hspec as (l1 & l2 & -> & Hf & Hbefore).
        exists ((x, y) :: l1), l2. split; [done|]. split; [done|].
        by intros c [->|Hc]%elem_of_cons; [|apply Hbefore].
      * by intros c [->|Hc]%elem_of_cons; [|apply Hspec].
Qed.

(** C10: on a map of the scanned size [findStartPosition] returns a
    position; when some floor tile lies at positive Manhattan distance from
    the stairs, it is a floor tile at maximal distance from the stairs among
    all floor tiles; otherwise it is the first floor tile of a scan by
    rows, if there is a floor tile, and (1,1) if there is none. *)
Theorem findStartPosition_farthest_floor width height m stairsPos :
  wfGrid width height m ->
  exists start,
    findStartPosition width height m stairsPos = Some start /\
    ((exists p, floorAt m p /\ 0 < manhattan p stairsPos) ->
       floorAt m (coords start) /\
       forall q, floorAt m q ->
                 manhattan q stairsPos <= manhattan (coords start) stairsPos) /\
    (~ (exists p, floorAt m p /\ 0 < manhattan p stairsPos) ->
       (exists p, floorAt m p) ->
       floorAt m (coords start) /\
       forall q, floorAt m q -> q = coords start \/ rowMajorLt (coords start) q) /\
    ((forall p, ~ floorAt m p) -> start = mkPoint 1 1).
Proof.
  intros Hwf. unfold findStartPosition.
  assert (Hdef : forall c, c ∈ rect 0 0 width height -> is_Some (tileAt m c.1 c.2)).
  { intros [x y] Hc%elem_of_rect. simpl. apply (tileAt_wf_Some _ _ _ _ _ Hwf); lia. }
  assert (Hcover : forall q, floorAt m q -> q ∈ rect 0 0 width height).
  { intros [x y] (t & Ht & _). apply elem_of_rect.
    simpl in Ht. pose proof (tileAt_Some_bounds _ _ _ _ _ _ Hwf Ht). lia. }
  destruct (scanFarthest_spec stairsPos _ m (mkFarthest 0 0 0) Hdef)
    as (r & Hr & Hle & Hmax & Hcases).
  rewrite Hr. simpl in *.
  destruct (Z.ltb_spec 0 (far_distance r)) as [Hpos|Hzero].
  - exists (mkPoint (far_x r) (far_y r)). split; [done|].
    destruct Hcases as [->|[Hfl Hd]]; [simpl in Hpos; lia|].
    split; [|split].
    + intros _. split; [done|]. intros q Hq. unfold coords. simpl.
      rewrite <- Hd. apply Hmax; [by apply Hcover|done].
    + intros Hno. exfalso. apply Hno. exists (far_x r, far_y r). split; [done|lia].
    + intros Hno. exfalso. by apply (Hno (far_x r, far_y r)).
  - destruct (firstFloor_spec _ m Hdef) as (found & Hfound & Hspec).
    rewrite Hfound. simpl.
    assert (Hnone : ~ (exists p, floorAt m p /\ 0 < manhattan p stairsPos)).
    { intros (p & Hp & Hd). specialize (Hmax p (Hcover p Hp) Hp). lia. }
    destruct found as [p|].
    + exists p. split; [done|].
      destruct Hspec as (l1 & l2 & Hsplit & Hfl & Hbefore).
      split; [done|]. split.
      * intros _ _. split; [done|]. intros q Hq.
        pose proof (Hcover q Hq) as Hin. rewrite Hsplit in Hin.
        apply elem_of_app in Hin as [Hin|Hin]; [by destruct (Hbefore q Hin)|].
        apply elem_of_cons in Hin as [->|Hin]; [by left|right].
        pose proof (rect_sorted 0 0 width height) as Hsorted.
        rewrite Hsplit in Hsorted.
        apply StronglySorted_app_1_r, StronglySorted_cons in Hsorted as [Hall _].
        rewrite Forall_forall in Hall. by apply Hall.
      * intros Hno. by destruct (Hno _ Hfl).
    + exists (mkPoint 1 1). split; [done|]. split; [done|]. split; [|done].
      intros _ [q Hq]. by destruct (Hspec q (Hcover q Hq)).
Qed.

Lemma findStartPosition_farthest_floor_witness :
  exists start, findStartPosition 3 3 smallMapCarved (mkPoint 0 1) = Some start.
Proof.
  destruct (findStartPosition_farthest_floor 3 3 smallMapCarved (mkPoint 0 1)
              (wfGridb_spec 3 3 smallMapCarved eq_refl)) as (start & H & _).
  exists start. exact H.
Defined.

(** ** Field of view: visible tiles are discovered *)

Lemma tileStep_refl t : tileStep t t.
Proof. unfold tileStep. auto. Qed.

Lemma tileStep_trans t1 t2 t3 : tileStep t1 t2 -> tileStep t2 t3 -> tileStep t1 t3.
Proof.
  unfold tileStep. intros (Hc1 & Hd1 & Hv1) (Hc2 & Hd2 & Hv2).
  split; [congruence|]. split; [auto|].
  intros Hv. destruct (Hv2 Hv) as [Hv'|]; [|by right].
  destruct (Hv1 Hv') as [|Hd]; [by left|right; auto].
Qed.

Lemma evolves_refl m : evolves m m.
Proof.
  split; [done|]. intros x y. destruct (tileAt m x y); constructor.
  apply tileStep_refl.
Qed.

Lemma evolves_trans m1 m2 m3 : evolves m1 m2 -> evolves m2 m3 -> evolves m1 m3.
Proof.
  intros [Hs1 H1] [Hs2 H2]. split; [congruence|]. intros x y.
  specialize (H1 x y). specialize (H2 x y).
  destruct H1 as [t1 t2 H12|]; inversion H2; subst; constructor.
  by eapply tileStep_trans.
Qed.

Lemma evolves_updTile f m x y :
  0 <= x -> 0 <= y -> (forall t, tileStep t (f t)) -> evolves m (updTile f m x y).
Proof.
  intros Hx Hy Hf. split; [apply shape_updTile|]. intros x' y'.
  rewrite tileAt_updTile by lia. case_bool_decide as Hd.
  - destruct Hd as [-> ->]. destruct (tileAt m x y); constructor. apply Hf.
  - destruct (tileAt m x' y'); constructor. apply tileStep_refl.
Qed.

Lemma sightMap_Some {A} (c : M Grid A) s a s' :
  sightMap c s = Some (a, s') <->
  exists m', c (s_map s) = Some (a, m') /\ s' = mkSight (s_fov s) m'.
Proof.
  unfold sightMap. destruct (c (s_map s)) as [[a' m']|]; split.
  - intros [= -> <-]. by exists m'.
  - intros (m'' & [= -> ->] & ->). reflexivity.
  - discriminate.
  - intros (m'' & [=] & _).
Qed.

(** The two writes [visible = true; discovered = true] on one tile. *)
Lemma markSeen_evolves x y s s1 s2 :
  sightMap (writeTile (set_visible true) x y) s = Some (tt, s1) ->
  sightMap (writeTile (set_discovered true) x y) s1 = Some (tt, s2) ->
  evolves (s_map s) (s_map s2) /\
  s_fov s2 = s_fov s /\
  exists t, tileAt (s_map s) x y = Some t /\
            tileAt (s_map s2) x y = Some (set_discovered true (set_visible true t)).
Proof.
  intros (m1 & H1 & ->)%sightMap_Some (m2 & H2 & ->)%sightMap_Some. simpl in *.
  apply writeTile_Some in H1 as (-> & [t Ht] & Hx & Hy).
  apply writeTile_Some in H2 as (-> & _ & _ & _).
  split; [|split; [done|]].
  - split; [by rewrite !shape_updTile|]. intros x' y'.
    rewrite !tileAt_updTile by lia. case_bool_decide as Hd.
    + destruct Hd as [-> ->]. rewrite bool_decide_eq_true_2 by done.
      rewrite Ht. constructor. unfold tileStep. simpl. auto.
    + destruct (tileAt (s_map s) x' y'); constructor. apply tileStep_refl.
  - exists t. split; [done|]. rewrite !tileAt_updTile by lia.
    rewrite !bool_decide_eq_true_2 by done. by rewrite Ht.
Qed.

Section CastInvariant.
Context (recur : Q -> Q -> M Sight unit).
Hypothesis recur_evolves :
  forall ss es s s', recur ss es s = Some (tt, s') -> evolves (s_map s) (s_map s').

Lemma castCell_evolves ox oy radius i ss octant j vars s vars' s' :
  castCell recur ox oy radius i ss octant j vars s = Some (vars', s') ->
  evolves (s_map s) (s_map s').
Proof.
  unfold castCell. destruct (mapOctantToCoordinates ox oy i j octant) as [mapX mapY].
  destruct (_ || _); [intros [= _ <-]; apply evolves_refl|].
  destruct (radius * radius <? _); [intros [= _ <-]; apply evolves_refl|].
  intros ([] & s1 & H1 & H)%bind_Some.
  apply bind_Some in H as ([] & s2 & H2 & H).
  apply bind_Some in H as ([] & s3 & H3 & H).
  apply bind_Some in H as (t & s4 & H4 & H).
  destruct (markSeen_evolves _ _ _ _ _ H1 H2) as (Hev & _ & _).
  injection H3 as <-. simpl in H4.
  apply sightMap_Some in H4 as (m4 & H4 & ->). unfold readTile in H4. simpl in H4.
  destruct (tileAt (s_map s2) mapX mapY) as [t0|]; [|discriminate].
  injection H4 as -> <-.
  destruct vars as [blocked newStart].
  destruct (negb blocked && blocksVision t).
  - apply bind_Some in H as ([] & s5 & H5 & H). injection H as _ <-.
    apply recur_evolves in H5. simpl in H5. by eapply evolves_trans.
  - destruct (blocked && negb (blocksVision t)); by injection H as _ <-.
Qed.

Lemma castRow_evolves ox oy radius i ss octant js vars s vars' s' :
  castRow recur ox oy radius i ss octant js vars s = Some (vars', s') ->
  evolves (s_map s) (s_map s').
Proof.
  revert vars s. induction js as [|j js IH]; intros vars s; simpl.
  - intros [= _ <-]. apply evolves_refl.
  - intros (vars1 & s1 & H1 & H2)%bind_Some.
    eapply evolves_trans; [by eapply castCell_evolves | by eapply IH].
Qed.
End CastInvariant.

Lemma castRows_evolves rows ox oy radius i ss es octant s s' :
  castRows rows ox oy radius i ss es octant s = Some (tt, s') ->
  evolves (s_map s) (s_map s').
Proof.
  revert i ss es s s'. induction rows as [|rows IH]; intros i ss es s s'; simpl.
  - intros [= <-]. apply evolves_refl.
  - intros ([blocked ns] & s1 & H1 & H2)%bind_Some.
    apply castRow_evolves in H1.
    + destruct blocked.
      * injection H2 as <-. exact H1.
      * eapply evolves_trans; [exact H1 | by eapply IH].
    + intros ss' es' s0 s0'. destruct (Qltb ss' es').
      * intros [= <-]. apply evolves_refl.
      * apply IH.
Qed.

Lemma castShadows_evolves ox oy radius row ss es octant s s' :
  castShadows ox oy radius row ss es octant s = Some (tt, s') ->
  evolves (s_map s) (s_map s').
Proof.
  unfold castShadows. destruct (Qltb ss es).
  - intros [= <-]. apply evolves_refl.
  - apply castRows_evolves.
Qed.

Lemma forEach_invariant {S A} (R : S -> S -> Prop) (l : list A)
    (body : A -> M S unit) s s' :
  (forall s, R s s) -> (forall s1 s2 s3, R s1 s2 -> R s2 s3 -> R s1 s3) ->
  (forall a s s', a ∈ l -> body a s = Some (tt, s') -> R s s') ->
  forEach l body s = Some (tt, s') -> R s s'.
Proof.
  intros Hrefl Htrans. revert s. induction l as [|a l IH]; intros s Hbody.
  - intros [= <-]. apply Hrefl.
  - intros (s1 & H1 & H2)%forEach_cons_Some.
    eapply Htrans; [eapply Hbody; [apply list_elem_of_here|exact H1]|].
    apply IH; [|exact H2]. intros b s0 s0' Hb. apply Hbody. by apply list_elem_of_further.
Qed.

Lemma calculate_evolves ox oy radius s tiles s' :
  calculate ox oy radius s = Some (tiles, s') -> evolves (s_map s) (s_map s').
Proof.
  unfold calculate. intros (f & s0 & [= <- <-] & H)%bind_Some.
  destruct (cacheHit _ _ _ _); [injection H as _ <-; apply evolves_refl|].
  apply bind_Some in H as ([] & s1 & [= <-] & H).
  apply bind_Some in H as ([] & s2 & [= <-] & H).
  apply bind_Some in H as ([] & s3 & H3 & H).
  apply bind_Some in H as ([] & s4 & H4 & H).
  apply bind_Some in H as ([] & s5 & H5 & [= _ <-]).
  destruct (markSeen_evolves _ _ _ _ _ H3 H4) as (Hev & _ & _). simpl in Hev.
  eapply evolves_trans; [exact Hev|].
  apply (forEach_invariant (fun a b => evolves (s_map a) (s_map b)) _ _ _ _
           (fun a => evolves_refl _) (fun a b c => evolves_trans _ _ _)) in H5;
    [exact H5|].
  intros octant a b _. apply castShadows_evolves.
Qed.

Lemma resetVisibility_evolves m m' :
  resetVisibility m = Some (tt, m') -> evolves m m'.
Proof.
  unfold resetVisibility. intros Hrun.
  eapply (forEach_invariant evolves); [apply evolves_refl | apply evolves_trans | | exact Hrun].
  intros [x y] m0 m0' _ H. simpl in H.
  apply writeTile_Some in H as (-> & _ & Hx & Hy).
  apply evolves_updTile; [done|done|]. intros t. unfold tileStep. simpl.
  split; [done|]. split; [done|discriminate].
Qed.

(** C6: an operation of the FOV engine keeps "visible implies discovered"
    on every tile; it never clears a [discovered] flag, and a tile whose
    [visible] flag it sets is discovered afterwards. *)
Theorem fov_visible_implies_discovered s s' :
  fovStep s s' ->
  (visibleDiscovered (s_map s) -> visibleDiscovered (s_map s')) /\
  (forall x y t', tileAt (s_map s') x y = Some t' ->
     exists t, tileAt (s_map s) x y = Some t /\
               (discovered t = true -> discovered t' = true) /\
               (visible t = false -> visible t' = true -> discovered t' = true)).
Proof.
  intros Hstep.
  assert (Hev : evolves (s_map s) (s_map s')).
  { destruct Hstep as [(ox & oy & r & tiles & H)|(m' & H & ->)].
    - by eapply calculate_evolves.
    - by apply resetVisibility_evolves. }
  destruct Hev as [_ Hev].
  assert (Hpt : forall x y t', tileAt (s_map s') x y = Some t' ->
                  exists t, tileAt (s_map s) x y = Some t /\ tileStep t t').
  { intros x y t' Ht'. specialize (Hev x y). rewrite Ht' in Hev.
    inversion Hev; subst. by eexists. }
  split.
  - intros Hinv x y t' Ht' Hv. destruct (Hpt x y t' Ht') as (t & Ht & _ & Hd & Hvis).
    destruct (Hvis Hv) as [Hv0|]; [|done]. apply Hd. by apply (Hinv x y).
  - intros x y t' Ht'. destruct (Hpt x y t' Ht') as (t & Ht & _ & Hd & Hvis).
    exists t. split; [done|]. split; [done|].
    intros Hf Hv. destruct (Hvis Hv) as [Hv0|]; [congruence|done].
Qed.

Lemma tileAt_replicate w h t0 x y t :
  tileAt (replicate h (replicate w t0)) x y = Some t -> t = t0.
Proof.
  unfold tileAt. destruct (_ && _); [|discriminate].
  destruct (replicate h (replicate w t0) !! Z.to_nat y) as [row|] eqn:Hrow;
    [|discriminate].
  apply lookup_replicate in Hrow as [-> _].
  by intros [-> _]%lookup_replicate.
Qed.

Lemma fov_visible_implies_discovered_witness :
  visibleDiscovered (s_map openSightAfter).
Proof.
  refine (proj1 (fov_visible_implies_discovered openSight openSightAfter _) _).
  - left. exists 5, 5, 2, openTiles. vm_compute. reflexivity.
  - intros x y t Ht. apply tileAt_replicate in Ht as ->. discriminate.
Defined.

(** ** Field of view in an open area *)



Section OpenCast.
Context (recur : Q -> Q -> M Sight unit) (ox oy radius : Z).


End OpenCast.











(** ** The priority queue *)

Module QueueFacts.
Import PathFinder PathSpec.

Lemma sameItems_refl l : sameItems l l.
Proof. unfold sameItems. auto. Qed.

Lemma sameItems_trans l1 l2 l3 : sameItems l1 l2 -> sameItems l2 l3 -> sameItems l1 l3.
Proof.
  intros (Hl1 & He1 & Hn1) (Hl2 & He2 & Hn2). split; [congruence|]. split.
  - intros x. by rewrite He2, He1.
  - auto.
Qed.

(** Exchanging the contents of two cells of the array. *)
Lemma swap_lookup (l : list nat) i j a b k :
  l !! i = Some a -> l !! j = Some b ->
  <[j := a]> (<[i := b]> l) !! k =
  if decide (k = j) then Some a else if decide (k = i) then Some b else l !! k.
Proof.
  intros Hi Hj.
  pose proof (lookup_lt_Some _ _ _ Hi). pose proof (lookup_lt_Some _ _ _ Hj).
  destruct (decide (k = j)) as [->|Hkj].
  - apply list_lookup_insert_eq. by rewrite length_insert.
  - rewrite list_lookup_insert_ne by done.
    destruct (decide (k = i)) as [->|Hki].
    + by apply list_lookup_insert_eq.
    + by rewrite list_lookup_insert_ne.
Qed.

Lemma swap_sameItems (l : list nat) i j a b :
  l !! i = Some a -> l !! j = Some b -> sameItems l (<[j := a]> (<[i := b]> l)).
Proof.
  intros Hi Hj. split; [by rewrite !length_insert|]. split.
  - intros x. rewrite !list_elem_of_lookup. split.
    + intros [k Hk]. rewrite (swap_lookup l i j a b k Hi Hj) in Hk.
      destruct (decide (k = j)); [injection Hk as <-; by exists i|].
      destruct (decide (k = i)); [injection Hk as <-; by exists j|].
      by exists k.
    + intros [k Hk]. destruct (decide (k = i)) as [->|Hki].
      * exists j. rewrite (swap_lookup l i j a b j Hi Hj).
        rewrite decide_True by done. congruence.
      * destruct (decide (k = j)) as [->|Hkj].
        -- exists i. rewrite (swap_lookup l i j a b i Hi Hj).
           destruct (decide (i = j)); [congruence|].
           rewrite decide_True by done. congruence.
        -- exists k. rewrite (swap_lookup l i j a b k Hi Hj).
           by rewrite !decide_False.
  - rewrite !NoDup_alt. intros Hnd k1 k2 x H1 H2.
    rewrite (swap_lookup l i j a b k1 Hi Hj) in H1.
    rewrite (swap_lookup l i j a b k2 Hi Hj) in H2.
    destruct (decide (k1 = j)) as [->|], (decide (k2 = j)) as [->|]; [done| | |].
    + assert (x = a) as -> by congruence. destruct (decide (k2 = i)) as [->|].
      * assert (b = a) as -> by congruence. by apply (Hnd j i a).
      * pose proof (Hnd _ _ _ H2 Hi). congruence.
    + assert (x = a) as -> by congruence. destruct (decide (k1 = i)) as [->|].
      * assert (b = a) as -> by congruence. by apply (Hnd i j a).
      * pose proof (Hnd _ _ _ H1 Hi). congruence.
    + destruct (decide (k1 = i)) as [->|], (decide (k2 = i)) as [->|]; [done| | |].
      * assert (x = b) as -> by congruence. pose proof (Hnd _ _ _ H2 Hj). congruence.
      * assert (x = b) as -> by congruence. pose proof (Hnd _ _ _ H1 Hj). congruence.
      * by apply (Hnd k1 k2 x).
Qed.

Lemma bubbleLoop_total steps store element idx vals :
  vals !! idx = Some element ->
  exists vals', bubbleLoop steps store element idx vals = Some vals' /\
                sameItems vals vals'.
Proof.
  revert idx vals. induction steps as [|steps IH]; intros idx vals Hidx;
    cbn [bubbleLoop].
  { exists vals. split; [done|apply sameItems_refl]. }
  case_bool_decide as Hpos; [|exists vals; split; [done|apply sameItems_refl]].
  pose proof (lookup_lt_Some _ _ _ Hidx) as Hlt.
  assert (Hp : ((idx - 1) / 2 < idx)%nat).
  { apply Nat.Div0.div_lt_upper_bound. lia. }
  destruct (lookup_lt_is_Some_2 vals ((idx - 1) / 2)%nat) as [parent Hparent]; [lia|].
  rewrite Hparent.
  destruct (numGe _ _); [exists vals; split; [done|apply sameItems_refl]|].
  destruct (IH ((idx - 1) / 2)%nat
              (<[idx := parent]> (<[((idx - 1) / 2)%nat := element]> vals)))
    as (vals' & Hrun & Hsame).
  { rewrite (swap_lookup vals _ idx parent element _ Hparent Hidx).
    rewrite decide_False by lia. by rewrite decide_True. }
  exists vals'. split; [done|].
  eapply sameItems_trans; [|exact Hsame]. by apply swap_sameItems.
Qed.

Lemma sinkLoop_total steps store element idx vals :
  vals !! idx = Some element ->
  exists vals', sinkLoop steps store element idx vals = Some vals' /\
                sameItems vals vals'.
Proof.
  revert idx vals. induction steps as [|steps IH]; intros idx vals Hidx;
    cbn [sinkLoop].
  { exists vals. split; [done|apply sameItems_refl]. }
  assert (Hstep : forall swapIdx child,
            vals !! swapIdx = Some child -> swapIdx <> idx ->
            exists vals',
              sinkLoop steps store element swapIdx
                (<[swapIdx := element]> (<[idx := child]> vals)) = Some vals' /\
              sameItems vals vals').
  { intros swapIdx child Hchild Hne.
    destruct (IH swapIdx (<[swapIdx := element]> (<[idx := child]> vals)))
      as (vals' & Hrun & Hsame).
    { rewrite (swap_lookup vals idx swapIdx element child _ Hidx Hchild).
      by rewrite decide_True. }
    exists vals'. split; [done|].
    eapply sameItems_trans; [|exact Hsame]. by apply swap_sameItems. }
  destruct (decide (2 * idx + 1 < length vals)%nat) as [Hl|Hl].
  - rewrite (bool_decide_eq_true_2 _ Hl).
    destruct (lookup_lt_is_Some_2 vals (2 * idx + 1)%nat Hl) as [lc Hlc].
    rewrite Hlc. cbn [mbind option_bind].
    destruct (decide (2 * idx + 2 < length vals)%nat) as [Hr|Hr].
    + rewrite (bool_decide_eq_true_2 _ Hr).
      destruct (lookup_lt_is_Some_2 vals (2 * idx + 2)%nat Hr) as [rc Hrc].
      rewrite Hrc. cbn [mbind option_bind].
      destruct (numLt (priorityOf store lc) (priorityOf store element)).
      * destruct (numLt (priorityOf store rc) (priorityOf store lc));
          cbn [mbind option_bind]; apply Hstep; (done || lia).
      * destruct (numLt (priorityOf store rc) (priorityOf store element));
          cbn [mbind option_bind]; [apply Hstep; (done || lia)|].
        exists vals. split; [done|apply sameItems_refl].
    + rewrite (bool_decide_eq_false_2 _ Hr). cbn [mbind option_bind].
      destruct (numLt (priorityOf store lc) (priorityOf store element));
        cbn [mbind option_bind]; [apply Hstep; (done || lia)|].
      exists vals. split; [done|apply sameItems_refl].
  - rewrite (bool_decide_eq_false_2 _ Hl). cbn [mbind option_bind].
    rewrite bool_decide_eq_false_2 by lia. cbn [mbind option_bind].
    exists vals. split; [done|apply sameItems_refl].
Qed.

Lemma indexOf_Some vals element :
  element ∈ vals ->
  exists idx, indexOf vals element = Some idx /\ vals !! idx = Some element.
Proof.
  induction vals as [|r vals IH]; [by intros ?%elem_of_nil|].
  intros Hin. simpl. case_bool_decide as Heq.
  - exists 0%nat. by subst.
  - apply elem_of_cons in Hin as [->|Hin]; [done|].
    destruct (IH Hin) as (idx & -> & Hidx). by exists (S idx).
Qed.


Lemma wfQueue_rearranged q store vals :
  wfQueue q -> sameItems (values q) vals ->
  length store = length (elems q) ->
  (forall r, value <$> (store !! r) = value <$> (elems q !! r)) ->
  wfQueue (mkPriorityQueue store vals (valueMap q)).
Proof.
  intros (Hnd & Hvalid & Hmap) (Hlen & Hin & Hnd') Hstore Hval.
  split; [by apply Hnd'|]. split; simpl.
  - intros r Hr%Hin. rewrite Hstore. by apply Hvalid.
  - intros k r Hk. destruct (Hmap k r Hk) as [Hr Hv]. split; [by apply Hin|].
    by rewrite Hval.
Qed.

Lemma queued_rearranged q store vals k :
  sameItems (values q) vals ->
  (forall r, value <$> (store !! r) = value <$> (elems q !! r)) ->
  queued (mkPriorityQueue store vals (valueMap q)) k -> queued q k.
Proof.
  intros (_ & Hin & _) Hval (r & e & Hr & He & Hk). simpl in *.
  specialize (Hval r). rewrite He in Hval. simpl in Hval.
  destruct (elems q !! r) as [e0|] eqn:He0; [|discriminate].
  injection Hval as Hval. exists r, e0. split; [by apply Hin|]. split; [done|congruence].
Qed.

Lemma enqueue_spec q v p :
  wfQueue q ->
  exists q', enqueue q v p = Some q' /\ wfQueue q' /\
             forall k, queued q' k -> k = v \/ queued q k.
Proof.
  intros (Hnd & Hvalid & Hmap). unfold enqueue.
  set (element := length (elems q)).
  set (store := elems q ++ [mkElement v p]).
  set (vals := values q ++ [element]).
  assert (Hidx : vals !! (length vals - 1)%nat = Some element).
  { unfold vals. rewrite length_app. simpl.
    rewrite lookup_app_r by lia.
    replace (length (values q) + 1 - 1 - length (values q))%nat with 0%nat by lia.
    done. }
  destruct (bubbleLoop_total (length vals - 1) store element (length vals - 1) vals Hidx)
    as (vals' & Hrun & Hlen & Hin & Hnd').
  rewrite Hrun. cbn [mbind option_bind]. eexists. split; [reflexivity|].
  assert (Hfresh : element ∉ values q).
  { intros Hel%Hvalid. unfold element in Hel. lia. }
  assert (Hold : forall r, (r < length (elems q))%nat -> store !! r = elems q !! r).
  { intros r Hr. unfold store. by rewrite lookup_app_l. }
  assert (Hnew : store !! element = Some (mkElement v p)).
  { unfold store, element. rewrite lookup_app_r by lia.
    by rewrite Nat.sub_diag. }
  split; [split; [|split]|]; simpl.
  - apply Hnd'. unfold vals. apply NoDup_app. split; [done|].
    split; [|apply NoDup_singleton].
    intros x Hx Hx'%list_elem_of_singleton. by subst.
  - intros r Hr%Hin. unfold vals in Hr. unfold store. rewrite length_app. simpl.
    apply elem_of_app in Hr as [Hr%Hvalid|Hr%list_elem_of_singleton];
      [lia|subst r; unfold element; lia].
  - intros k r Hk. destruct (decide (k = v)) as [->|Hne].
    + rewrite lookup_insert_eq in Hk. injection Hk as <-. split.
      * apply Hin. unfold vals. apply elem_of_app. right. apply list_elem_of_here.
      * by rewrite Hnew.
    + rewrite lookup_insert_ne in Hk by done.
      destruct (Hmap k r Hk) as [Hr Hv]. split.
      * apply Hin. unfold vals. apply elem_of_app. by left.
      * rewrite Hold; [done|by apply Hvalid].
  - intros k (r & e & Hr & He & Hk). simpl in *.
    apply Hin in Hr. unfold vals in Hr.
    apply elem_of_app in Hr as [Hr|Hr%list_elem_of_singleton]; [|subst r].
    + right. exists r, e. split; [done|]. split; [|done].
      rewrite <- Hold; [done|by apply Hvalid].
    + left. rewrite Hnew in He. injection He as <-. done.
Qed.

Lemma removelast_last_split (d r : nat) (l : list nat) :
  r :: l = removelast (r :: l) ++ [List.last (r :: l) d].
Proof. apply app_removelast_last. discriminate. Qed.

Lemma dequeue_spec q :
  wfQueue q ->
  exists r q', dequeue q = Some (r, q') /\ wfQueue q' /\
               (forall k, queued q' k -> queued q k) /\
               (isEmpty q = false -> exists k, r = Some k /\ queued q k).
Proof.
  intros Hwf. pose proof Hwf as (Hnd & Hvalid & Hmap). unfold dequeue, isEmpty.
  destruct (values q) as [|min rest] eqn:Hvals.
  { exists None, q. split; [done|]. split; [done|]. split; [done|].
    intros H. exfalso. apply bool_decide_eq_false in H. by apply H. }
  destruct (lookup_lt_is_Some_2 (elems q) min) as [e He].
  { apply Hvalid. apply list_elem_of_here. }
  rewrite He. cbn [mbind option_bind].
  assert (Hmin : queued q (value e)).
  { exists min, e. rewrite Hvals. split; [apply list_elem_of_here|done]. }
  assert (Hdel : forall k r, delete (value e) (valueMap q) !! k = Some r ->
                             r ∈ rest /\ value <$> (elems q !! r) = Some k).
  { intros k r Hk. apply lookup_delete_Some in Hk as [Hne Hk].
    destruct (Hmap k r Hk) as [Hr Hv]. split; [|done].
    apply elem_of_cons in Hr as [->|Hr]; [|done].
    rewrite He in Hv. simpl in Hv. congruence. }
  apply NoDup_cons in Hnd as [Hminrest Hndrest].
  destruct rest as [|r2 rest'].
  - simpl. eexists _, _. split; [reflexivity|]. split; [|split].
    + split; [apply NoDup_nil_2|]. split; simpl.
      * by intros r ?%elem_of_nil.
      * intros k r Hk. destruct (Hdel k r Hk) as [?%elem_of_nil _]. done.
    + intros k (r & e' & ?%elem_of_nil & _). done.
    + intros _. by exists (value e).
  - pose proof (removelast_last_split min r2 rest') as Hsplit.
    change (removelast (min :: r2 :: rest')) with (min :: removelast (r2 :: rest')).
    change (List.last (min :: r2 :: rest') min) with (List.last (r2 :: rest') min) in *.
    generalize dependent (List.last (r2 :: rest') min). intros stop Hsplit.
    generalize dependent (removelast (r2 :: rest')). intros rl Hsplit.
    rewrite Hsplit in *. clear Hsplit.
    rewrite bool_decide_eq_true_2 by (simpl; lia).
    change (<[0%nat := stop]> (min :: rl)) with (stop :: rl).
    set (vals1 := stop :: rl).
    assert (Hitems : forall x, x ∈ vals1 <-> x ∈ rl ++ [stop]).
    { intros x. unfold vals1.
      rewrite elem_of_cons, elem_of_app, list_elem_of_singleton. tauto. }
    assert (Hnd1 : NoDup vals1).
    { apply NoDup_app in Hndrest as (Hl & Hdisj & _).
      unfold vals1. apply NoDup_cons. split; [|done].
      intros Hin. apply (Hdisj _ Hin). apply list_elem_of_here. }
    destruct (sinkLoop_total (length vals1) (elems q) stop 0 vals1 eq_refl)
      as (vals2 & Hrun & Hlen & Hin & Hnd2).
    rewrite Hrun. cbn [mbind option_bind]. eexists _, _. split; [reflexivity|].
    split; [|split].
    + split; [by apply Hnd2|]. split; simpl.
      * intros r Hr%Hin%Hitems. apply Hvalid. by apply list_elem_of_further.
      * intros k r Hk. destruct (Hdel k r Hk) as [Hr Hv]. split; [|done].
        by apply Hin, Hitems.
    + intros k (r & e' & Hr%Hin%Hitems & He' & Hk). simpl in *.
      exists r, e'. rewrite Hvals. split; [by apply list_elem_of_further|done].
    + intros _. by exists (value e).
Qed.

Lemma updatePriority_spec q v p :
  wfQueue q ->
  exists b q', updatePriority q v p = Some (b, q') /\ wfQueue q' /\
               forall k, queued q' k -> queued q k.
Proof.
  intros Hwf. pose proof Hwf as (Hnd & Hvalid & Hmap). unfold updatePriority.
  destruct (valueMap q !! v) as [element|] eqn:Hv.
  2: { exists false, q. by split. }
  destruct (Hmap v element Hv) as [Hel _].
  destruct (indexOf_Some _ _ Hel) as (idx & Hidx & Hat).
  set (store := alter (fun e => mkElement (value e) p) element (elems q)).
  assert (Hlen : length store = length (elems q)) by apply length_alter.
  assert (Hval : forall r, value <$> (store !! r) = value <$> (elems q !! r)).
  { intros r. unfold store. destruct (decide (element = r)) as [->|Hne].
    - rewrite list_lookup_alter_eq. by destruct (elems q !! r).
    - by rewrite list_lookup_alter_ne. }
  rewrite Hidx. cbn [mbind option_bind].
  destruct (numLt p (priorityOf (elems q) element)).
  - destruct (bubbleLoop_total idx store element idx (values q) Hat)
      as (vals & Hrun & Hsame).
    rewrite Hrun. cbn [mbind option_bind]. eexists _, _. split; [reflexivity|].
    split; [by apply wfQueue_rearranged | intros k; by apply queued_rearranged].
  - destruct (numLt (priorityOf (elems q) element) p).
    + destruct (sinkLoop_total (length (values q)) store element idx (values q) Hat)
        as (vals & Hrun & Hsame).
      rewrite Hrun. cbn [mbind option_bind]. eexists _, _. split; [reflexivity|].
      split; [by apply wfQueue_rearranged | intros k; by apply queued_rearranged].
    + eexists _, _. split; [reflexivity|].
      split; [apply wfQueue_rearranged; [done|apply sameItems_refl|done..]|].
      intros k. apply queued_rearranged; [apply sameItems_refl|done].
Qed.

End QueueFacts.

(** ** The A* search *)

Module SearchFacts.
Import PathFinder PathSpec QueueFacts.

(** The walk back along [cameFrom] ends: from a closed node it only meets
    nodes closed earlier. *)
Lemma reconstructLoop_closed closed cf steps i c p :
  ranked closed cf -> closed !! i = Some c -> (i < steps)%nat ->
  is_Some (reconstructLoop steps cf c p).
Proof.
  intros Hranked. revert i c p. induction steps as [|steps IH]; intros i c p Hc Hi;
    [lia|].
  simpl. destruct (cf !! c) as [prev|] eqn:Hprev; [|by eexists].
  destruct (Hranked c prev Hprev) as (i' & Hi' & Hlt).
  specialize (Hlt i Hc). destruct (keyToPos c) as [x y].
  apply (IH i'); [done|lia].
Qed.

Lemma reconstructPath_total closed cf current :
  ranked closed cf ->
  is_Some (reconstructPath (S (length closed)) cf current).
Proof.
  intros Hranked. unfold reconstructPath.
  assert (Hloop : is_Some (reconstructLoop (S (length closed)) cf current [])).
  { simpl. destruct (cf !! current) as [prev|] eqn:Hprev; [|by eexists].
    destruct (Hranked current prev Hprev) as (i' & Hi' & _).
    destruct (keyToPos current) as [x y].
    apply (reconstructLoop_closed closed cf _ i'); [done|done|].
    by apply lookup_lt_Some in Hi'. }
  destruct Hloop as [[p k] ->]. cbn [mbind option_bind].
  destruct (bool_decide _); [destruct (keyToPos k)|]; by eexists.
Qed.

Lemma ranked_close closed cf k :
  ranked closed cf ->
  ranked (if bool_decide (k ∈ closed) then closed else closed ++ [k]) cf.
Proof.
  intros Hranked. case_bool_decide as Hin; [done|].
  intros k' c Hk'. destruct (Hranked k' c Hk') as (i & Hi & Hlt).
  exists i. split; [by apply lookup_app_l_Some|].
  intros j Hj. apply lookup_app_Some in Hj as [Hj|[Hge Hj]]; [by apply Hlt|].
  apply lookup_lt_Some in Hi. lia.
Qed.

Section Search.
Context (m : DungeonMap) (pf : PathFinder) (endX endY : Z).
Context (P : Key -> Prop).
Hypothesis P_moves : forall p q, P p -> moveTo m pf p q -> P q.

Lemma processNeighbor_spec currentKey n st :
  searchInv P st -> currentKey ∈ closedSet st ->
  P (posToKey (n_x n) (n_y n)) ->
  exists st', processNeighbor pf endX endY currentKey n st = Some st' /\
              closedSet st' = closedSet st /\ searchInv P st'.
Proof.
  intros (Hwf & Hranked & Hopen) Hcur Hn. unfold processNeighbor.
  case_bool_decide as Hclosed; [by exists st|].
  destruct (negb (containsValue (openSet st) (posToKey (n_x n) (n_y n))) || _);
    [|by exists st].
  assert (Hranked' : ranked (closedSet st)
            (<[posToKey (n_x n) (n_y n) := currentKey]> (cameFrom st))).
  { intros k c Hk. destruct (decide (k = posToKey (n_x n) (n_y n))) as [->|Hne].
    - rewrite lookup_insert_eq in Hk. injection Hk as <-.
      apply list_elem_of_lookup in Hcur as [i Hi]. exists i. split; [done|].
      intros j Hj. destruct Hclosed. by eapply list_elem_of_lookup_2.
    - rewrite lookup_insert_ne in Hk by done. by apply Hranked. }
  destruct (negb (containsValue (openSet st) (posToKey (n_x n) (n_y n)))).
  - match goal with
    | |- context [enqueue ?q ?v ?p] =>
        destruct (enqueue_spec q v p Hwf) as (q' & -> & Hwf' & Hq')
    end.
    cbn [mbind option_bind]. eexists. split; [reflexivity|]. split; [done|].
    split; [done|]. split; [done|]. simpl.
    intros k [->|Hk]%Hq'; [done|by apply Hopen].
  - match goal with
    | |- context [updatePriority ?q ?v ?p] =>
        destruct (updatePriority_spec q v p Hwf) as (b & q' & -> & Hwf' & Hq')
    end.
    cbn [mbind option_bind]. eexists. split; [reflexivity|]. split; [done|].
    split; [done|]. split; [done|]. simpl.
    intros k Hk%Hq'. by apply Hopen.
Qed.

Lemma processNeighbors_spec currentKey ns st :
  searchInv P st -> currentKey ∈ closedSet st ->
  (forall n, n ∈ ns -> P (posToKey (n_x n) (n_y n))) ->
  exists st', processNeighbors pf endX endY currentKey ns st = Some st' /\
              searchInv P st'.
Proof.
  revert st. induction ns as [|n ns IH]; intros st Hinv Hcur Hns; simpl.
  - by exists st.
  - destruct (processNeighbor_spec currentKey n st Hinv Hcur) as (st1 & -> & Hc & Hinv1).
    { apply Hns, list_elem_of_here. }
    cbn [mbind option_bind]. apply IH; [done|by rewrite Hc|].
    intros n' Hn'. by apply Hns, list_elem_of_further.
Qed.

Lemma searchLoop_spec left done st :
  searchInv P st ->
  exists r, searchLoop left done m pf endX endY st = Some r /\
            (iterations r <= done + left)%nat /\
            (~ P (posToKey endX endY) -> path r = None).
Proof.
  revert done st. induction left as [|left IH]; intros done st Hinv; simpl.
  { destruct (isEmpty (openSet st)); eexists; (split; [reflexivity|]);
      simpl; (split; [lia|done]). }
  destruct (isEmpty (openSet st)) eqn:Hempty.
  { eexists. split; [reflexivity|]. simpl. split; [lia|done]. }
  destruct Hinv as (Hwf & Hranked & Hopen).
  destruct (dequeue_spec (openSet st) Hwf) as (cur & q & -> & Hwfq & Hsub & Hcur).
  destruct (Hcur Hempty) as (currentKey & -> & Hqueued).
  cbn [mbind option_bind]. destruct currentKey as [currentX currentY].
  unfold keyToPos. cbv beta iota.
  destruct ((currentX =? endX) && (currentY =? endY)) eqn:Hgoal.
  - destruct (reconstructPath_total (closedSet st) (cameFrom st)
                (currentX, currentY) Hranked) as [p ->].
    cbn [mbind option_bind]. eexists. split; [reflexivity|]. simpl.
    split; [lia|]. intros Hno. destruct Hno.
    apply andb_true_iff in Hgoal as [->%Z.eqb_eq ->%Z.eqb_eq]. by apply Hopen.
  - set (closed := if bool_decide ((currentX, currentY) ∈ closedSet st)
                   then closedSet st else closedSet st ++ [(currentX, currentY)]).
    destruct (processNeighbors_spec (currentX, currentY)
                (getNeighbors m pf currentX currentY)
                (mkSearch q closed (gScore st) (fScore st) (cameFrom st)))
      as (st' & -> & Hinv').
    + split; [done|]. split; [apply ranked_close; done|].
      simpl. intros k Hk%Hsub. by apply Hopen.
    + simpl. unfold closed. case_bool_decide; [done|].
      apply elem_of_app. right. apply list_elem_of_here.
    + intros n Hn. apply (P_moves (currentX, currentY)); [by apply Hopen|].
      by exists n.
    + cbn [mbind option_bind]. destruct (IH (S done) st' Hinv') as (r & -> & Hit & Hnull).
      exists r. split; [done|]. split; [lia|done].
Qed.
End Search.

Lemma enqueue_empty v p :
  enqueue emptyQueue v p =
  Some (mkPriorityQueue [mkElement v p] [0%nat] (<[v := 0%nat]> ∅)).
Proof. reflexivity. Qed.

Lemma searchInv_start (P : Key -> Prop) v p gs fs :
  P v ->
  searchInv P (mkSearch (mkPriorityQueue [mkElement v p] [0%nat] (<[v := 0%nat]> ∅))
                 [] gs fs ∅).
Proof.
  intros Hv. split; [split; [|split]|split]; simpl.
  - apply NoDup_singleton.
  - intros r ->%list_elem_of_singleton. simpl. lia.
  - intros k r Hk. apply lookup_insert_Some in Hk as [[<- <-]|[_ Hk]].
    + split; [apply list_elem_of_here|done].
    + by rewrite lookup_empty in Hk.
  - intros k c Hk. by rewrite lookup_empty in Hk.
  - intros k (r & e & ->%list_elem_of_singleton & He & <-). simpl in He.
    by injection He as <-.
Qed.

(** C8: [findPath] returns for every query, after at most [maxIterations]
    turns of its main loop, and it returns [null] when no chain of moves
    leads from the start to the goal. *)
Theorem findPath_terminates_null_when_disconnected pf0 startX startY endX endY options :
  exists r,
    findPath pf0 startX startY endX endY options = Some r /\
    Z.of_nat (iterations r) <= Z.max 0 (maxIterations (setOptions pf0 options)) /\
    forall m, map (setOptions pf0 options) = Some m ->
      ~ connected m (setOptions pf0 options)
          (posToKey startX startY) (posToKey endX endY) ->
      path r = None.
Proof.
  unfold findPath. set (pf := setOptions pf0 options).
  destruct (map pf) as [m|] eqn:Hmap.
  2: { eexists. split; [reflexivity|]. simpl. split; [lia|done]. }
  destruct (negb (isWalkable m pf startX startY) || negb (isWalkable m pf endX endY)).
  { eexists. split; [reflexivity|]. simpl. split; [lia|done]. }
  rewrite enqueue_empty. cbn [mbind option_bind].
  match goal with
  | |- context [searchLoop ?l ?d m pf endX endY ?st] =>
      destruct (searchLoop_spec m pf endX endY
                  (connected m pf (posToKey startX startY))
                  (fun p q Hp Hpq => rtc_r _ _ _ Hp Hpq) l d st)
        as (r & Hr & Hit & Hnull)
  end.
  { apply searchInv_start. apply rtc_refl. }
  exists r. split; [exact Hr|]. split; [lia|].
  intros m' [= <-] Hno. by apply Hnull.
Qed.

Lemma isEmpty_single e vmap :
  isEmpty (mkPriorityQueue [e] [0%nat] vmap) = false.
Proof. reflexivity. Qed.

Lemma dequeue_single e vmap :
  dequeue (mkPriorityQueue [e] [0%nat] vmap) =
  Some (Some (value e), mkPriorityQueue [e] [] (delete (value e) vmap)).
Proof. reflexivity. Qed.

(** C4 (amended): when the start is walkable and at least one iteration
    is allowed, [findPath] from a position to itself returns the empty
    path after one turn of its loop. *)
Theorem findPath_same_cell_empty_path pf0 x y options m :
  map (setOptions pf0 options) = Some m ->
  isWalkable m (setOptions pf0 options) x y = true ->
  1 <= maxIterations (setOptions pf0 options) ->
  findPath pf0 x y x y options = Some (mkFound (Some []) 1).
Proof.
  intros Hmap Hwalk Hmax. unfold findPath. rewrite Hmap, Hwalk.
  cbn [negb orb]. rewrite enqueue_empty. cbn [mbind option_bind].
  destruct (Z.to_nat (maxIterations (setOptions pf0 options))) as [|left] eqn:Hleft;
    [lia|].
  cbn [searchLoop openSet]. rewrite isEmpty_single, dequeue_single.
  cbn [mbind option_bind value]. unfold posToKey, keyToPos. cbv beta iota.
  rewrite !Z.eqb_refl. cbn [andb cameFrom closedSet length].
  unfold reconstructPath. cbn [reconstructLoop]. rewrite lookup_empty.
  reflexivity.
Qed.

(** C4 (as stated, refuted): [findPath] from (0,0) to (0,0) on a map whose
    tile (0,0) is walkable returns the empty path, not [[(0,0)]]. *)
Lemma findPath_origin_to_origin_is_empty :
  path <$> findPath (newPathFinder (Some oneTileMap)) 0 0 0 0 noOptions
    = Some (Some []) /\
  path <$> findPath (newPathFinder (Some oneTileMap)) 0 0 0 0 noOptions
    <> Some (Some [mkPoint 0 0]).
Proof. split; [vm_compute; reflexivity|vm_compute; discriminate]. Qed.

Lemma findPath_same_cell_empty_path_witness :
  findPath (newPathFinder (Some oneTileMap)) 0 0 0 0 noOptions
    = Some (mkFound (Some []) 1).
Proof.
  apply (findPath_same_cell_empty_path _ 0 0 noOptions oneTileMap);
    [reflexivity | reflexivity | simpl; lia].
Defined.

Lemma splitMap_start_isolated q :
  connected splitMap (newPathFinder (Some splitMap)) (0, 0) q -> q = (0, 0).
Proof.
  revert q. apply rtc_ind_r; [done|].
  intros p q _ [n [Hn _]] ->. vm_compute in Hn. by apply elem_of_nil in Hn.
Qed.

Lemma findPath_terminates_null_when_disconnected_witness :
  exists r,
    findPath (newPathFinder (Some splitMap)) 0 0 2 0 noOptions = Some r /\
    path r = None.
Proof.
  destruct (findPath_terminates_null_when_disconnected
              (newPathFinder (Some splitMap)) 0 0 2 0 noOptions)
    as (r & Hr & _ & Hnull).
  exists r. split; [exact Hr|]. apply (Hnull splitMap eq_refl).
  intros H%splitMap_start_isolated. discriminate.
Defined.

End SearchFacts.

(** ** Item placement without a loot pool *)

(** C9: with a missing or an empty loot pool [placeItems] returns the empty
    list and writes one warning to the console; the map, the items array
    and the random source are as before. *)
Theorem placeItems_without_pool ip ids floor difficulty lootPool s :
  lootPool = None \/ lootPool = Some [] ->
  placeItems ip ids floor difficulty lootPool s =
  Some ([],
        mkPlacing
          (mkWorld (w_map (p_world s)) (w_rnd (p_world s)) (w_pos (p_world s))
             (w_log (p_world s) ++ ["No loot pool provided for item placement"%string]))
          (p_items s) (p_uuids s)).
Proof. intros [-> | ->]; reflexivity. Qed.

Lemma placeItems_without_pool_witness :
  placeItems (mkItemPlacer MAP.WIDTH MAP.HEIGHT) someIds 1 50 (Some []) placingStart =
  Some ([],
        mkPlacing
          (mkWorld openMap (fun n => nth n strandedDraws 0%Q) 0
             ["No loot pool provided for item placement"%string])
          [] 0).
Proof.
  exact (placeItems_without_pool (mkItemPlacer MAP.WIDTH MAP.HEIGHT) someIds 1 50
           (Some []) placingStart (or_intror eq_refl)).
Defined.

(** ** Reachability *)

(** A row of wall cannot be crossed. *)
Lemma wall_row_blocks m yb p q :
  (forall x, ~ passable m (x, yb)) ->
  reachable m p q -> p.2 < yb -> q.2 < yb.
Proof.
  intros Hrow Hreach Hp. induction Hreach as [|a b c [Hadj Hpass] _ IH].
  - exact Hp.
  - apply IH. destruct a as [ax ay], b as [bx by_]. unfold adjacent4 in Hadj.
    simpl in *. destruct (decide (by_ = yb)) as [->|]; [|lia].
    exfalso. exact (Hrow bx Hpass).
Qed.

(** ** Corridor routing: a generated level with an unreachable room *)

Lemma strandedMap_wf : wfGrid MAP.WIDTH MAP.HEIGHT strandedMap.
Proof. apply wfGridb_spec. vm_compute. reflexivity. Qed.

Lemma strandedMap_row10 x : ~ passable strandedMap (x, 10).
Proof.
  intros [t [Ht Hb]]. change (tileAt strandedMap x 10 = Some t) in Ht.
  destruct (tileAt_Some_bounds _ _ _ _ _ _ strandedMap_wf Ht) as [Hx _].
  assert (Hall : forallb (fun x => match tileAt strandedMap x 10 with
                                   | Some t => isBlocking t
                                   | None => true
                                   end) (seqZ 0 MAP.WIDTH) = true)
    by (vm_compute; reflexivity).
  rewrite forallb_forall in Hall. specialize (Hall x).
  rewrite Ht, Hb in Hall. discriminate Hall.
  apply list_elem_of_In, elem_of_seqZ. unfold MAP.WIDTH in *. lia.
Qed.

Lemma strandedFinal_wf : wfGrid MAP.WIDTH MAP.HEIGHT (level_map strandedFinalLevel).
Proof. apply wfGridb_spec. vm_compute. reflexivity. Qed.

Lemma strandedFinal_row10 x : ~ passable (level_map strandedFinalLevel) (x, 10).
Proof.
  intros [t [Ht Hb]]. change (tileAt (level_map strandedFinalLevel) x 10 = Some t) in Ht.
  destruct (tileAt_Some_bounds _ _ _ _ _ _ strandedFinal_wf Ht) as [Hx _].
  assert (Hall : forallb (fun x => match tileAt (level_map strandedFinalLevel) x 10 with
                                   | Some t => isBlocking t
                                   | None => true
                                   end) (seqZ 0 MAP.WIDTH) = true)
    by (vm_compute; reflexivity).
  rewrite forallb_forall in Hall. specialize (Hall x).
  rewrite Ht, Hb in Hall. discriminate Hall.
  apply list_elem_of_In, elem_of_seqZ. unfold MAP.WIDTH in *. lia.
Qed.

Lemma rooms_apart_not_connected m :
  (forall x, ~ passable m (x, 10)) -> ~ roomsConnected m strandedRooms.
Proof.
  intros Hrow Hconn.
  pose proof (Hconn (mkRoom 1 1 3 3 false (mkPoint 2 2))
                    (mkRoom 38 23 3 3 false (mkPoint 39 24)) (2, 2) (39, 24)) as Hr.
  assert (Hreach : reachable m (2, 2) (39, 24)).
  { apply Hr; [repeat constructor | repeat constructor | | ];
      unfold inRoom; cbn; lia. }
  pose proof (wall_row_blocks _ 10 _ _ Hrow Hreach) as H.
  cbn in H. lia.
Qed.

(** C1 (evaluated at the failing input): with the random draws
    [strandedDraws] room generation commits three rooms and [connectRooms]
    carves a single corridor, between the first and the third; the second
    room cannot be reached from the first over passable tiles, neither
    right after [connectRooms] nor in the level [generateLevel] returns. *)
Theorem connectRooms_strands_a_room :
  generateLayout newMapGenerator 1 strandedWorld
    = Some (strandedRooms, newMapGenerator, strandedOut) /\
  ~ roomsConnected strandedMap strandedRooms /\
  generateLevel newMapGenerator someIds 1 50 None strandedPlacing
    = Some (strandedFinalLevel, newMapGenerator, strandedFinalState) /\
  level_rooms strandedFinalLevel = strandedRooms /\
  ~ roomsConnected (level_map strandedFinalLevel) (level_rooms strandedFinalLevel).
Proof.
  split; [vm_compute; reflexivity|].
  split; [apply rooms_apart_not_connected, strandedMap_row10|].
  split; [vm_compute; reflexivity|].
  assert (Hrooms : level_rooms strandedFinalLevel = strandedRooms)
    by (vm_compute; reflexivity).
  split; [exact Hrooms|]. rewrite Hrooms.
  apply rooms_apart_not_connected, strandedFinal_row10.
Qed.

(** ** Field of view: what [calculate] writes *)

Lemma isVisible_spec f x y : isVisible f x y = true <-> mkPoint x y ∈ visibleTiles f.
Proof.
  unfold isVisible. rewrite existsb_exists. split.
  - intros ([tx ty] & Hin & Heq). simpl in Heq.
    apply andb_true_iff in Heq as [->%Z.eqb_eq ->%Z.eqb_eq].
    by apply list_elem_of_In.
  - intros Hin. exists (mkPoint x y). split; [by apply list_elem_of_In|].
    simpl. by rewrite !Z.eqb_refl.
Qed.

Lemma isVisible_app f tiles x y :
  isVisible (mkFOV (visibleTiles f ++ tiles) (lastPlayerPos f) (lastRadius f)) x y
  = isVisible f x y || existsb (fun tile => (px tile =? x) && (py tile =? y)) tiles.
Proof. unfold isVisible. simpl. apply existsb_app. Qed.

Lemma markSeen_idem t : markSeen (markSeen t) = markSeen t.
Proof. reflexivity. Qed.

Lemma markIf_markIf b1 b2 o : markIf b2 (markIf b1 o) = markIf (b1 || b2) o.
Proof. destruct b1, b2, o as [t|]; reflexivity. Qed.

(** The three statements that mark a tile and list it. *)
Lemma markAndPush_marksOf m0 x y s s1 s2 s3 :
  marksOf m0 s ->
  sightMap (writeTile (set_visible true) x y) s = Some (tt, s1) ->
  sightMap (writeTile (set_discovered true) x y) s1 = Some (tt, s2) ->
  pushVisible x y s2 = Some (tt, s3) ->
  marksOf m0 s3 /\
  visibleTiles (s_fov s3) = visibleTiles (s_fov s) ++ [mkPoint x y] /\
  lastPlayerPos (s_fov s3) = lastPlayerPos (s_fov s) /\
  lastRadius (s_fov s3) = lastRadius (s_fov s).
Proof.
  intros [Hs Ht] (m1 & H1 & ->)%sightMap_Some (m2 & H2 & ->)%sightMap_Some [= <-].
  simpl in *.
  apply writeTile_Some in H1 as (-> & [t Htile] & Hx & Hy).
  apply writeTile_Some in H2 as (-> & _ & _ & _).
  split; [|done]. split; simpl.
  - by rewrite !shape_updTile.
  - intros x' y'. rewrite isVisible_app. simpl. rewrite orb_false_r.
    rewrite !tileAt_updTile by lia. rewrite <- markIf_markIf, <- Ht.
    destruct (decide (x' = x /\ y' = y)) as [[-> ->]|Hd].
    + rewrite !bool_decide_eq_true_2 by done. rewrite !Z.eqb_refl. simpl.
      by destruct (tileAt (s_map s) x y).
    + rewrite !bool_decide_eq_false_2 by done.
      destruct ((x =? x') && (y =? y')) eqn:E; [|done].
      apply andb_true_iff in E as [->%Z.eqb_eq ->%Z.eqb_eq]. by destruct Hd.
Qed.

Lemma castKeeps_refl m0 ox oy r s : castKeeps m0 ox oy r s s.
Proof.
  intros H. split; [done|]. split; [|done]. exists []. by rewrite app_nil_r.
Qed.

Lemma castKeeps_trans m0 ox oy r s1 s2 s3 :
  castKeeps m0 ox oy r s1 s2 -> castKeeps m0 ox oy r s2 s3 -> castKeeps m0 ox oy r s1 s3.
Proof.
  intros H12 H23 H1. destruct (H12 H1) as (H2 & (a1 & Ha1 & Hf1) & Hp1 & Hr1).
  destruct (H23 H2) as (H3 & (a2 & Ha2 & Hf2) & Hp2 & Hr2).
  split; [done|]. split; [|split; congruence].
  exists (a1 ++ a2). split; [by rewrite Ha2, Ha1, app_assoc|by apply Forall_app].
Qed.

Section CastMarks.
Context (m0 : Grid) (ox oy radius : Z) (recur : Q -> Q -> M Sight unit).
Hypothesis recur_keeps :
  forall ss es s s', recur ss es s = Some (tt, s') -> castKeeps m0 ox oy radius s s'.

Lemma castCell_keeps i ss octant j vars s vars' s' :
  castCell recur ox oy radius i ss octant j vars s = Some (vars', s') ->
  castKeeps m0 ox oy radius s s'.
Proof.
  unfold castCell. destruct (mapOctantToCoordinates ox oy i j octant) as [mapX mapY].
  destruct (_ || _) eqn:Hout; [intros [= _ <-]; apply castKeeps_refl|].
  destruct (radius * radius <? _) eqn:Hfar; [intros [= _ <-]; apply castKeeps_refl|].
  intros ([] & s1 & H1 & H)%bind_Some.
  apply bind_Some in H as ([] & s2 & H2 & H).
  apply bind_Some in H as ([] & s3 & H3 & H).
  apply bind_Some in H as (t & s4 & H4 & H).
  apply sightMap_Some in H4 as (m4 & H4 & ->). unfold readTile in H4.
  destruct (tileAt (s_map s3) mapX mapY) as [t0|]; [|discriminate].
  injection H4 as -> <-.
  assert (Hstep : castKeeps m0 ox oy radius s (mkSight (s_fov s3) (s_map s3))).
  { intros Hm. destruct (markAndPush_marksOf _ _ _ _ _ _ _ Hm H1 H2 H3)
      as (Hm3 & Hl & Hp & Hr).
    split; [exact Hm3|]. split; [|done].
    exists [mkPoint mapX mapY]. split; [done|]. apply Forall_singleton.
    rewrite !orb_false_iff in Hout. destruct Hout as [[[Hx1 Hx2] Hy1] Hy2].
    apply Z.ltb_ge in Hx1, Hy1, Hfar. apply Z.leb_gt in Hx2, Hy2.
    unfold inDisk. simpl. repeat split; lia. }
  destruct vars as [blocked newStart].
  destruct (negb blocked && blocksVision t).
  - apply bind_Some in H as ([] & s5 & H5 & H). injection H as _ <-.
    eapply castKeeps_trans; [exact Hstep|]. by eapply recur_keeps.
  - destruct (blocked && negb (blocksVision t)); injection H as _ <-; exact Hstep.
Qed.

Lemma castRow_keeps i ss octant js vars s vars' s' :
  castRow recur ox oy radius i ss octant js vars s = Some (vars', s') ->
  castKeeps m0 ox oy radius s s'.
Proof.
  revert vars s. induction js as [|j js IH]; intros vars s; simpl.
  - intros [= _ <-]. apply castKeeps_refl.
  - intros (vars1 & s1 & H1 & H2)%bind_Some.
    eapply castKeeps_trans; [by eapply castCell_keeps | by eapply IH].
Qed.
End CastMarks.

Lemma castRows_keeps m0 rows ox oy radius i ss es octant s s' :
  castRows rows ox oy radius i ss es octant s = Some (tt, s') ->
  castKeeps m0 ox oy radius s s'.
Proof.
  revert i ss es s s'. induction rows as [|rows IH]; intros i ss es s s'; simpl.
  - intros [= <-]. apply castKeeps_refl.
  - intros ([blocked ns] & s1 & H1 & H2)%bind_Some.
    apply (castRow_keeps m0) in H1.
    + destruct blocked.
      * injection H2 as <-. exact H1.
      * eapply castKeeps_trans; [exact H1 | by eapply IH].
    + intros ss' es' s0 s0'. destruct (Qltb ss' es').
      * intros [= <-]. apply castKeeps_refl.
      * apply IH.
Qed.

Lemma castShadows_keeps m0 ox oy radius row ss es octant s s' :
  castShadows ox oy radius row ss es octant s = Some (tt, s') ->
  castKeeps m0 ox oy radius s s'.
Proof.
  unfold castShadows. destruct (Qltb ss es).
  - intros [= <-]. apply castKeeps_refl.
  - apply castRows_keeps.
Qed.

(** What a computation (no cache hit) leaves behind. *)
Lemma calculate_fresh ox oy radius s tiles s' :
  cacheHit (s_fov s) ox oy radius = false ->
  calculate ox oy radius s = Some (tiles, s') ->
  visibleTiles (s_fov s') = tiles /\
  lastPlayerPos (s_fov s') = mkPoint ox oy /\ lastRadius (s_fov s') = radius /\
  tiles !! 0%nat = Some (mkPoint ox oy) /\
  Forall (inSight ox oy radius) tiles /\
  marksOf (s_map s) s'.
Proof.
  intros Hmiss. unfold calculate. intros (f & s0 & [= <- <-] & H)%bind_Some.
  rewrite Hmiss in H.
  apply bind_Some in H as ([] & s1 & [= <-] & H).
  apply bind_Some in H as ([] & s2 & H2 & H).
  apply bind_Some in H as ([] & s3 & H3 & H).
  apply bind_Some in H as ([] & s4 & H4 & H).
  apply bind_Some in H as ([] & s5 & H5 & [= <- <-]).
  injection H2 as <-.
  apply sightMap_Some in H3 as (m3 & H3 & ->). simpl in H3.
  apply sightMap_Some in H4 as (m4 & H4 & ->). simpl in H4.
  apply writeTile_Some in H3 as (-> & [t Htile] & Hx & Hy).
  apply writeTile_Some in H4 as (-> & _ & _ & _).
  set (s4 := mkSight _ _) in H5.
  assert (Hm4 : marksOf (s_map s) s4).
  { split; simpl; [by rewrite !shape_updTile|]. intros x y.
    rewrite !tileAt_updTile by lia. unfold isVisible. simpl. rewrite orb_false_r.
    destruct (decide (x = ox /\ y = oy)) as [[-> ->]|Hd].
    - rewrite !bool_decide_eq_true_2 by done. rewrite !Z.eqb_refl. simpl.
      by destruct (tileAt (s_map s) ox oy).
    - rewrite !bool_decide_eq_false_2 by done.
      destruct ((ox =? x) && (oy =? y)) eqn:E; [|done].
      apply andb_true_iff in E as [->%Z.eqb_eq ->%Z.eqb_eq]. by destruct Hd. }
  assert (Hall : castKeeps (s_map s) ox oy radius s4 s5).
  { eapply (forEach_invariant (castKeeps (s_map s) ox oy radius));
      [apply castKeeps_refl | apply castKeeps_trans | | exact H5].
    intros octant a b _. apply castShadows_keeps. }
  destruct (Hall Hm4) as (Hm5 & (added & Hl & Hf) & Hp & Hr).
  simpl in Hl, Hp, Hr. split; [done|]. split; [done|]. split; [done|].
  rewrite Hl. split; [done|]. split; [|done].
  apply Forall_cons. split; [by left|].
  eapply Forall_impl; [exact Hf|]. intros p Hp'. by right.
Qed.

(** X1: a computation of the field of view (no cache hit) returns the
    list the FOV object keeps, which starts with the origin and holds only
    the origin and tiles of the map within the radius; in the map it sets
    [visible] and [discovered] on exactly the tiles it returns and changes
    nothing else; and [isVisible] answers by that list. *)
Theorem calculate_marks_exactly_the_returned_tiles s originX originY radius tiles s' :
  cacheHit (s_fov s) originX originY radius = false ->
  calculate originX originY radius s = Some (tiles, s') ->
  tiles !! 0%nat = Some (mkPoint originX originY) /\
  (forall p, p ∈ tiles ->
     p = mkPoint originX originY \/ inDisk originX originY radius p) /\
  (forall x y, isVisible (s_fov s') x y = true <-> mkPoint x y ∈ tiles) /\
  shape (s_map s') = shape (s_map s) /\
  (forall x y, mkPoint x y ∈ tiles ->
     tileAt (s_map s') x y = markSeen <$> tileAt (s_map s) x y) /\
  (forall x y, mkPoint x y ∉ tiles -> tileAt (s_map s') x y = tileAt (s_map s) x y).
Proof.
  intros Hmiss Hrun.
  destruct (calculate_fresh _ _ _ _ _ _ Hmiss Hrun) as (Hl & _ & _ & Hhd & Hf & Hs & Ht).
  split; [done|]. split; [by apply Forall_forall|].
  assert (Hvis : forall x y, isVisible (s_fov s') x y = true <-> mkPoint x y ∈ tiles).
  { intros x y. by rewrite isVisible_spec, Hl. }
  split; [done|]. split; [done|]. split.
  - intros x y Hin. rewrite Ht. apply Hvis in Hin. by rewrite Hin.
  - intros x y Hin. rewrite Ht.
    destruct (isVisible (s_fov s') x y) eqn:E; [|done]. by apply Hvis in E.
Qed.

Lemma calculate_marks_exactly_the_returned_tiles_witness :
  walledTiles !! 0%nat = Some (mkPoint 5 5) /\
  (forall p, p ∈ walledTiles -> p = mkPoint 5 5 \/ inDisk 5 5 3 p) /\
  (forall x y, isVisible (s_fov walledSightAfter) x y = true <-> mkPoint x y ∈ walledTiles) /\
  shape (s_map walledSightAfter) = shape walledMap /\
  (forall x y, mkPoint x y ∈ walledTiles ->
     tileAt (s_map walledSightAfter) x y = markSeen <$> tileAt walledMap x y) /\
  (forall x y, mkPoint x y ∉ walledTiles ->
     tileAt (s_map walledSightAfter) x y = tileAt walledMap x y).
Proof.
  apply (calculate_marks_exactly_the_returned_tiles walledSight 5 5 3).
  - reflexivity.
  - vm_compute. reflexivity.
Defined.

(** ** Field of view: the cache and [resetVisibility] *)

Lemma resetVisibility_Some m m' :
  resetVisibility m = Some (tt, m') ->
  shape m' = shape m /\
  (forall x y, inWindow x y = true -> is_Some (tileAt m x y)) /\
  forall x y, tileAt m' x y =
    if inWindow x y then set_visible false <$> tileAt m x y else tileAt m x y.
Proof.
  unfold resetVisibility.
  assert (Hgen : forall cells m m',
    forEach cells (fun c : Z * Z => writeTile (set_visible false) c.1 c.2) m = Some (tt, m') ->
    shape m' = shape m /\
    (forall c, c ∈ cells -> is_Some (tileAt m c.1 c.2)) /\
    forall x y, tileAt m' x y =
      if bool_decide ((x, y) ∈ cells) then set_visible false <$> tileAt m x y
      else tileAt m x y).
  { clear. induction cells as [|[cx cy] cells IH]; intros m m'.
    - intros [= <-]. split; [done|]. split; [by intros c ?%elem_of_nil|].
      intros x y. rewrite bool_decide_eq_false_2; [done|]. apply not_elem_of_nil.
    - intros (m1 & H1 & H2)%forEach_cons_Some. simpl in H1.
      apply writeTile_Some in H1 as (-> & Hdef & Hx & Hy).
      apply IH in H2 as (Hs & Hd & Ht).
      split; [by rewrite Hs, shape_updTile|]. split.
      + intros c [->|Hc]%elem_of_cons; [done|].
        specialize (Hd c Hc). rewrite tileAt_updTile in Hd by lia.
        case_bool_decide as E; [|done]. destruct E as [-> ->]. done.
      + intros x y. rewrite Ht, tileAt_updTile by lia.
        destruct (decide ((x, y) = (cx, cy))) as [[= -> ->]|Hne].
        * rewrite (bool_decide_eq_true_2 (cx = cx /\ cy = cy)) by done.
          rewrite (bool_decide_eq_true_2 ((cx, cy) ∈ (cx, cy) :: cells))
            by apply list_elem_of_here.
          destruct (bool_decide _); by destruct (tileAt m cx cy).
        * rewrite (bool_decide_eq_false_2 (x = cx /\ y = cy))
            by (intros [-> ->]; done).
          destruct (decide ((x, y) ∈ cells)) as [Hin|Hin].
          -- rewrite !bool_decide_eq_true_2; [done| |done].
             by apply list_elem_of_further.
          -- rewrite !bool_decide_eq_false_2; [done| |done].
             by intros [?|?]%elem_of_cons. }
  intros H. apply Hgen in H as (Hs & Hd & Ht).
  assert (Hwin : forall x y, inWindow x y = true <-> (x, y) ∈ rect 0 0 MAP.WIDTH MAP.HEIGHT).
  { intros x y. rewrite elem_of_rect. unfold inWindow.
    rewrite !andb_true_iff, !Z.leb_le, !Z.ltb_lt. lia. }
  split; [done|]. split.
  - intros x y Hin. apply Hwin in Hin. apply (Hd (x, y) Hin).
  - intros x y. rewrite Ht. destruct (inWindow x y) eqn:E.
    + rewrite bool_decide_eq_true_2; [done|]. by apply Hwin.
    + rewrite bool_decide_eq_false_2; [done|]. rewrite <- Hwin. congruence.
Qed.

Lemma resetVisibility_total m :
  (forall x y, inWindow x y = true -> is_Some (tileAt m x y)) ->
  is_Some (resetVisibility m).
Proof.
  unfold resetVisibility. intros Hdef.
  assert (Hgen : forall cells m,
    (forall c, c ∈ cells -> is_Some (tileAt m c.1 c.2)) ->
    is_Some (forEach cells (fun c : Z * Z => writeTile (set_visible false) c.1 c.2) m)).
  { clear. induction cells as [|[cx cy] cells IH]; intros m Hd; [by eexists|].
    destruct (Hd (cx, cy) (list_elem_of_here _ _)) as [t Ht]. simpl in Ht.
    assert (Hpos : 0 <= cx /\ 0 <= cy).
    { unfold tileAt in Ht.
      destruct (Z.leb_spec 0 cx), (Z.leb_spec 0 cy); simpl in Ht; try discriminate. lia. }
    destruct (IH (updTile (set_visible false) m cx cy)) as [[[] m'] H'].
    { intros c Hc. rewrite tileAt_updTile by lia.
      destruct (bool_decide _); [rewrite Ht; by eexists|].
      apply Hd. by apply list_elem_of_further. }
    exists (tt, m'). apply forEach_cons_Some. eexists. split; [|exact H'].
    simpl. unfold writeTile. by rewrite Ht. }
  apply Hgen. intros [x y] Hc. apply Hdef. simpl.
  apply elem_of_rect in Hc. unfold inWindow.
  rewrite !andb_true_iff, !Z.leb_le, !Z.ltb_lt. lia.
Qed.

(** X2: [resetVisibility] returns exactly on the maps that hold every cell
    of the 80 x 50 window (on any other it throws, reading a property of
    [undefined]); it then clears the [visible] flag of every tile of the
    window and changes nothing else: terrain, [discovered] and the tiles
    outside the window stay. *)
Theorem resetVisibility_clears_the_window m :
  (is_Some (resetVisibility m) <->
   forall x y, 0 <= x < MAP.WIDTH -> 0 <= y < MAP.HEIGHT -> is_Some (tileAt m x y)) /\
  forall m', resetVisibility m = Some (tt, m') ->
    shape m' = shape m /\
    (forall x y t, 0 <= x < MAP.WIDTH -> 0 <= y < MAP.HEIGHT ->
       tileAt m x y = Some t -> tileAt m' x y = Some (set_visible false t)) /\
    (forall x y, ~ (0 <= x < MAP.WIDTH /\ 0 <= y < MAP.HEIGHT) ->
       tileAt m' x y = tileAt m x y).
Proof.
  assert (Hwin : forall x y, inWindow x y = true <->
                             0 <= x < MAP.WIDTH /\ 0 <= y < MAP.HEIGHT).
  { intros x y. unfold inWindow. rewrite !andb_true_iff, !Z.leb_le, !Z.ltb_lt. lia. }
  split; [split|].
  - intros [[[] m'] H]. apply resetVisibility_Some in H as (_ & Hd & _).
    intros x y Hx Hy. apply Hd, Hwin. done.
  - intros Hd. apply resetVisibility_total. intros x y [Hx Hy]%Hwin. by apply Hd.
  - intros m' H. apply resetVisibility_Some in H as (Hs & _ & Ht).
    split; [done|]. split.
    + intros x y t Hx Hy Htile. rewrite Ht, Htile.
      rewrite (proj2 (Hwin x y)) by done. reflexivity.
    + intros x y Hout. rewrite Ht. destruct (inWindow x y) eqn:E; [|done].
      by apply Hwin in E.
Qed.

(** X3: the cache of [calculate] is keyed by the origin and the radius
    alone.  After a call has returned, the same call on any map, the map
    of another level included, returns the same list and writes nothing;
    so when [resetVisibility] has cleared the flags, as the renderer does
    before every frame, repeating the call leaves every tile of the window
    not visible although the list returned is not empty. *)
Theorem calculate_cached_call_writes_nothing s originX originY radius tiles s' :
  calculate originX originY radius s = Some (tiles, s') ->
  (forall m2, calculate originX originY radius (mkSight (s_fov s') m2)
              = Some (tiles, mkSight (s_fov s') m2)) /\
  forall m2, resetVisibility (s_map s') = Some (tt, m2) ->
    forall tiles2 s2,
      calculate originX originY radius (mkSight (s_fov s') m2) = Some (tiles2, s2) ->
      tiles2 = tiles /\
      forall x y t, 0 <= x < MAP.WIDTH -> 0 <= y < MAP.HEIGHT ->
                    tileAt (s_map s2) x y = Some t -> visible t = false.
Proof.
  intros Hrun.
  assert (Hhit : cacheHit (s_fov s') originX originY radius = true /\
                 visibleTiles (s_fov s') = tiles).
  { destruct (cacheHit (s_fov s) originX originY radius) eqn:Hc.
    - unfold calculate in Hrun. apply bind_Some in Hrun as (f & s0 & [= <- <-] & H).
      rewrite Hc in H. injection H as <- <-. done.
    - destruct (calculate_fresh _ _ _ _ _ _ Hc Hrun) as (Hl & Hp & Hr & _).
      split; [|done]. unfold cacheHit. rewrite Hp, Hr. simpl.
      by rewrite !Z.eqb_refl. }
  destruct Hhit as [Hhit Hl].
  assert (Hagain : forall m2, calculate originX originY radius (mkSight (s_fov s') m2)
                              = Some (tiles, mkSight (s_fov s') m2)).
  { intros m2. unfold calculate, mbind, M_bind, bind, gets. simpl.
    rewrite Hhit. by rewrite Hl. }
  split; [exact Hagain|].
  intros m2 Hreset tiles2 s2 H2. rewrite Hagain in H2. injection H2 as <- <-.
  split; [done|]. simpl. intros x y t Hx Hy Htile.
  apply resetVisibility_Some in Hreset as (_ & Hd & Ht).
  rewrite Ht in Htile.
  assert (inWindow x y = true) as Hw.
  { unfold inWindow. rewrite !andb_true_iff, !Z.leb_le, !Z.ltb_lt. lia. }
  rewrite Hw in Htile. destruct (tileAt (s_map s') x y); [|discriminate].
  injection Htile as <-. reflexivity.
Qed.

Lemma calculate_cached_call_writes_nothing_witness :
  (forall m2, calculate 5 5 3 (mkSight (s_fov walledSightAfter) m2)
              = Some (walledTiles, mkSight (s_fov walledSightAfter) m2)) /\
  forall m2, resetVisibility (s_map walledSightAfter) = Some (tt, m2) ->
    forall tiles2 s2,
      calculate 5 5 3 (mkSight (s_fov walledSightAfter) m2) = Some (tiles2, s2) ->
      tiles2 = walledTiles /\
      forall x y t, 0 <= x < MAP.WIDTH -> 0 <= y < MAP.HEIGHT ->
                    tileAt (s_map s2) x y = Some t -> visible t = false.
Proof.
  apply (calculate_cached_call_writes_nothing walledSight 5 5 3).
  vm_compute. reflexivity.
Defined.

(** ** Corridors between rooms *)

Lemma dugFrom_refl m : dugFrom m m.
Proof. split; [done|]. intros x y. by exists false. Qed.

Lemma dugFrom_trans m1 m2 m3 : dugFrom m1 m2 -> dugFrom m2 m3 -> dugFrom m1 m3.
Proof.
  intros [Hs1 H1] [Hs2 H2]. split; [congruence|]. intros x y.
  destruct (H1 x y) as [b1 E1], (H2 x y) as [b2 E2].
  exists (b1 || b2). by rewrite E2, E1, digIf_digIf.
Qed.

Lemma dig_not_wall t : isBlocking t = false -> isBlocking (dig t) = false.
Proof.
  unfold dig, isBlocking. intros H. by rewrite H.
Qed.

Lemma dugFrom_passable m m' p : dugFrom m m' -> passable m p -> passable m' p.
Proof.
  intros [_ H] (t & Ht & Hb). destruct (H p.1 p.2) as [b E].
  rewrite Ht in E. destruct b; simpl in E.
  - exists (dig t). split; [done|]. by apply dig_not_wall.
  - by exists t.
Qed.

Lemma dugFrom_reachable m m' p q : dugFrom m m' -> reachable m p q -> reachable m' p q.
Proof.
  intros Hd. unfold reachable. apply rtc_subrel.
  intros a b [Hadj Hp]. split; [done|]. by eapply dugFrom_passable.
Qed.

Lemma dugFrom_tiles m m' :
  dugFrom m m' ->
  (forall x y t, tileAt m x y = Some t -> char t <> TILE_TYPES.WALL ->
                 tileAt m' x y = Some t) /\
  (forall x y t, tileAt m x y = Some t -> char t = TILE_TYPES.WALL ->
                 tileAt m' x y = Some t \/
                 tileAt m' x y = Some (set_char TILE_TYPES.FLOOR t)).
Proof.
  intros [_ H]. split; intros x y t Ht Hc; destruct (H x y) as [b E];
    rewrite Ht in E; destruct b; simpl in E; unfold dig in E.
  - apply Ascii.eqb_neq in Hc. by rewrite Hc in E.
  - done.
  - apply Ascii.eqb_eq in Hc. rewrite Hc in E. by right.
  - by left.
Qed.

Lemma inBounds_spec g x y :
  inBounds g x y = true <-> 0 <= x < cg_width g /\ 0 <= y < cg_height g.
Proof. unfold inBounds. rewrite !andb_true_iff, !Z.leb_le, !Z.ltb_lt. lia. Qed.

(** A carving call on a map of the generator's size. *)
Lemma carve_wf g s m :
  wfGrid (cg_width g) (cg_height g) m ->
  exists m', carve g s m = Some (tt, m') /\
             wfGrid (cg_width g) (cg_height g) m' /\ dugFrom m m' /\
             forall c, c ∈ segCells s -> inBounds g c.1 c.2 = true -> passable m' c.
Proof.
  intros Hwf. destruct (carve_total g s m) as [m' Hrun].
  { intros c _ [Hx Hy]%inBounds_spec. by eapply tileAt_wf_Some. }
  exists m'. split; [done|].
  pose proof (carve_Some _ _ _ _ Hrun) as (Hs & _ & Ht).
  split; [by eapply wfGrid_shape|]. split.
  - split; [done|]. intros x y. by eexists.
  - intros [cx cy] Hc Hin. pose proof Hin as [Hx Hy]%inBounds_spec.
    destruct (tileAt_wf_Some _ _ m cx cy Hwf Hx Hy) as [t Htile].
    assert (Hhit : hit g (segCells s) cx cy = true) by (by apply hit_true).
    exists (dig t). split.
    + simpl. by rewrite Ht, Hhit, Htile.
    + unfold dig, isBlocking. destruct (Ascii.eqb (char t) TILE_TYPES.WALL) eqn:E; [done|].
      exact E.
Qed.

Lemma line_reachable_h m y a b :
  (forall x, Z.min a b <= x <= Z.max a b -> passable m (x, y)) ->
  reachable m (a, y) (b, y).
Proof.
  remember (Z.to_nat (Z.abs (b - a))) as n eqn:Hn.
  revert a Hn. induction n as [|n IH]; intros a Hn Hp.
  - assert (a = b) as -> by lia. apply rtc_refl.
  - destruct (Z.lt_trichotomy a b) as [Hlt|[->|Hgt]]; [|apply rtc_refl|].
    + apply (rtc_l _ _ (a + 1, y)).
      * split; [unfold adjacent4; simpl; lia|]. apply Hp. lia.
      * apply IH; [lia|]. intros x Hx. apply Hp. lia.
    + apply (rtc_l _ _ (a - 1, y)).
      * split; [unfold adjacent4; simpl; lia|]. apply Hp. lia.
      * apply IH; [lia|]. intros x Hx. apply Hp. lia.
Qed.

Lemma line_reachable_v m x a b :
  (forall y, Z.min a b <= y <= Z.max a b -> passable m (x, y)) ->
  reachable m (x, a) (x, b).
Proof.
  remember (Z.to_nat (Z.abs (b - a))) as n eqn:Hn.
  revert a Hn. induction n as [|n IH]; intros a Hn Hp.
  - assert (a = b) as -> by lia. apply rtc_refl.
  - destruct (Z.lt_trichotomy a b) as [Hlt|[->|Hgt]]; [|apply rtc_refl|].
    + apply (rtc_l _ _ (x, a + 1)).
      * split; [unfold adjacent4; simpl; lia|]. apply Hp. lia.
      * apply IH; [lia|]. intros y Hy. apply Hp. lia.
    + apply (rtc_l _ _ (x, a - 1)).
      * split; [unfold adjacent4; simpl; lia|]. apply Hp. lia.
      * apply IH; [lia|]. intros y Hy. apply Hp. lia.
Qed.

Lemma digs_refl g w : wfGrid (cg_width g) (cg_height g) (w_map w) -> digs g w w.
Proof. intros Hwf. split; [done|]. split; [apply dugFrom_refl|done]. Qed.

Lemma digs_trans g w w1 w2 : digs g w w1 -> digs g w1 w2 -> digs g w w2.
Proof.
  intros (Hwf1 & Hd1 & Hr1 & Hl1) (Hwf2 & Hd2 & Hr2 & Hl2).
  split; [done|]. split; [by eapply dugFrom_trans|]. split; congruence.
Qed.

(** The world before counts by its map, its random sequence and its
    console only. *)
Lemma digs_same g w0 w w' :
  w_map w0 = w_map w -> w_rnd w0 = w_rnd w -> w_log w0 = w_log w ->
  digs g w w' -> digs g w0 w'.
Proof. intros Em Er El H. unfold digs. by rewrite Em, Er, El. Qed.

Lemma joined_dug m m' p q : dugFrom m m' -> joined m p q -> joined m' p q.
Proof.
  intros Hd [Hp Hr]. split; [by eapply dugFrom_passable|by eapply dugFrom_reachable].
Qed.

Lemma joined_trans m p q r : joined m p q -> joined m q r -> joined m p r.
Proof.
  intros [Hp Hpq] [_ Hqr]. split; [done|]. unfold reachable in *. by etrans.
Qed.

Lemma hCorridor_draws g x1 x2 y :
  drawsCorridor g (onMap (hCorridor g x1 x2 y)) (x1, y) (x2, y).
Proof.
  intros w Hwf. destruct (carve_wf g (HSeg x1 x2 y) _ Hwf) as (m' & Hrun & Hwf' & Hd & Hp).
  eexists. split; [apply onMap_Some; by exists m'|]. split; [by split|].
  simpl. intros [Hx1 Hy]%inBounds_spec [Hx2 _]%inBounds_spec.
  assert (Hline : forall x, Z.min x1 x2 <= x <= Z.max x1 x2 -> passable m' (x, y)).
  { intros x Hx. apply Hp.
    - simpl. apply (list_elem_of_fmap_2 (fun x => (x, y))). apply elem_of_seqZ. lia.
    - apply inBounds_spec. simpl. lia. }
  split; [apply Hline; lia|by apply line_reachable_h].
Qed.

Lemma vCorridor_draws g y1 y2 x :
  drawsCorridor g (onMap (vCorridor g y1 y2 x)) (x, y1) (x, y2).
Proof.
  intros w Hwf. destruct (carve_wf g (VSeg y1 y2 x) _ Hwf) as (m' & Hrun & Hwf' & Hd & Hp).
  eexists. split; [apply onMap_Some; by exists m'|]. split; [by split|].
  simpl. intros [Hx Hy1]%inBounds_spec [_ Hy2]%inBounds_spec.
  assert (Hline : forall y, Z.min y1 y2 <= y <= Z.max y1 y2 -> passable m' (x, y)).
  { intros y Hy. apply Hp.
    - simpl. apply (list_elem_of_fmap_2 (fun y => (x, y))). apply elem_of_seqZ. lia.
    - apply inBounds_spec. simpl. lia. }
  split; [apply Hline; lia|by apply line_reachable_v].
Qed.

(** Two corridors in a row, the second starting where the first ended. *)
Lemma drawsCorridor_seq g (c1 c2 : M World unit) p q r :
  drawsCorridor g c1 p q -> drawsCorridor g c2 q r ->
  (inBounds g p.1 p.2 = true -> inBounds g r.1 r.2 = true -> inBounds g q.1 q.2 = true) ->
  drawsCorridor g (c1;; c2) p r.
Proof.
  intros H1 H2 Hq w Hwf. destruct (H1 w Hwf) as (w1 & E1 & D1 & J1).
  destruct (H2 w1 (proj1 D1)) as (w2 & E2 & D2 & J2).
  exists w2. split; [apply bind_Some; by exists tt, w1|].
  split; [by eapply digs_trans|]. intros Hp Hr. specialize (Hq Hp Hr).
  eapply joined_trans; [|by apply J2].
  eapply joined_dug; [apply D2|by apply J1].
Qed.

(** A draw from the random source before the corridor. *)
Lemma drawsCorridor_random g (k : Q -> M World unit) p q :
  (forall r, drawsCorridor g (k r) p q) -> drawsCorridor g (random ≫= k) p q.
Proof.
  intros H w Hwf.
  set (w0 := mkWorld (w_map w) (w_rnd w) (S (w_pos w)) (w_log w)).
  destruct (H (w_rnd w (w_pos w)) w0 Hwf) as (w' & E & D & J).
  exists w'. split; [exact E|]. split; [|done]. by eapply digs_same; [..|exact D].
Qed.

Lemma createElbowCorridor_draws g x1 y1 x2 y2 :
  drawsCorridor g (createElbowCorridor g x1 y1 x2 y2) (x1, y1) (x2, y2).
Proof.
  unfold createElbowCorridor. apply drawsCorridor_random. intros r.
  destruct (Qltb r (1 # 2)).
  - apply (drawsCorridor_seq g _ _ (x1, y1) (x2, y1) (x2, y2));
      [apply hCorridor_draws | apply vCorridor_draws |].
    simpl. rewrite !inBounds_spec. lia.
  - apply (drawsCorridor_seq g _ _ (x1, y1) (x1, y2) (x2, y2));
      [apply vCorridor_draws | apply hCorridor_draws |].
    simpl. rewrite !inBounds_spec. lia.
Qed.

(** A share of the way from the current coordinate to the goal lies
    between the two. *)
Lemma Qfloor_share d i segments :
  0 <= i < segments ->
  Z.min 0 d <= Qfloor (inject_Z d * (inject_Z (i + 1) / inject_Z segments)) <= Z.max 0 d.
Proof.
  intros Hi.
  assert (Hf : (0 <= inject_Z (i + 1) / inject_Z segments)%Q /\
               (inject_Z (i + 1) / inject_Z segments <= 1)%Q).
  { split.
    - apply Qle_shift_div_l; [rewrite <- (Zlt_Qlt 0); lia|].
      rewrite Qmult_0_l. rewrite <- (Zle_Qle 0). lia.
    - apply Qle_shift_div_r; [rewrite <- (Zlt_Qlt 0); lia|].
      rewrite Qmult_1_l. rewrite <- Zle_Qle. lia. }
  destruct Hf as [Hf0 Hf1].
  set (f := (inject_Z (i + 1) / inject_Z segments)%Q) in *.
  destruct (Z.le_gt_cases 0 d) as [Hd|Hd].
  - assert (Hq : (0 <= inject_Z d)%Q) by (unfold Qle; simpl; lia).
    rewrite Z.min_l, Z.max_r by lia. split.
    + rewrite <- (Qfloor_Z 0). apply Qfloor_resp_le. change (inject_Z 0) with 0%Q. nra.
    + rewrite <- (Qfloor_Z d) at 2. apply Qfloor_resp_le. nra.
  - assert (Hq : (inject_Z d <= 0)%Q) by (unfold Qle; simpl; lia).
    rewrite Z.min_r, Z.max_l by lia. split.
    + rewrite <- (Qfloor_Z d) at 1. apply Qfloor_resp_le. nra.
    + rewrite <- (Qfloor_Z 0). apply Qfloor_resp_le. change (inject_Z 0) with 0%Q. nra.
Qed.

Lemma zigzagLoop_draws g segments x2 y2 idxs cx cy w :
  wfGrid (cg_width g) (cg_height g) (w_map w) ->
  (forall i, i ∈ idxs -> 0 <= i < segments) -> idxs <> [] ->
  exists cx' cy' w',
    zigzagLoop g segments x2 y2 idxs cx cy w = Some ((cx', cy'), w') /\
    digs g w w' /\
    (inBounds g cx cy = true -> inBounds g x2 y2 = true ->
     inBounds g cx' cy' = true /\ joined (w_map w') (cx, cy) (cx', cy')).
Proof.
  revert cx cy w. induction idxs as [|i idxs IH]; intros cx cy w Hwf Hidx Hne; [done|].
  assert (Hi : 0 <= i < segments) by apply Hidx, list_elem_of_here.
  cbn [zigzagLoop].
  set (targetX := if i =? segments - 1 then x2
                  else cx + Qfloor (inject_Z (x2 - cx)
                                    * (inject_Z (i + 1) / inject_Z segments))).
  set (targetY := if i =? segments - 1 then y2
                  else cy + Qfloor (inject_Z (y2 - cy)
                                    * (inject_Z (i + 1) / inject_Z segments))).
  assert (HtX : Z.min cx x2 <= targetX <= Z.max cx x2).
  { unfold targetX. destruct (i =? segments - 1); [lia|].
    pose proof (Qfloor_share (x2 - cx) i segments Hi). lia. }
  assert (HtY : Z.min cy y2 <= targetY <= Z.max cy y2).
  { unfold targetY. destruct (i =? segments - 1); [lia|].
    pose proof (Qfloor_share (y2 - cy) i segments Hi). lia. }
  assert (Hrest : forall (c : M World unit) nx ny,
            drawsCorridor g c (cx, cy) (nx, ny) ->
            (inBounds g cx cy = true -> inBounds g x2 y2 = true ->
             inBounds g nx ny = true) ->
            exists cx' cy' w',
              (c;; zigzagLoop g segments x2 y2 idxs nx ny) w = Some ((cx', cy'), w') /\
              digs g w w' /\
              (inBounds g cx cy = true -> inBounds g x2 y2 = true ->
               inBounds g cx' cy' = true /\ joined (w_map w') (cx, cy) (cx', cy'))).
  { intros c nx ny Hc Hb1. destruct (Hc w Hwf) as (w1 & E1 & D1 & J1).
    destruct idxs as [|i' idxs'].
    - exists nx, ny, w1. split; [apply bind_Some; by exists tt, w1|].
      split; [done|]. intros Hs Hg. split; [by apply Hb1|]. apply J1; [done|].
      by apply Hb1.
    - destruct (IH nx ny w1) as (cx' & cy' & w' & E & D & J); [apply D1| |done|].
      { intros j Hj. apply Hidx. by apply list_elem_of_further. }
      exists cx', cy', w'. split; [apply bind_Some; by exists tt, w1|].
      split; [by eapply digs_trans|]. intros Hs Hg.
      destruct (J (Hb1 Hs Hg) Hg) as [Hb' J']. split; [done|].
      eapply joined_trans; [|exact J'].
      eapply joined_dug; [apply D|]. apply J1; [done|by apply Hb1]. }
  destruct (i mod 2 =? 0).
  - apply (Hrest _ targetX cy); [apply hCorridor_draws|].
    rewrite !inBounds_spec. lia.
  - apply (Hrest _ cx targetY); [apply vCorridor_draws|].
    rewrite !inBounds_spec. lia.
Qed.

Lemma createZigzagCorridor_draws g x1 y1 x2 y2 :
  drawsCorridor g (createZigzagCorridor g x1 y1 x2 y2) (x1, y1) (x2, y2).
Proof.
  unfold createZigzagCorridor, randomInt.
  assert (Hassoc : forall (k : Z -> M World unit),
            ((random ≫= (fun r => mret (Qfloor (r * inject_Z 3)))) ≫= k)
            = (random ≫= (fun r => k (Qfloor (r * inject_Z 3))))) by reflexivity.
  rewrite Hassoc. apply drawsCorridor_random. intros r.
  set (segments := Qfloor (r * inject_Z 3) + 2).
  assert (Htail : forall cx cy,
            (inBounds g x1 y1 = true -> inBounds g x2 y2 = true -> inBounds g cx cy = true) ->
            drawsCorridor g (onMap (hCorridor g cx x2 cy);; onMap (vCorridor g cy y2 x2))
              (cx, cy) (x2, y2)).
  { intros cx cy _.
    apply (drawsCorridor_seq g _ _ (cx, cy) (x2, cy) (x2, y2));
      [apply hCorridor_draws | apply vCorridor_draws |].
    simpl. rewrite !inBounds_spec. lia. }
  intros w Hwf. destruct (seqZ 0 segments) as [|i0 idxs] eqn:Hseq.
  - destruct (Htail x1 y1 (fun H _ => H) w Hwf) as (w' & E & D & J).
    exists w'. split; [|done]. apply bind_Some. exists (x1, y1), w. by split.
  - destruct (zigzagLoop_draws g segments x2 y2 (i0 :: idxs) x1 y1 w Hwf)
      as (cx & cy & w1 & E1 & D1 & J1); [|done|].
    { intros i Hin. rewrite <- Hseq in Hin. apply elem_of_seqZ in Hin. lia. }
    destruct (Htail cx cy (fun H1 H2 => proj1 (J1 H1 H2)) w1 (proj1 D1))
      as (w' & E & D & J).
    exists w'. split; [apply bind_Some; by exists (cx, cy), w1|].
    split; [by eapply digs_trans|]. intros Hs Hg. destruct (J1 Hs Hg) as [Hb Hj].
    eapply joined_trans; [|by apply J]. eapply joined_dug; [apply D|done].
Qed.

Lemma createCorridor_draws g roomA roomB :
  drawsCorridor g (createCorridor g roomA roomB)
    (coords (room_center roomA)) (coords (room_center roomB)).
Proof.
  unfold createCorridor. apply drawsCorridor_random. intros r.
  destruct (Qltb r (1 # 2)); [apply createElbowCorridor_draws|apply createZigzagCorridor_draws].
Qed.

(** X4: on a map of the generator's size [createCorridor] always returns,
    whichever of the two shapes the random source picks; it leaves every
    tile that is not wall as it is and turns walls only into floor; and
    when the centres of the two rooms lie on the map, the centre of the
    first is passable afterwards and a chain of orthogonal steps over
    passable tiles leads from it to the centre of the second. *)
Theorem createCorridor_joins_the_centres g roomA roomB w :
  wfGrid (cg_width g) (cg_height g) (w_map w) ->
  exists w',
    createCorridor g roomA roomB w = Some (tt, w') /\
    wfGrid (cg_width g) (cg_height g) (w_map w') /\
    (forall x y t, tileAt (w_map w) x y = Some t -> char t <> TILE_TYPES.WALL ->
                   tileAt (w_map w') x y = Some t) /\
    (forall x y t, tileAt (w_map w) x y = Some t -> char t = TILE_TYPES.WALL ->
                   tileAt (w_map w') x y = Some t \/
                   tileAt (w_map w') x y = Some (set_char TILE_TYPES.FLOOR t)) /\
    (inBounds g (px (room_center roomA)) (py (room_center roomA)) = true ->
     inBounds g (px (room_center roomB)) (py (room_center roomB)) = true ->
     passable (w_map w') (coords (room_center roomA)) /\
     reachable (w_map w') (coords (room_center roomA)) (coords (room_center roomB))).
Proof.
  intros Hwf. destruct (createCorridor_draws g roomA roomB w Hwf) as (w' & E & D & J).
  destruct D as (Hwf' & Hd & _). destruct (dugFrom_tiles _ _ Hd) as [Hkeep Hdig].
  exists w'. split; [done|]. split; [done|]. split; [done|]. split; [done|].
  exact J.
Qed.

Lemma createCorridor_joins_the_centres_witness :
  exists w',
    createCorridor (mkCorridorGenerator MAP.WIDTH MAP.HEIGHT)
      (mkRoom 2 2 5 5 false (mkPoint 4 4)) (mkRoom 60 30 6 4 false (mkPoint 63 32))
      twoRoomsWorld = Some (tt, w') /\
    reachable (w_map w') (4, 4) (63, 32).
Proof.
  destruct (createCorridor_joins_the_centres (mkCorridorGenerator MAP.WIDTH MAP.HEIGHT)
              (mkRoom 2 2 5 5 false (mkPoint 4 4)) (mkRoom 60 30 6 4 false (mkPoint 63 32))
              twoRoomsWorld)
    as (w' & E & _ & _ & _ & J).
  - apply wfGridb_spec. vm_compute. reflexivity.
  - exists w'. split; [exact E|]. apply J; reflexivity.
Defined.

Lemma connectRooms_two g a b w :
  connectRooms g [a; b] w = (createCorridor g a b;; mret tt) w.
Proof.
  cbv -[createCorridor calculateDistance].
  destruct (createCorridor g a b w) as [[[] w']|]; reflexivity.
Qed.

(** *** The passes of [connectRooms] *)

Lemma considerRoom_grows rooms conn0 i j s :
  searchGrows rooms conn0 s -> (i < length rooms)%nat -> (j < length rooms)%nat ->
  exists s', considerRoom rooms i j s = Some s' /\ searchGrows rooms conn0 s' /\
             (minDistance s' = None -> minDistance s = None /\ j ∈ conn0).
Proof.
  intros (Hv & extra & Hc & Hn) Hi Hj. unfold considerRoom.
  case_bool_decide as Hin.
  - exists s. split; [done|]. split; [by split; [|exists extra]|].
    intros Hnone. split; [done|]. apply Hn in Hnone as ->. by rewrite Hc, app_nil_r in Hin.
  - destruct (lookup_lt_is_Some_2 rooms i Hi) as [ri ->].
    destruct (lookup_lt_is_Some_2 rooms j Hj) as [rj ->]. cbn [mbind option_bind].
    destruct (match minDistance s with
              | Some d => calculateDistance (room_center ri) (room_center rj) <? d
              | None => true
              end) eqn:Hcloser.
    + eexists. split; [reflexivity|]. split; [|done]. split.
      * intros k. simpl. rewrite elem_of_app, list_elem_of_singleton.
        intros [Hk| ->]; [by apply Hv|done].
      * exists (extra ++ [j]). simpl. split; [by rewrite Hc, app_assoc|].
        split; [done|]. intros E. by destruct extra.
    + exists s. split; [done|]. split; [by split; [|exists extra]|].
      intros Hnone. by rewrite Hnone in Hcloser.
Qed.

Lemma scanCandidates_grows rooms conn0 i js s :
  searchGrows rooms conn0 s -> (i < length rooms)%nat ->
  (forall j, j ∈ js -> (j < length rooms)%nat) ->
  exists s', scanCandidates rooms i js s = Some s' /\ searchGrows rooms conn0 s' /\
             (minDistance s' = None ->
              minDistance s = None /\ forall j, j ∈ js -> j ∈ conn0).
Proof.
  revert s. induction js as [|j js IH]; intros s Hg Hi Hjs; simpl.
  - exists s. split; [done|]. split; [done|]. intros H. split; [done|].
    by intros j ?%elem_of_nil.
  - destruct (considerRoom_grows rooms conn0 i j s Hg Hi) as (s1 & -> & Hg1 & Hj1).
    { apply Hjs, list_elem_of_here. }
    cbn [mbind option_bind].
    destruct (IH s1 Hg1 Hi) as (s' & E & Hg' & Hjs').
    { intros k Hk. by apply Hjs, list_elem_of_further. }
    exists s'. split; [done|]. split; [done|].
    intros Hnone. destruct (Hjs' Hnone) as [Hn1 Hall]. destruct (Hj1 Hn1) as [Hn0 Hj0].
    split; [done|]. intros k [->|Hk]%elem_of_cons; [done|by apply Hall].
Qed.

Lemma scanConnected_grows steps rooms conn0 k s :
  searchGrows rooms conn0 s ->
  exists s', scanConnected steps rooms k s = Some s' /\ searchGrows rooms conn0 s' /\
             (minDistance s' = None -> minDistance s = None).
Proof.
  revert k s. induction steps as [|steps IH]; intros k s Hg; simpl.
  - by exists s.
  - destruct (connected s !! k) as [i|] eqn:Hk; [|by exists s].
    destruct (scanCandidates_grows rooms conn0 i (seq 0 (length rooms)) s Hg)
      as (s1 & -> & Hg1 & Hn1).
    { destruct Hg as [Hv _]. apply Hv. by eapply list_elem_of_lookup_2. }
    { intros j Hj%elem_of_seq. lia. }
    cbn [mbind option_bind]. destruct (IH (S k) s1 Hg1) as (s' & E & Hg' & Hn').
    exists s'. split; [done|]. split; [done|].
    intros Hnone. by apply Hn1, Hn'.
Qed.

(** A pass finds a room to add as long as one is left. *)
Lemma scanConnected_pass rooms conn :
  conn <> [] -> (forall i, i ∈ conn -> (i < length rooms)%nat) ->
  (length conn < length rooms)%nat ->
  exists s, scanConnected (length rooms) rooms 0 (mkRoomSearch conn None None) = Some s /\
            validSearch rooms s /\ (length conn < length (connected s))%nat.
Proof.
  intros Hne Hvalid Hlen.
  assert (Hg0 : searchGrows rooms conn (mkRoomSearch conn None None)).
  { split; [exact Hvalid|]. exists []. by rewrite app_nil_r. }
  destruct (length rooms) as [|n] eqn:Hn; [lia|]. cbn [scanConnected connected].
  destruct conn as [|i conn']; [done|]. cbn [lookup list_lookup].
  destruct (scanCandidates_grows rooms (i :: conn') i (seq 0 (length rooms)) _ Hg0)
    as (s1 & E1 & Hg1 & Hn1).
  { rewrite Hn. apply Hvalid, list_elem_of_here. }
  { intros j Hj%elem_of_seq. lia. }
  rewrite E1. cbn [mbind option_bind].
  destruct (scanConnected_grows n rooms (i :: conn') 1 s1 Hg1) as (s' & E & Hg' & Hn').
  exists s'. split; [done|]. destruct Hg' as (Hv' & extra & Hc & Hiff).
  split; [done|]. rewrite Hc, length_app.
  destruct extra as [|e extra]; [|simpl; lia]. exfalso.
  assert (Hnone : minDistance s' = None) by by apply Hiff.
  destruct (Hn1 (Hn' Hnone)) as [_ Hall].
  assert (Hsub : seq 0 (length rooms) ⊆+ i :: conn').
  { apply NoDup_submseteq; [apply NoDup_seq|]. intros j Hj. by apply Hall. }
  apply submseteq_length in Hsub. rewrite length_seq in Hsub. lia.
Qed.

Lemma connectLoop_digs passes g rooms conn w :
  wfGrid (cg_width g) (cg_height g) (w_map w) ->
  conn <> [] -> (forall i, i ∈ conn -> (i < length rooms)%nat) ->
  (length rooms < passes + length conn)%nat ->
  exists conn' w', connectLoop passes g rooms conn w = Some (conn', w') /\ digs g w w'.
Proof.
  revert conn w. induction passes as [|passes IH]; intros conn w Hwf Hne Hvalid Hfuel.
  - simpl. rewrite bool_decide_eq_false_2 by lia. exists conn, w.
    split; [done|by apply digs_refl].
  - cbn [connectLoop]. case_bool_decide as Hlen.
    2: { exists conn, w. split; [done|by apply digs_refl]. }
    destruct (scanConnected_pass rooms conn Hne Hvalid Hlen) as (s & -> & Hv & Hgrow).
    assert (Hcorr : exists w1, match pair s with
                               | Some (roomA, roomB) => createCorridor g roomA roomB
                               | None => mret tt
                               end w = Some (tt, w1) /\ digs g w w1).
    { destruct (pair s) as [[roomA roomB]|].
      - destruct (createCorridor_draws g roomA roomB w Hwf) as (w1 & E & D & _).
        by exists w1.
      - exists w. split; [done|by apply digs_refl]. }
    destruct Hcorr as (w1 & E1 & D1).
    destruct (IH (connected s) w1) as (conn' & w' & E & D); [apply D1| |done|lia|].
    { intros E0. rewrite E0 in Hgrow. simpl in Hgrow. lia. }
    exists conn', w'. split; [|by eapply digs_trans].
    apply bind_Some. by exists tt, w1.
Qed.

Lemma randomInt_range n w :
  unitDraws w -> 0 < n ->
  exists i, randomInt n w = Some (i, mkWorld (w_map w) (w_rnd w) (S (w_pos w)) (w_log w)) /\
            0 <= i < n.
Proof.
  intros Hu Hn. eexists. split; [reflexivity|].
  destruct (Hu (w_pos w)) as [H0 H1].
  assert (Hq : (0 < inject_Z n)%Q) by (unfold Qlt; simpl; lia).
  split.
  - rewrite <- (Qfloor_Z 0). apply Qfloor_resp_le. change (inject_Z 0) with 0%Q. nra.
  - assert (Hlt : (w_rnd w (w_pos w) * inject_Z n < inject_Z n)%Q) by nra.
    pose proof (Qfloor_le (w_rnd w (w_pos w) * inject_Z n)) as Hfl.
    rewrite Zlt_Qlt. eapply Qle_lt_trans; [exact Hfl|exact Hlt].
Qed.

Lemma extraCorridor_digs g rooms w :
  wfGrid (cg_width g) (cg_height g) (w_map w) -> unitDraws w -> rooms <> [] ->
  exists w', extraCorridor g rooms w = Some (tt, w') /\ digs g w w'.
Proof.
  intros Hwf Hu Hne. unfold extraCorridor.
  assert (Hlen : 0 < Z.of_nat (length rooms)) by (destruct rooms; [done|simpl; lia]).
  destruct (randomInt_range _ w Hu Hlen) as (ia & Ea & Ha).
  set (w1 := mkWorld _ _ _ _) in Ea.
  destruct (randomInt_range _ w1 Hu Hlen) as (ib & Eb & Hb).
  set (w2 := mkWorld _ _ _ _) in Eb.
  assert (Hra : is_Some (nthZ rooms ia)).
  { unfold nthZ. destruct (Z.leb_spec 0 ia); [|lia]. apply lookup_lt_is_Some_2. lia. }
  assert (Hrb : is_Some (nthZ rooms ib)).
  { unfold nthZ. destruct (Z.leb_spec 0 ib); [|lia]. apply lookup_lt_is_Some_2. lia. }
  destruct Hra as [roomA HA], Hrb as [roomB HB].
  assert (Hend : exists w', (if ia =? ib then mret tt else createCorridor g roomA roomB) w2
                            = Some (tt, w') /\ digs g w w').
  { destruct (ia =? ib).
    - exists w2. split; [done|]. split; [done|]. split; [apply dugFrom_refl|done].
    - destruct (createCorridor_draws g roomA roomB w2 Hwf) as (w' & E & D & _).
      exists w'. split; [done|]. by eapply digs_same; [..|exact D]. }
  destruct Hend as (w' & E & D). exists w'. split; [|done].
  apply bind_Some. exists ia, w1. split; [done|].
  apply bind_Some. exists ib, w2. split; [done|]. by rewrite HA, HB.
Qed.

Lemma digs_unitDraws g w w' : digs g w w' -> unitDraws w -> unitDraws w'.
Proof. intros (_ & _ & Hr & _) Hu n. rewrite Hr. apply Hu. Qed.

Lemma extraCorridors_digs g rooms (idxs : list Z) w :
  wfGrid (cg_width g) (cg_height g) (w_map w) -> unitDraws w -> rooms <> [] ->
  exists w', forEach idxs (fun _ => extraCorridor g rooms) w = Some (tt, w') /\ digs g w w'.
Proof.
  revert w. induction idxs as [|i idxs IH]; intros w Hwf Hu Hne.
  - exists w. split; [done|by apply digs_refl].
  - destruct (extraCorridor_digs g rooms w Hwf Hu Hne) as (w1 & E1 & D1).
    destruct (IH w1) as (w' & E & D); [apply D1|by eapply digs_unitDraws|done|].
    exists w'. split; [|by eapply digs_trans].
    apply forEach_cons_Some. by exists w1.
Qed.

(** X5: on a map of the generator's size and with a random source that
    draws from [0, 1), [connectRooms] returns for every room list: each
    pass of its [while] loop adds a room to the connected set, so the loop
    ends.  It leaves every tile that is not wall as it is, turns walls only
    into floor, and writes nothing to the console. *)
Theorem connectRooms_returns_and_only_digs g rooms w :
  wfGrid (cg_width g) (cg_height g) (w_map w) -> unitDraws w ->
  exists w',
    connectRooms g rooms w = Some (tt, w') /\
    wfGrid (cg_width g) (cg_height g) (w_map w') /\
    (forall x y t, tileAt (w_map w) x y = Some t -> char t <> TILE_TYPES.WALL ->
                   tileAt (w_map w') x y = Some t) /\
    (forall x y t, tileAt (w_map w) x y = Some t -> char t = TILE_TYPES.WALL ->
                   tileAt (w_map w') x y = Some t \/
                   tileAt (w_map w') x y = Some (set_char TILE_TYPES.FLOOR t)) /\
    w_log w' = w_log w.
Proof.
  intros Hwf Hu.
  assert (Hrun : exists w', connectRooms g rooms w = Some (tt, w') /\ digs g w w').
  { unfold connectRooms. case_bool_decide as Hfew.
    - exists w. split; [done|by apply digs_refl].
    - destruct (connectLoop_digs (length rooms) g rooms [0%nat] w Hwf)
        as (conn & w1 & E1 & D1); [done| |simpl; lia|].
      { intros i ->%list_elem_of_singleton. lia. }
      destruct (extraCorridors_digs g rooms (seqZ 0 (Z.of_nat (length rooms) / 4)) w1)
        as (w' & E & D); [apply D1|by eapply digs_unitDraws| |].
      { intros ->. simpl in Hfew. lia. }
      exists w'. split; [|by eapply digs_trans].
      apply bind_Some. by exists conn, w1. }
  destruct Hrun as (w' & E & Hwf' & Hd & _ & Hl).
  destruct (dugFrom_tiles _ _ Hd) as [Hkeep Hdig].
  by exists w'.
Qed.

Lemma connectRooms_returns_and_only_digs_witness :
  exists w',
    connectRooms (mkCorridorGenerator MAP.WIDTH MAP.HEIGHT) strandedRooms freshWorld
      = Some (tt, w') /\
    w_log w' = [].
Proof.
  destruct (connectRooms_returns_and_only_digs
              (mkCorridorGenerator MAP.WIDTH MAP.HEIGHT) strandedRooms freshWorld)
    as (w' & E & _ & _ & _ & Hl).
  - apply wfGridb_spec. vm_compute. reflexivity.
  - intros n. unfold freshWorld, w_rnd.
    do 15 (destruct n as [|n]; [split; reflexivity || (by unfold Qle, Qlt; simpl; lia)|]).
    destruct n; split; by unfold Qle, Qlt.
  - exists w'. split; [exact E|]. rewrite Hl. reflexivity.
Defined.

(** X6: with exactly two rooms whose centres lie on the map, [connectRooms]
    joins them: afterwards a chain of orthogonal steps over passable tiles
    leads from the centre of the first room to the centre of the second. *)
Theorem connectRooms_joins_two_rooms g a b w :
  wfGrid (cg_width g) (cg_height g) (w_map w) ->
  inBounds g (px (room_center a)) (py (room_center a)) = true ->
  inBounds g (px (room_center b)) (py (room_center b)) = true ->
  exists w',
    connectRooms g [a; b] w = Some (tt, w') /\
    passable (w_map w') (coords (room_center a)) /\
    reachable (w_map w') (coords (room_center a)) (coords (room_center b)).
Proof.
  intros Hwf Ha Hb. destruct (createCorridor_draws g a b w Hwf) as (w' & E & D & J).
  exists w'. split; [|by apply J].
  rewrite connectRooms_two. apply bind_Some. by exists tt, w'.
Qed.

Lemma connectRooms_joins_two_rooms_witness :
  exists w',
    connectRooms (mkCorridorGenerator MAP.WIDTH MAP.HEIGHT) twoRooms twoRoomsWorld
      = Some (tt, w') /\
    reachable (w_map w') (4, 4) (63, 32).
Proof.
  destruct (connectRooms_joins_two_rooms (mkCorridorGenerator MAP.WIDTH MAP.HEIGHT)
              (mkRoom 2 2 5 5 false (mkPoint 4 4)) (mkRoom 60 30 6 4 false (mkPoint 63 32))
              twoRoomsWorld)
    as (w' & E & _ & J).
  - apply wfGridb_spec. vm_compute. reflexivity.
  - reflexivity.
  - reflexivity.
  - exists w'. split; [exact E|exact J].
Defined.

(** ** Room generation: what is carved *)

Lemma carveRoomCell_keeps room x y w w' :
  carveRoomCell room x y w = Some (tt, w') ->
  w_rnd w' = w_rnd w /\ w_log w' = w_log w.
Proof.
  unfold carveRoomCell. rewrite bind_Some.
  intros ([] & w1 & H1 & H2).
  apply onMap_Some in H1 as (m1 & H1 & ->).
  destruct (room_isSpecial room).
  - apply bind_Some in H2 as (ft & w2 & Hft & H2).
    injection Hft as <- <-.
    apply onMap_Some in H2 as (m2 & H2 & ->). done.
  - by injection H2 as <-.
Qed.

Lemma carveCells_keeps room cells w w' :
  forEach cells (fun c => carveRoomCell room c.1 c.2) w = Some (tt, w') ->
  w_rnd w' = w_rnd w /\ w_log w' = w_log w.
Proof.
  revert w. induction cells as [|[x y] cells IH]; intros w.
  - by intros [= <-].
  - intros (w1 & H1 & H2)%forEach_cons_Some.
    apply carveRoomCell_keeps in H1 as [Hr1 Hl1].
    apply IH in H2 as [Hr2 Hl2]. split; congruence.
Qed.

Lemma generateRoom_keeps rg floor w room w' :
  generateRoom rg floor w = Some (room, w') ->
  w_map w' = w_map w /\ w_rnd w' = w_rnd w /\ w_log w' = w_log w.
Proof.
  cbv beta iota zeta delta
    [generateRoom randomInt random mbind M_bind bind mret M_ret ret].
  by intros [= <- <-].
Qed.

(** The loop of [generateRooms] for [attempts] more turns. *)
Lemma generateRoomsLoop_carves attempts rg floor rooms w :
  wfGrid (rg_width rg) (rg_height rg) (w_map w) ->
  exists added w',
    generateRoomsLoop attempts rg floor rooms w = Some (rooms ++ added, w') /\
    wfGrid (rg_width rg) (rg_height rg) (w_map w') /\
    Forall (roomFits rg) added /\
    (forall p, floorAt (w_map w) p -> floorAt (w_map w') p) /\
    (forall p, inRooms added p -> floorAt (w_map w') p) /\
    (forall p, ~ inRooms added p -> tileAt (w_map w') p.1 p.2 = tileAt (w_map w) p.1 p.2) /\
    (length added <= attempts)%nat /\
    (added <> [] -> Z.of_nat (length (rooms ++ added)) <= maxRooms rg) /\
    w_rnd w' = w_rnd w /\ w_log w' = w_log w.
Proof.
  revert rooms w. induction attempts as [|n IH]; intros rooms w Hwf.
  { exists [], w. rewrite app_nil_r. split; [done|]. split; [done|].
    split; [done|]. split; [done|]. split; [by intros p (a & ?%elem_of_nil & _)|]. done. }
  cbn [generateRoomsLoop].
  destruct (Z.leb_spec (maxRooms rg) (Z.of_nat (length rooms))) as [Hfull|Hroom].
  { exists [], w. rewrite app_nil_r. split; [done|]. split; [done|].
    split; [done|]. split; [done|]. split; [by intros p (a & ?%elem_of_nil & _)|].
    split; [done|]. split; [simpl; lia|done]. }
  destruct (generateRoom_Some rg floor w) as (room & w1 & Hgen & Hm1).
  pose proof (generateRoom_keeps _ _ _ _ _ Hgen) as (_ & Hr1 & Hl1).
  destruct (canPlaceRoom_total rg room (w_map w1)) as [ok Hok]; [by rewrite Hm1|].
  pose proof (canPlaceRoom_Some _ _ _ _ _ Hok) as [_ Hiff].
  assert (Hok' : onMap (canPlaceRoom rg room) w1 = Some (ok, w1)).
  { apply onMap_Some. exists (w_map w1). split; [done|]. by destruct w1. }
  destruct ok.
  - destruct (proj1 Hiff eq_refl) as [Hfits Hwall].
    destruct (carveCells_total room
                (rect (room_x room) (room_y room) (room_width room) (room_height room))
                w1) as [w2 Hcarve].
    { intros [x y] Hc%elem_of_rect. destruct (Hwall (x, y)) as (t & Ht & _).
      - unfold inMargin. simpl. lia.
      - by eexists. }
    pose proof (carveCells_Some _ _ _ _ Hcarve) as (Hs & Hfl & Hoth).
    pose proof (carveCells_keeps _ _ _ _ Hcarve) as (Hr2 & Hl2).
    destruct (IH (rooms ++ [room]) w2)
      as (added & w' & Hloop & Hwf' & Hfit & Hmono & Hin & Hout & Hlen & Hmax & Hr & Hl).
    { eapply wfGrid_shape; [exact Hs|]. by rewrite Hm1. }
    assert (Hmono2 : forall p, floorAt (w_map w) p -> floorAt (w_map w2) p).
    { intros p Hp.
      destruct (decide (p ∈ rect (room_x room) (room_y room)
                                 (room_width room) (room_height room))) as [Hc|Hc].
      - by apply Hfl.
      - unfold floorAt. rewrite (Hoth p Hc), Hm1. exact Hp. }
    exists (room :: added), w'.
    split.
    { apply bind_Some. exists room, w1. split; [done|].
      apply bind_Some. exists true, w1. split; [done|].
      apply bind_Some. exists tt, w2. split; [done|].
      by rewrite <- app_assoc in Hloop. }
    split; [done|]. split; [by apply Forall_cons|].
    split; [by intros p Hp; apply Hmono, Hmono2|].
    split; [|split; [|split; [|split; [|split]]]].
    + intros p (a & [->|Ha]%elem_of_cons & Hp).
      * apply Hmono. apply (Hfl p). destruct p. by apply elem_of_rect.
      * apply Hin. by exists a.
    + intros p Hno. rewrite Hout.
      * rewrite Hoth; [by rewrite Hm1|]. intros Hc. apply Hno.
        exists room. split; [apply list_elem_of_here|]. destruct p. by apply elem_of_rect in Hc.
      * intros (a & Ha & Hp). apply Hno. exists a. split; [by apply list_elem_of_further|done].
    + simpl. lia.
    + intros _. destruct added as [|a added'].
      * rewrite length_app. simpl. lia.
      * rewrite <- app_assoc in Hmax. apply Hmax. done.
    + congruence.
    + congruence.
  - destruct (IH rooms w1)
      as (added & w' & Hloop & Hwf' & Hfit & Hmono & Hin & Hout & Hlen & Hmax & Hr & Hl);
      [by rewrite Hm1|].
    exists added, w'. split.
    { apply bind_Some. exists room, w1. split; [done|].
      apply bind_Some. by exists false, w1. }
    split; [done|]. split; [done|].
    split; [by intros p Hp; apply Hmono; rewrite Hm1|]. split; [done|].
    split; [by intros p Hp; rewrite Hout, Hm1|].
    split; [lia|]. split; [done|]. split; congruence.
Qed.

(** X7: on a map of the generator's size [generateRooms] returns, for
    every floor and every random source.  The rooms it returns lie inside
    the map with a border of one tile to spare, there are at most as many
    as attempts and at most [maxRooms]; every cell of a returned room is a
    floor tile afterwards and every tile outside the returned rooms is
    untouched; nothing is written to the console. *)
Theorem generateRooms_carves_exactly_the_rooms rg floor w :
  wfGrid (rg_width rg) (rg_height rg) (w_map w) ->
  exists rooms w',
    generateRooms rg floor w = Some (rooms, adjustRoomParams rg floor, w') /\
    wfGrid (rg_width rg) (rg_height rg) (w_map w') /\
    (forall room, room ∈ rooms ->
       1 <= room_x room /\ 1 <= room_y room /\
       room_x room + room_width room < rg_width rg - 1 /\
       room_y room + room_height room < rg_height rg - 1) /\
    Z.of_nat (length rooms) <= Z.max 0 (calculateRoomAttempts floor) /\
    Z.of_nat (length rooms) <= Z.max 0 (maxRooms (adjustRoomParams rg floor)) /\
    (forall p, inRooms rooms p -> floorAt (w_map w') p) /\
    (forall p, ~ inRooms rooms p ->
               tileAt (w_map w') p.1 p.2 = tileAt (w_map w) p.1 p.2) /\
    w_log w' = w_log w.
Proof.
  intros Hwf. unfold generateRooms.
  set (rg' := adjustRoomParams rg floor).
  assert (Hdims : rg_width rg' = rg_width rg /\ rg_height rg' = rg_height rg).
  { unfold rg', adjustRoomParams. by destruct (5 <? floor), (10 <? floor). }
  destruct Hdims as [Hw' Hh'].
  destruct (generateRoomsLoop_carves (Z.to_nat (calculateRoomAttempts floor)) rg' floor [] w)
    as (rooms & w' & Hloop & Hwf' & Hfit & _ & Hin & Hout & Hlen & Hmax & _ & Hl).
  { by rewrite Hw', Hh'. }
  simpl in Hloop, Hmax. exists rooms, w'. split.
  { apply bind_Some. by exists rooms, w'. }
  rewrite Hw', Hh' in Hwf'. split; [done|]. split.
  { intros room Hroom. rewrite Forall_forall in Hfit.
    specialize (Hfit room Hroom). unfold roomFits in Hfit. by rewrite Hw', Hh' in Hfit. }
  split.
  { lia. }
  split.
  { destruct rooms as [|r rooms']; [simpl; lia|].
    assert (r :: rooms' <> []) as Hne by done. specialize (Hmax Hne). lia. }
  done.
Qed.

Lemma generateRooms_carves_exactly_the_rooms_witness :
  exists rooms w',
    generateRooms (newRoomGenerator MAP.WIDTH MAP.HEIGHT) 1 freshWorld
      = Some (rooms, adjustRoomParams (newRoomGenerator MAP.WIDTH MAP.HEIGHT) 1, w') /\
    forall p, inRooms rooms p -> floorAt (w_map w') p.
Proof.
  destruct (generateRooms_carves_exactly_the_rooms
              (newRoomGenerator MAP.WIDTH MAP.HEIGHT) 1 freshWorld)
    as (rooms & w' & E & _ & _ & _ & _ & Hin & _).
  - apply wfGridb_spec. vm_compute. reflexivity.
  - exists rooms, w'. split; [exact E|exact Hin].
Defined.

(** ** Room generation: the sizes of the rooms *)

Lemma randomInt_Some n w i w' :
  randomInt n w = Some (i, w') ->
  i = Qfloor (w_rnd w (w_pos w) * inject_Z n) /\
  w' = mkWorld (w_map w) (w_rnd w) (S (w_pos w)) (w_log w).
Proof. by intros [= <- <-]. Qed.

Lemma generateRoom_sized rg floor w room w' :
  unitDraws w -> minRoomSize rg <= maxRoomSize rg ->
  generateRoom rg floor w = Some (room, w') -> roomSized rg room.
Proof.
  intros Hu Hmm. unfold generateRoom.
  intros (w0 & w1 & H0 & H)%bind_Some.
  apply bind_Some in H as (h0 & w2 & H1 & H).
  apply bind_Some in H as (x0 & w3 & H2 & H).
  apply bind_Some in H as (y0 & w4 & H3 & H).
  apply bind_Some in H as (r & w5 & H4 & [= <- _]).
  assert (Hn : 0 < maxRoomSize rg - minRoomSize rg + 1) by lia.
  destruct (randomInt_range _ w Hu Hn) as (i & Ei & Hi).
  rewrite Ei in H0. injection H0 as <- <-.
  assert (Hu1 : unitDraws (mkWorld (w_map w) (w_rnd w) (S (w_pos w)) (w_log w))) by exact Hu.
  destruct (randomInt_range _ _ Hu1 Hn) as (j & Ej & Hj).
  rewrite Ej in H1. injection H1 as <- _.
  unfold roomSized. simpl. split; [lia|]. split; [lia|done].
Qed.

Lemma generateRoomsLoop_sized attempts rg floor rooms w rooms' w' :
  unitDraws w -> minRoomSize rg <= maxRoomSize rg ->
  Forall (roomSized rg) rooms ->
  generateRoomsLoop attempts rg floor rooms w = Some (rooms', w') ->
  Forall (roomSized rg) rooms'.
Proof.
  intros Hu Hmm. revert rooms w Hu.
  induction attempts as [|n IH]; intros rooms w Hu Hall; cbn [generateRoomsLoop].
  { by intros [= <- _]. }
  destruct (maxRooms rg <=? Z.of_nat (length rooms)); [by intros [= <- _]|].
  intros (room & w1 & Hgen & H)%bind_Some.
  pose proof (generateRoom_sized _ _ _ _ _ Hu Hmm Hgen) as Hsz.
  pose proof (generateRoom_keeps _ _ _ _ _ Hgen) as (_ & Hr1 & _).
  apply bind_Some in H as (ok & w2 & Hok & H).
  apply onMap_Some in Hok as (m2 & Hok & ->).
  destruct ok.
  - apply bind_Some in H as ([] & w3 & Hcarve & H).
    apply carveCells_keeps in Hcarve as [Hr3 _]. simpl in Hr3.
    eapply IH; [|apply Forall_app; split; [exact Hall|by apply Forall_singleton]|exact H].
    intros k. rewrite Hr3, Hr1. apply Hu.
  - eapply IH; [|exact Hall|exact H]. intros k. simpl. rewrite Hr1. apply Hu.
Qed.

(** X8: with random draws in [0, 1), every room [generateRooms] returns
    has a width and a height between [minRoomSize] and the [maxRoomSize] in
    force for the floor, and its centre is a cell of the room.  The sizes
    in force are those [adjustRoomParams] sets: 9 and 18 rooms on every
    floor above 5, the floors above 10 included, whose own branch (10 and
    20) is never reached. *)
Theorem generateRooms_room_sizes rg floor w rooms rg' w' :
  unitDraws w -> 1 <= minRoomSize rg ->
  minRoomSize rg <= maxRoomSize (adjustRoomParams rg floor) ->
  generateRooms rg floor w = Some (rooms, rg', w') ->
  maxRoomSize rg' = (if 5 <? floor then 9 else maxRoomSize rg) /\
  maxRooms rg' = (if 5 <? floor then 18 else maxRooms rg) /\
  forall room, room ∈ rooms ->
    minRoomSize rg <= room_width room <= maxRoomSize rg' /\
    minRoomSize rg <= room_height room <= maxRoomSize rg' /\
    inRoom room (coords (room_center room)).
Proof.
  intros Hu Hmin Hmm. unfold generateRooms.
  intros (rs & w1 & Hloop & [= <- <- <-])%bind_Some.
  set (rg' := adjustRoomParams rg floor) in *.
  assert (Hadj : minRoomSize rg' = minRoomSize rg /\
                 maxRoomSize rg' = (if 5 <? floor then 9 else maxRoomSize rg) /\
                 maxRooms rg' = (if 5 <? floor then 18 else maxRooms rg)).
  { unfold rg', adjustRoomParams.
    destruct (Z.ltb_spec 5 floor); [done|].
    destruct (Z.ltb_spec 10 floor); [lia|done]. }
  destruct Hadj as (Hmin' & Hmax' & Hrooms').
  split; [done|]. split; [done|].
  assert (Hle : minRoomSize rg' <= maxRoomSize rg') by lia.
  pose proof (generateRoomsLoop_sized _ _ _ _ _ _ _ Hu Hle (Forall_nil_2 _) Hloop) as Hall.
  intros room Hroom. rewrite Forall_forall in Hall.
  destruct (Hall room Hroom) as (Hw & Hh & Hc).
  rewrite Hmin' in Hw, Hh. split; [lia|]. split; [lia|].
  rewrite Hc. unfold inRoom, coords. simpl.
  pose proof (Z.div_pos (room_width room) 2). pose proof (Z.div_pos (room_height room) 2).
  pose proof (Z.div_lt (room_width room) 2). pose proof (Z.div_lt (room_height room) 2).
  lia.
Qed.

Lemma generateRooms_room_sizes_witness :
  maxRoomSize (newRoomGenerator MAP.WIDTH MAP.HEIGHT) = 8 /\
  maxRooms (newRoomGenerator MAP.WIDTH MAP.HEIGHT) = 15 /\
  forall room, room ∈ strandedRooms ->
    3 <= room_width room <= 8 /\ 3 <= room_height room <= 8 /\
    inRoom room (coords (room_center room)).
Proof.
  refine (generateRooms_room_sizes (newRoomGenerator MAP.WIDTH MAP.HEIGHT) 1
            freshWorld strandedRooms (newRoomGenerator MAP.WIDTH MAP.HEIGHT) _ _ _ _ _).
  - intros n. unfold freshWorld, w_rnd.
    do 15 (destruct n as [|n]; [split; by unfold Qle, Qlt|]).
    destruct n; split; by unfold Qle, Qlt.
  - simpl. lia.
  - simpl. lia.
  - vm_compute. reflexivity.
Defined.

(** ** Shuffling *)

Lemma unitDraws_same w w' : w_rnd w' = w_rnd w -> unitDraws w -> unitDraws w'.
Proof. intros E H n. rewrite E. apply H. Qed.

(** The draws of the worked scenarios all lie in [0, 1). *)
Lemma strandedDraws_unit m p l :
  unitDraws (mkWorld m (fun n => nth n strandedDraws 0%Q) p l).
Proof.
  intros n. unfold w_rnd.
  do 15 (destruct n as [|n]; [split; by unfold Qle, Qlt|]).
  destruct n; split; by unfold Qle, Qlt.
Qed.

Lemma shuffleFrom_permutes {A} (i : nat) (array : list A) w :
  unitDraws w -> (i < length array \/ i = 0)%nat ->
  exists array', shuffleFrom i array w
                 = Some (array', mkWorld (w_map w) (w_rnd w) (w_pos w + i) (w_log w)) /\
                 array' ≡ₚ array.
Proof.
  revert array w. induction i as [|i IH]; intros array w Hu Hi.
  - exists array. split; [|done]. simpl. unfold mret, M_ret, ret.
    rewrite Nat.add_0_r. by destruct w.
  - assert (Hlt : (S i < length array)%nat) by lia.
    cbn [shuffleFrom].
    destruct (randomInt_range (Z.of_nat (S i) + 1) w Hu) as (j & Ej & Hj); [lia|].
    destruct (lookup_lt_is_Some_2 array (S i) Hlt) as [ai Hai].
    assert (Hjn : nthZ array j = array !! Z.to_nat j).
    { unfold nthZ. destruct (Z.leb_spec 0 j); [done|lia]. }
    destruct (lookup_lt_is_Some_2 array (Z.to_nat j)) as [aj Haj]; [lia|].
    set (w1 := mkWorld (w_map w) (w_rnd w) (S (w_pos w)) (w_log w)) in *.
    destruct (IH (<[Z.to_nat j := ai]> (<[S i := aj]> array)) w1) as (array' & E & Hp).
    + exact Hu.
    + left. rewrite !length_insert. lia.
    + exists array'. split.
      * apply bind_Some. exists j, w1. split; [done|].
        rewrite Hai, Hjn, Haj. rewrite E. do 3 f_equal. simpl. lia.
      * rewrite Hp. by apply Permutation_insert_swap.
Qed.

(** X9: with random draws in [0, 1), [shuffleArray] returns a permutation
    of its argument: no element is lost or doubled.  It draws one random
    number for each index from the last down to 1, and leaves the map and
    the console alone. *)
Theorem shuffleArray_permutes {A} (array : list A) w :
  unitDraws w ->
  exists array',
    shuffleArray array w
    = Some (array', mkWorld (w_map w) (w_rnd w) (w_pos w + (length array - 1)) (w_log w)) /\
    array' ≡ₚ array.
Proof.
  intros Hu. unfold shuffleArray. apply shuffleFrom_permutes; [done|]. lia.
Qed.

Lemma shuffleArray_permutes_witness :
  exists array',
    shuffleArray [1; 2; 3; 4] (mkWorld [] (fun n => nth n strandedDraws 0%Q) 4 [])
    = Some (array', mkWorld [] (fun n => nth n strandedDraws 0%Q) 7 []) /\
    array' ≡ₚ [1; 2; 3; 4].
Proof.
  apply (shuffleArray_permutes [1; 2; 3; 4]
           (mkWorld [] (fun n => nth n strandedDraws 0%Q) 4 [])).
  apply strandedDraws_unit.
Defined.

(** ** Doors *)

Lemma charAt_Some m x y c :
  charAt m x y = Some c <-> exists t, tileAt m x y = Some t /\ char t = c.
Proof.
  unfold charAt. destruct (tileAt m x y) as [t|]; simpl; split.
  - intros [= <-]. by exists t.
  - by intros (t' & [= <-] & <-).
  - done.
  - by intros (t' & [=] & _).
Qed.

Lemma charAt_wf w h m x y :
  wfGrid w h m -> 0 <= x < w -> 0 <= y < h -> is_Some (charAt m x y).
Proof.
  intros Hwf Hx Hy. destruct (tileAt_wf_Some _ _ _ x y Hwf Hx Hy) as [t Ht].
  unfold charAt. rewrite Ht. by eexists.
Qed.

(** The spots found at one cell of the interior. *)
Lemma doorSpotsAt_spec w h m x y :
  wfGrid w h m -> 1 <= x < w - 1 -> 1 <= y < h - 1 ->
  exists spots, doorSpotsAt m x y = Some spots /\ NoDup spots /\
    forall s, s ∈ spots <-> spot_x s = x /\ spot_y s = y /\ isDoorSpot m s.
Proof.
  intros Hwf Hx Hy.
  destruct (charAt_wf _ _ _ x y Hwf) as [c Hc]; [lia..|].
  destruct (charAt_wf _ _ _ x (y - 1) Hwf) as [up Hup]; [lia..|].
  destruct (charAt_wf _ _ _ x (y + 1) Hwf) as [down Hdown]; [lia..|].
  destruct (charAt_wf _ _ _ (x - 1) y Hwf) as [left Hleft]; [lia..|].
  destruct (charAt_wf _ _ _ (x + 1) y Hwf) as [right Hright]; [lia..|].
  unfold doorSpotsAt. rewrite Hc. cbn [mbind option_bind].
  assert (Hspot : forall s, spot_x s = x -> spot_y s = y ->
            (isDoorSpot m s <->
             c = TILE_TYPES.FLOOR /\
             ((spot_orientation s = "horizontal"%string /\
               up = TILE_TYPES.WALL /\ down = TILE_TYPES.WALL /\
               left = TILE_TYPES.FLOOR /\ right = TILE_TYPES.FLOOR) \/
              (spot_orientation s = "vertical"%string /\
               left = TILE_TYPES.WALL /\ right = TILE_TYPES.WALL /\
               up = TILE_TYPES.FLOOR /\ down = TILE_TYPES.FLOOR)))).
  { intros s Hsx Hsy. unfold isDoorSpot. cbv zeta. rewrite Hsx, Hsy.
    rewrite Hc, Hup, Hdown, Hleft, Hright. split.
    - intros [[= ->] H]. split; [done|].
      destruct H as [(? & [= ->] & [= ->] & [= ->] & [= ->])
                    |(? & [= ->] & [= ->] & [= ->] & [= ->])]; [by left|by right].
    - intros [-> H]. split; [done|].
      destruct H as [(? & -> & -> & -> & ->)|(? & -> & -> & -> & ->)];
        [by left|by right]. }
  assert (Hfw : TILE_TYPES.FLOOR <> TILE_TYPES.WALL) by done.
  destruct (Ascii.eqb_spec c TILE_TYPES.FLOOR) as [Ec|Hnf].
  2: { exists []. split; [done|]. split; [apply NoDup_nil_2|].
       intros s. split; [by intros ?%elem_of_nil|].
       intros (Hsx & Hsy & Hs). apply (Hspot s Hsx Hsy) in Hs as [? _]. done. }
  rewrite Hup, Hdown, Hleft, Hright. cbn [mbind option_bind].
  destruct (Ascii.eqb_spec up TILE_TYPES.WALL);
    destruct (Ascii.eqb_spec down TILE_TYPES.WALL);
    destruct (Ascii.eqb_spec left TILE_TYPES.FLOOR);
    destruct (Ascii.eqb_spec left TILE_TYPES.WALL); try congruence;
    destruct (Ascii.eqb_spec right TILE_TYPES.FLOOR);
    destruct (Ascii.eqb_spec right TILE_TYPES.WALL); try congruence;
    destruct (Ascii.eqb_spec up TILE_TYPES.FLOOR); try congruence;
    destruct (Ascii.eqb_spec down TILE_TYPES.FLOOR); try congruence;
    cbn [andb mbind option_bind app];
    (eexists; split; [reflexivity|];
     split; [first [apply NoDup_nil_2 | apply NoDup_singleton]|];
     intros s; rewrite ?list_elem_of_singleton, ?elem_of_nil;
     split;
     [ first [ by intros []
             | intros ->; split; [reflexivity|]; split; [reflexivity|];
               apply Hspot; [reflexivity..|]; cbn [spot_orientation]; tauto ]
     | intros (Hsx & Hsy & Hs); apply (Hspot s Hsx Hsy) in Hs as [_ Hs];
       destruct s as [sx sy so]; cbn [spot_x spot_y spot_orientation] in *;
       subst sx sy;
       destruct Hs as [(-> & ? & ? & ? & ?)|(-> & ? & ? & ? & ?)];
       first [ reflexivity | congruence ] ]).
Qed.

Lemma NoDup_rect x0 y0 w h : NoDup (rect x0 y0 w h).
Proof.
  unfold rect. generalize (NoDup_seqZ y0 h). generalize (seqZ y0 h) as ys.
  induction ys as [|y ys IH]; intros Hnd; [apply NoDup_nil_2|].
  apply NoDup_cons in Hnd as [Hy Hnd]. cbn [fmap list_fmap mjoin list_join].
  apply NoDup_app. split; [|split; [|by apply IH]].
  - apply NoDup_fmap_2_strong; [|apply NoDup_seqZ]. by intros ? ? _ _ [= ->].
  - intros [x y'] Hin Hin'.
    apply list_elem_of_fmap in Hin as (x' & [= -> ->] & _).
    apply list_elem_of_join in Hin' as (l & Hin' & Hl).
    apply list_elem_of_fmap in Hl as (y' & -> & Hy').
    apply list_elem_of_fmap in Hin' as (x'' & [= _ ->] & _). done.
Qed.

Lemma isDoorSpot_orientation m s s' :
  isDoorSpot m s -> isDoorSpot m s' -> spotAt s = spotAt s' -> s = s'.
Proof.
  destruct s as [x y o], s' as [x' y' o']. unfold spotAt, isDoorSpot. simpl.
  intros [_ H] [_ H'] [= <- <-].
  destruct H as [(-> & Hup & _)|(-> & _ & _ & Hup & _)];
    destruct H' as [(-> & Hup' & _)|(-> & _ & _ & Hup' & _)];
    first [reflexivity | rewrite Hup in Hup'; discriminate Hup'].
Qed.

Lemma doorSpots_spec w h m cells :
  wfGrid w h m -> NoDup cells ->
  (forall x y, (x, y) ∈ cells -> 1 <= x < w - 1 /\ 1 <= y < h - 1) ->
  exists spots, doorSpots cells m = Some spots /\ NoDup (spotAt <$> spots) /\
    forall s, s ∈ spots <-> spotAt s ∈ cells /\ isDoorSpot m s.
Proof.
  intros Hwf. induction cells as [|[x y] cells IH]; intros Hnd Hin.
  - exists []. split; [done|]. split; [apply NoDup_nil_2|].
    intros s. split; [by intros ?%elem_of_nil|]. by intros [?%elem_of_nil _].
  - apply NoDup_cons in Hnd as [Hxy Hnd].
    destruct (Hin x y) as [Hx Hy]; [left|].
    destruct (doorSpotsAt_spec w h m x y Hwf Hx Hy) as (here & E1 & Hnd1 & Hhere).
    destruct IH as (rest & E2 & Hnd2 & Hrest); [done|by intros; apply Hin; right|].
    exists (here ++ rest). split; [cbn [doorSpots]; by rewrite E1, E2|].
    split.
    + rewrite fmap_app. apply NoDup_app. split; [|split; [|done]].
      * apply NoDup_fmap_2_strong; [|done]. intros s s' Hs Hs' E.
        apply Hhere in Hs as (_ & _ & Hs). apply Hhere in Hs' as (_ & _ & Hs').
        by apply (isDoorSpot_orientation m).
      * intros p Hp Hp'.
        apply list_elem_of_fmap in Hp as (s & -> & Hs).
        apply list_elem_of_fmap in Hp' as (s' & E & Hs').
        apply Hhere in Hs as (Hsx & Hsy & _). apply Hrest in Hs' as [Hs' _].
        apply Hxy. rewrite <- E in Hs'. unfold spotAt in Hs'.
        by rewrite Hsx, Hsy in Hs'.
    + intros s. rewrite elem_of_app, Hhere, Hrest, elem_of_cons. unfold spotAt.
      split.
      * intros [(-> & -> & Hs)|[Hs ?]]; [by split; [left|]|by split; [right|]].
      * intros [[[= -> ->]|Hs] ?]; [by left|by right].
Qed.

(** X10: on a map of the generator's size, [findPotentialDoorLocations]
    returns exactly the door spots of the interior: floor tiles off the
    border with wall above and below and floor left and right
    ("horizontal"), or wall left and right and floor above and below
    ("vertical").  No tile is listed twice and the map is not changed. *)
Theorem findPotentialDoorLocations_finds_the_door_spots g m :
  wfGrid (fg_width g) (fg_height g) m ->
  exists spots,
    findPotentialDoorLocations g m = Some (spots, m) /\
    NoDup (spotAt <$> spots) /\
    forall s, s ∈ spots <->
      1 <= spot_x s < fg_width g - 1 /\ 1 <= spot_y s < fg_height g - 1 /\
      isDoorSpot m s.
Proof.
  intros Hwf.
  destruct (doorSpots_spec _ _ m (rect 1 1 (fg_width g - 2) (fg_height g - 2)) Hwf)
    as (spots & E & Hnd & Hin).
  - apply NoDup_rect.
  - intros x y Hxy%elem_of_rect. lia.
  - exists spots. split; [unfold findPotentialDoorLocations; by rewrite E|].
    split; [done|]. intros s. rewrite Hin. unfold spotAt. rewrite elem_of_rect.
    split; [intros [? ?]|intros (? & ? & ?)]; (split; [lia|]);
      first [done | split; [lia|done]].
Qed.

Lemma findPotentialDoorLocations_finds_the_door_spots_witness :
  exists spots,
    findPotentialDoorLocations (mkFeatureGenerator MAP.WIDTH MAP.HEIGHT) corridorMap
    = Some (spots, corridorMap) /\
    NoDup (spotAt <$> spots) /\
    forall s, s ∈ spots <->
      1 <= spot_x s < MAP.WIDTH - 1 /\ 1 <= spot_y s < MAP.HEIGHT - 1 /\
      isDoorSpot corridorMap s.
Proof.
  apply (findPotentialDoorLocations_finds_the_door_spots
           (mkFeatureGenerator MAP.WIDTH MAP.HEIGHT) corridorMap).
  apply wfGridb_spec. vm_compute. reflexivity.
Defined.

Lemma doorChar_not_floor type c : doorChar type = Some c -> c <> TILE_TYPES.FLOOR.
Proof.
  unfold doorChar. destruct (String.eqb type "regular"); [by intros [= <-]|].
  destruct (String.eqb type "locked"); [by intros [= <-]|].
  destruct (String.eqb type "secret"); [by intros [= <-]|]. done.
Qed.

Lemma stampDoors_on w h kind type spots count doors m0 m :
  doorChar type = Some kind -> wfGrid w h m0 -> doorsOn m0 m doors ->
  (forall s, s ∈ spots -> 0 <= spot_x s < w /\ 0 <= spot_y s < h) ->
  exists doors' m',
    stampDoors kind type spots count doors m = Some (doors', m') /\
    doorsOn m0 m' doors' /\
    (forall d, d ∈ doors' -> d ∈ doors \/ spotOf d ∈ spots).
Proof.
  intros Hkind Hwf. revert count doors m.
  induction spots as [|pos spots IH]; intros count doors m Hon Hin.
  { exists doors, m. split; [by destruct count|]. split; [done|]. by left. }
  destruct count as [|count].
  { exists doors, m. split; [done|]. split; [done|]. by left. }
  destruct Hon as (Hsh & Hnd & Hdoors & Hframe).
  destruct (Hin pos) as [Hx Hy]; [left|].
  destruct (tileAt_wf_Some w h m (spot_x pos) (spot_y pos)) as [t Ht];
    [by apply (wfGrid_shape _ _ m0)|done..|].
  set (d := mkDoor (spot_x pos) (spot_y pos) type (spot_orientation pos)).
  set (m1 := updTile (set_char kind) m (spot_x pos) (spot_y pos)).
  assert (Estep : stampDoors kind type (pos :: spots) (S count) doors m
                  = if Ascii.eqb (char t) TILE_TYPES.FLOOR
                    then stampDoors kind type spots count (doors ++ [d]) m1
                    else stampDoors kind type spots (S count) doors m).
  { cbn [stampDoors]. unfold mbind, M_bind, bind, readTile. rewrite Ht.
    destruct (Ascii.eqb (char t) TILE_TYPES.FLOOR); [|done].
    unfold writeTile. by rewrite Ht. }
  rewrite Estep. clear Estep.
  destruct (Ascii.eqb_spec (char t) TILE_TYPES.FLOOR) as [Hfloor|Hfloor].
  - assert (Hnew : spotAt pos ∉ doorAt <$> doors).
    { intros (d0 & E & Hd)%list_elem_of_fmap. unfold spotAt, doorAt in E.
      injection E as Ex Ey.
      destruct (Hdoors d0 Hd) as (_ & c & Hc & Hd'). rewrite <- Ex, <- Ey, Ht in Hd'.
      destruct (tileAt m0 (spot_x pos) (spot_y pos)) as [t0|]; [|done].
      injection Hd' as ->. by apply (doorChar_not_floor _ _ Hc). }
    pose proof (Hframe _ _ Hnew) as Ht0. rewrite Ht in Ht0.
    destruct (IH count (doors ++ [d]) m1) as (doors' & m' & E & Hon' & Hfrom).
    + split; [|split; [|split]].
      * unfold m1. by rewrite shape_updTile.
      * rewrite fmap_app. apply NoDup_app. split; [done|]. split.
        -- intros p Hp ->%list_elem_of_singleton. by apply Hnew.
        -- apply NoDup_singleton.
      * intros d' [Hd'| ->%list_elem_of_singleton]%elem_of_app.
        -- destruct (Hdoors d' Hd') as (Hc0 & c & Hc & Hd'').
           split; [done|]. exists c. split; [done|].
           unfold m1. rewrite tileAt_updTile by lia.
           rewrite bool_decide_eq_false_2; [done|].
           intros [Ex Ey]. apply Hnew. apply list_elem_of_fmap.
           exists d'. split; [|done]. unfold spotAt, doorAt. by rewrite Ex, Ey.
        -- simpl. split; [unfold charAt; by rewrite <- Ht0, <- Hfloor|].
           exists kind. split; [done|]. unfold m1. rewrite tileAt_updTile by lia.
           rewrite bool_decide_eq_true_2 by done. by rewrite Ht, Ht0.
      * intros x y Hxy. rewrite fmap_app in Hxy.
        apply not_elem_of_app in Hxy as [Hxy Hxy'].
        unfold m1. rewrite tileAt_updTile by lia.
        rewrite bool_decide_eq_false_2; [by apply Hframe|].
        intros [-> ->]. apply Hxy'. by left.
    + intros s Hs. apply Hin. by right.
    + exists doors', m'. split; [exact E|].
      split; [done|]. intros d' Hd'.
      destruct (Hfrom d' Hd') as [[?| ->%list_elem_of_singleton]%elem_of_app|?].
      * by left.
      * right. destruct pos; by left.
      * right. by right.
  - destruct (IH (S count) doors m) as (doors' & m' & E & Hon' & Hfrom).
    + done.
    + intros s Hs. apply Hin. by right.
    + exists doors', m'. split; [exact E|]. split; [done|].
      intros d' Hd'. destruct (Hfrom d' Hd'); [by left|right; by right].
Qed.

Lemma placeDoorsOfKind_on wd h kind type spots count doors m0 w :
  doorChar type = Some kind -> wfGrid wd h m0 -> unitDraws w ->
  doorsOn m0 (w_map w) doors ->
  (forall s, s ∈ spots -> 0 <= spot_x s < wd /\ 0 <= spot_y s < h) ->
  exists shuffled doors' w',
    placeDoorsOfKind kind type spots count doors w = Some ((shuffled, doors'), w') /\
    shuffled ≡ₚ spots /\
    doorsOn m0 (w_map w') doors' /\
    (forall d, d ∈ doors' -> d ∈ doors \/ spotOf d ∈ spots) /\
    w_rnd w' = w_rnd w /\ w_log w' = w_log w.
Proof.
  intros Hkind Hwf Hu Hon Hin.
  destruct (shuffleFrom_permutes (length spots - 1) spots w Hu) as (shuffled & E1 & Hp);
    [lia|].
  set (w1 := mkWorld _ _ _ _) in E1.
  destruct (stampDoors_on wd h kind type shuffled (Z.to_nat count) doors m0 (w_map w1)
              Hkind Hwf Hon) as (doors' & m' & E2 & Hon' & Hfrom).
  { intros s Hs. apply Hin. by rewrite <- Hp. }
  exists shuffled, doors', (mkWorld m' (w_rnd w1) (w_pos w1) (w_log w1)).
  split; [|split; [done|split; [done|split; [|done]]]].
  - unfold placeDoorsOfKind. apply bind_Some. exists shuffled, w1. split; [exact E1|].
    apply bind_Some. exists doors', (mkWorld m' (w_rnd w1) (w_pos w1) (w_log w1)).
    split; [|done]. apply onMap_Some. by exists m'.
  - intros d Hd. destruct (Hfrom d Hd); [by left|right]. by rewrite <- Hp.
Qed.

(** X11: on a map of the generator's size and with random draws in [0, 1),
    [placeDoors] returns.  Every door it reports stands on a door spot of
    the map it was given, off the border, with the orientation of that
    spot; the tile there was floor and now carries the character of the
    door's type ('+' regular, 'L' locked, 'S' secret) with its other fields
    kept; no two doors share a tile, a later kind never replaces an earlier
    door; every other tile is untouched and nothing is written to the
    console. *)
Theorem placeDoors_puts_doors_on_door_spots g floor w :
  wfGrid (fg_width g) (fg_height g) (w_map w) -> unitDraws w ->
  exists doors w',
    placeDoors g floor w = Some (doors, w') /\
    doorsOn (w_map w) (w_map w') doors /\
    (forall d, d ∈ doors ->
       1 <= door_x d < fg_width g - 1 /\ 1 <= door_y d < fg_height g - 1 /\
       isDoorSpot (w_map w) (spotOf d)) /\
    w_log w' = w_log w.
Proof.
  intros Hwf Hu. set (m0 := w_map w).
  destruct (doorSpots_spec _ _ m0 (rect 1 1 (fg_width g - 2) (fg_height g - 2)) Hwf)
    as (spots & E0 & _ & Hspots).
  { apply NoDup_rect. }
  { intros x y Hxy%elem_of_rect. lia. }
  assert (Hin : forall s, s ∈ spots ->
            0 <= spot_x s < fg_width g /\ 0 <= spot_y s < fg_height g).
  { intros s [Hs _]%Hspots. unfold spotAt in Hs. apply elem_of_rect in Hs. lia. }
  assert (Hon0 : doorsOn m0 (w_map w) []).
  { split; [done|]. split; [apply NoDup_nil_2|]. split; [|done].
    by intros d ?%elem_of_nil. }
  set (doorCount := Qfloor (5 + inject_Z floor * (5 # 10))).
  destruct (placeDoorsOfKind_on _ _ TILE_TYPES.DOOR "regular" spots
              (Qfloor (inject_Z doorCount * (7 # 10))) [] m0 w eq_refl Hwf Hu Hon0 Hin)
    as (spots1 & doors1 & w1 & E1 & Hp1 & Hon1 & Hfrom1 & Hr1 & Hl1).
  assert (Hin1 : forall s, s ∈ spots1 ->
            0 <= spot_x s < fg_width g /\ 0 <= spot_y s < fg_height g).
  { intros s Hs. apply Hin. by rewrite <- Hp1. }
  destruct (placeDoorsOfKind_on _ _ TILE_TYPES.LOCKED_DOOR "locked" spots1
              (Qfloor (inject_Z doorCount * (2 # 10)) + floor / 3) doors1 m0 w1
              eq_refl Hwf (unitDraws_same _ _ Hr1 Hu) Hon1 Hin1)
    as (spots2 & doors2 & w2 & E2 & Hp2 & Hon2 & Hfrom2 & Hr2 & Hl2).
  assert (Hin2 : forall s, s ∈ spots2 ->
            0 <= spot_x s < fg_width g /\ 0 <= spot_y s < fg_height g).
  { intros s Hs. apply Hin1. by rewrite <- Hp2. }
  assert (Hu2 : unitDraws w2).
  { apply (unitDraws_same w). - by rewrite Hr2. - done. }
  destruct (placeDoorsOfKind_on _ _ TILE_TYPES.SECRET_DOOR "secret" spots2
              (Qfloor (inject_Z doorCount * (1 # 10)) + floor / 4) doors2 m0 w2
              eq_refl Hwf Hu2 Hon2 Hin2)
    as (spots3 & doors3 & w3 & E3 & Hp3 & Hon3 & Hfrom3 & Hr3 & Hl3).
  exists doors3, w3. split; [|split; [done|split]].
  - unfold placeDoors. apply bind_Some. exists spots, w. split.
    { apply onMap_Some. exists (w_map w). split; [|by destruct w].
      unfold findPotentialDoorLocations. fold m0. by rewrite E0. }
    apply bind_Some. exists (spots1, doors1), w1. split; [exact E1|].
    apply bind_Some. exists (spots2, doors2), w2. split; [exact E2|].
    apply bind_Some. exists (spots3, doors3), w3. split; [exact E3|done].
  - intros d Hd.
    assert (Hs : spotOf d ∈ spots).
    { destruct (Hfrom3 d Hd) as [Hd2|Hs]; [|by rewrite <- Hp1, <- Hp2].
      destruct (Hfrom2 d Hd2) as [Hd1|Hs]; [|by rewrite <- Hp1].
      destruct (Hfrom1 d Hd1) as [?%elem_of_nil|Hs]; done. }
    apply Hspots in Hs as [Hs ?]. unfold spotAt in Hs. apply elem_of_rect in Hs.
    simpl in Hs. split; [lia|]. split; [lia|done].
  - by rewrite Hl3, Hl2, Hl1.
Qed.

Lemma placeDoors_puts_doors_on_door_spots_witness :
  exists doors w',
    placeDoors (mkFeatureGenerator MAP.WIDTH MAP.HEIGHT) 1 corridorWorld
    = Some (doors, w') /\
    doorsOn (w_map corridorWorld) (w_map w') doors /\
    (forall d, d ∈ doors ->
       1 <= door_x d < MAP.WIDTH - 1 /\ 1 <= door_y d < MAP.HEIGHT - 1 /\
       isDoorSpot (w_map corridorWorld) (spotOf d)) /\
    w_log w' = w_log corridorWorld.
Proof.
  apply (placeDoors_puts_doors_on_door_spots
           (mkFeatureGenerator MAP.WIDTH MAP.HEIGHT) 1 corridorWorld).
  - apply wfGridb_spec. vm_compute. reflexivity.
  - apply strandedDraws_unit.
Defined.

(** ** Stairs *)

Lemma insertByDistance_head g r s rest :
  exists tl,
    insertByDistance (mkPoint (fg_width g / 2) (fg_height g / 2)) r (s :: rest)
    = (if farness g s <? farness g r then r else s) :: tl.
Proof.
  cbn [insertByDistance]. unfold farness.
  destruct (_ <? _); by eexists.
Qed.

Lemma sortByDistance_head g rooms :
  rooms <> [] ->
  exists room tl i,
    sortByDistance (mkPoint (fg_width g / 2) (fg_height g / 2)) rooms = room :: tl /\
    rooms !! i = Some room /\
    (forall r, r ∈ rooms -> farness g r <= farness g room) /\
    (forall j r, (j < i)%nat -> rooms !! j = Some r -> farness g r < farness g room).
Proof.
  induction rooms as [|r rooms IH] using rev_ind; [done|]. intros _.
  unfold sortByDistance. rewrite foldl_snoc.
  fold (sortByDistance (mkPoint (fg_width g / 2) (fg_height g / 2)) rooms).
  destruct rooms as [|r0 rooms0].
  { exists r, [], 0%nat. split; [done|]. split; [done|]. split.
    - intros r' ->%list_elem_of_singleton. lia.
    - intros j r' Hj. lia. }
  destruct IH as (room & tl & i & E & Hi & Hmax & Hfirst); [done|].
  set (rooms := r0 :: rooms0) in *. rewrite E.
  destruct (insertByDistance_head g r room tl) as (tl' & ->).
  destruct (Z.ltb_spec (farness g room) (farness g r)) as [Hlt|Hge].
  - exists r, tl', (length rooms). split; [done|]. split.
    { by rewrite lookup_app_r, Nat.sub_diag by lia. }
    split.
    + intros r' [Hr'| ->%list_elem_of_singleton]%elem_of_app; [|lia].
      specialize (Hmax r' Hr'). lia.
    + intros j r' Hj Hr'. rewrite lookup_app_l in Hr' by done.
      apply list_elem_of_lookup_2 in Hr'. specialize (Hmax r' Hr'). lia.
  - exists room, tl', i. split; [done|]. split.
    { by apply lookup_app_l_Some. }
    split.
    + intros r' [Hr'| ->%list_elem_of_singleton]%elem_of_app; [by apply Hmax|lia].
    + intros j r' Hj Hr'. apply (Hfirst j r' Hj).
      apply lookup_lt_Some in Hi. by rewrite lookup_app_l in Hr' by lia.
Qed.

Lemma stairsPut_updTile m x y :
  0 <= x -> 0 <= y ->
  stairsPut m (updTile (set_char TILE_TYPES.STAIRS) m x y) (mkPoint x y).
Proof.
  intros Hx Hy x' y'. rewrite tileAt_updTile by done. cbn [px py].
  destruct (decide (x' = x /\ y' = y)) as [[-> ->]|Hne].
  - by rewrite !bool_decide_eq_true_2.
  - by rewrite !bool_decide_eq_false_2.
Qed.

(** X12: given at least one room, all rooms on the map and at least 3 by 3,
    and random draws in [0, 1), [placeStairs] puts the stairs in the first
    of the rooms whose centre is farthest (in Manhattan distance) from the
    centre of the map, on a tile that is not on the edge of that room.  Only
    the character of that tile changes, whatever it was; every other tile
    and the console are untouched. *)
Theorem placeStairs_in_the_farthest_room g rooms w :
  wfGrid (fg_width g) (fg_height g) (w_map w) -> unitDraws w ->
  rooms <> [] ->
  (forall r, r ∈ rooms -> roomOnMap g r) ->
  exists pos w' i room,
    placeStairs g rooms w = Some (pos, w') /\
    rooms !! i = Some room /\
    (forall r, r ∈ rooms -> farness g r <= farness g room) /\
    (forall j r, (j < i)%nat -> rooms !! j = Some r -> farness g r < farness g room) /\
    room_x room < px pos < room_x room + room_width room - 1 /\
    room_y room < py pos < room_y room + room_height room - 1 /\
    stairsPut (w_map w) (w_map w') pos /\
    w_log w' = w_log w.
Proof.
  intros Hwf Hu Hne Hrooms.
  destruct (sortByDistance_head g rooms Hne) as (room & tl & i & E & Hi & Hmax & Hfirst).
  destruct (Hrooms room) as (Hw & Hh & Hx0 & Hx1 & Hy0 & Hy1).
  { by apply list_elem_of_lookup_2 in Hi. }
  destruct (randomInt_range (room_width room - 2) w Hu) as (dx & E1 & Hdx); [lia|].
  set (w1 := mkWorld _ _ _ _) in E1.
  destruct (randomInt_range (room_height room - 2) w1 Hu) as (dy & E2 & Hdy); [lia|].
  set (w2 := mkWorld _ _ _ _) in E2.
  set (x := dx + room_x room + 1). set (y := dy + room_y room + 1).
  destruct (tileAt_wf_Some _ _ _ x y Hwf) as [t Ht]; [lia..|].
  exists (mkPoint x y),
    (mkWorld (updTile (set_char TILE_TYPES.STAIRS) (w_map w) x y)
       (w_rnd w2) (w_pos w2) (w_log w2)), i, room.
  split; [|split; [done|split; [done|split; [done|]]]].
  - unfold placeStairs. rewrite E.
    apply bind_Some. exists dx, w1. split; [exact E1|].
    apply bind_Some. exists dy, w2. split; [exact E2|].
    apply bind_Some. exists tt, (mkWorld (updTile (set_char TILE_TYPES.STAIRS) (w_map w) x y)
                                   (w_rnd w2) (w_pos w2) (w_log w2)).
    split; [|done]. apply onMap_Some. eexists. split; [|reflexivity].
    unfold writeTile. fold x y. cbn [w_map w2 w1]. by rewrite Ht.
  - cbn [px py w_map w_log]. split; [lia|]. split; [lia|]. split; [|done].
    apply stairsPut_updTile; lia.
Qed.

Lemma placeStairs_in_the_farthest_room_witness :
  exists pos w' i room,
    placeStairs (mkFeatureGenerator MAP.WIDTH MAP.HEIGHT) strandedRooms freshWorld
    = Some (pos, w') /\
    strandedRooms !! i = Some room /\
    (forall r, r ∈ strandedRooms ->
       farness (mkFeatureGenerator MAP.WIDTH MAP.HEIGHT) r
       <= farness (mkFeatureGenerator MAP.WIDTH MAP.HEIGHT) room) /\
    (forall j r, (j < i)%nat -> strandedRooms !! j = Some r ->
       farness (mkFeatureGenerator MAP.WIDTH MAP.HEIGHT) r
       < farness (mkFeatureGenerator MAP.WIDTH MAP.HEIGHT) room) /\
    room_x room < px pos < room_x room + room_width room - 1 /\
    room_y room < py pos < room_y room + room_height room - 1 /\
    stairsPut (w_map freshWorld) (w_map w') pos /\
    w_log w' = w_log freshWorld.
Proof.
  apply (placeStairs_in_the_farthest_room
           (mkFeatureGenerator MAP.WIDTH MAP.HEIGHT) strandedRooms freshWorld).
  - apply wfGridb_spec. vm_compute. reflexivity.
  - apply strandedDraws_unit.
  - discriminate.
  - intros r Hr. unfold strandedRooms in Hr.
    repeat (apply elem_of_cons in Hr as [->|Hr]; [by vm_compute|]).
    by apply elem_of_nil in Hr.
Defined.

Lemma floorCells_spec w h m cells :
  wfGrid w h m ->
  (forall x y, (x, y) ∈ cells -> 0 <= x < w /\ 0 <= y < h) ->
  exists cs, floorCells cells m = Some cs /\
    forall x y, (x, y) ∈ cs <-> (x, y) ∈ cells /\ charAt m x y = Some TILE_TYPES.FLOOR.
Proof.
  intros Hwf. induction cells as [|[x y] cells IH]; intros Hin.
  - exists []. split; [done|]. intros x y. split; [by intros ?%elem_of_nil|].
    by intros [?%elem_of_nil _].
  - destruct (Hin x y) as [Hx Hy]; [left|].
    destruct (tileAt_wf_Some _ _ _ x y Hwf Hx Hy) as [t Ht].
    destruct IH as (rest & E & Hrest); [by intros; apply Hin; right|].
    cbn [floorCells]. rewrite Ht, E. cbn [mbind option_bind].
    eexists. split; [reflexivity|]. intros x' y'.
    destruct (Ascii.eqb_spec (char t) TILE_TYPES.FLOOR) as [Hf|Hf].
    + rewrite !elem_of_cons, Hrest. split.
      * intros [[= -> ->]|[? ?]]; [|by split; [right|]].
        split; [by left|]. unfold charAt. by rewrite Ht, <- Hf.
      * intros [[[= -> ->]|?] ?]; [by left|by right].
    + rewrite elem_of_cons, Hrest. split.
      * intros [? ?]. by split; [right|].
      * intros [[[= -> ->]|?] Hc]; [|done].
        unfold charAt in Hc. rewrite Ht in Hc. by injection Hc.
Qed.

(** X13: without rooms, on a map of the generator's size that is at least
    2 by 2 and with random draws in [0, 1), [placeStairs] turns a floor tile
    into the stairs; only when the map has no floor tile at all do the
    stairs go to (width - 2, height - 2).  Every other tile and the console
    are untouched. *)
Theorem placeStairs_without_rooms g w :
  wfGrid (fg_width g) (fg_height g) (w_map w) -> unitDraws w ->
  2 <= fg_width g -> 2 <= fg_height g ->
  exists pos w',
    placeStairs g [] w = Some (pos, w') /\
    (charAt (w_map w) (px pos) (py pos) = Some TILE_TYPES.FLOOR \/
     (forall x y, charAt (w_map w) x y <> Some TILE_TYPES.FLOOR) /\
     pos = mkPoint (fg_width g - 2) (fg_height g - 2)) /\
    stairsPut (w_map w) (w_map w') pos /\
    w_log w' = w_log w.
Proof.
  intros Hwf Hu Hw Hh.
  destruct (floorCells_spec _ _ (w_map w) (rect 0 0 (fg_width g) (fg_height g)) Hwf)
    as (cs & E & Hcs).
  { intros x y Hxy%elem_of_rect. lia. }
  assert (E0 : onMap (fun m =>
                 match floorCells (rect 0 0 (fg_width g) (fg_height g)) m with
                 | Some cs => Some (cs, m)
                 | None => None
                 end) w = Some (cs, w)).
  { apply onMap_Some. exists (w_map w). rewrite E. by destruct w. }
  destruct cs as [|c cs'].
  - set (x := fg_width g - 2). set (y := fg_height g - 2).
    destruct (tileAt_wf_Some _ _ _ x y Hwf) as [t Ht]; [lia..|].
    exists (mkPoint x y),
      (mkWorld (updTile (set_char TILE_TYPES.STAIRS) (w_map w) x y)
         (w_rnd w) (w_pos w) (w_log w)).
    split; [|split; [|split; [|done]]].
    + unfold placeStairs. cbn [sortByDistance foldl].
      apply bind_Some. exists [], w. split; [exact E0|].
      apply bind_Some. eexists tt, _. split; [|reflexivity].
      apply onMap_Some. eexists. split; [|reflexivity].
      unfold writeTile. cbn [px py]. fold x y. by rewrite Ht.
    + right. split; [|done]. intros x' y' Hc.
      assert (Hin : (x', y') ∈ rect 0 0 (fg_width g) (fg_height g)).
      { apply elem_of_rect. apply charAt_Some in Hc as (t' & Ht' & _).
        pose proof (tileAt_Some_bounds _ _ _ _ _ _ Hwf Ht'). lia. }
      by apply (elem_of_nil (x', y')), Hcs.
    + apply stairsPut_updTile; lia.
  - destruct (randomInt_range (Z.of_nat (length (c :: cs'))) w Hu) as (i & E1 & Hi).
    { simpl. lia. }
    set (w1 := mkWorld _ _ _ _) in E1.
    destruct (lookup_lt_is_Some_2 (c :: cs') (Z.to_nat i)) as [[x y] Hpos]; [lia|].
    assert (Hxy : (x, y) ∈ c :: cs') by by apply list_elem_of_lookup_2 in Hpos.
    apply Hcs in Hxy as [Hxy Hfloor]. apply elem_of_rect in Hxy.
    destruct (tileAt_wf_Some _ _ _ x y Hwf) as [t Ht]; [lia..|].
    exists (mkPoint x y),
      (mkWorld (updTile (set_char TILE_TYPES.STAIRS) (w_map w) x y)
         (w_rnd w1) (w_pos w1) (w_log w1)).
    split; [|split; [by left|split; [|done]]].
    + unfold placeStairs. cbn [sortByDistance foldl].
      apply bind_Some. exists (c :: cs'), w. split; [exact E0|].
      apply bind_Some. exists i, w1. split; [exact E1|].
      unfold nthZ. destruct (Z.leb_spec 0 i); [|lia]. rewrite Hpos.
      apply bind_Some. eexists tt, _. split; [|reflexivity].
      apply onMap_Some. eexists. split; [|reflexivity].
      unfold writeTile. cbn [fst snd w_map w1]. by rewrite Ht.
    + apply stairsPut_updTile; lia.
Qed.

Lemma placeStairs_without_rooms_witness :
  exists pos w',
    placeStairs (mkFeatureGenerator MAP.WIDTH MAP.HEIGHT) [] corridorWorld
    = Some (pos, w') /\
    (charAt (w_map corridorWorld) (px pos) (py pos) = Some TILE_TYPES.FLOOR \/
     (forall x y, charAt (w_map corridorWorld) x y <> Some TILE_TYPES.FLOOR) /\
     pos = mkPoint (MAP.WIDTH - 2) (MAP.HEIGHT - 2)) /\
    stairsPut (w_map corridorWorld) (w_map w') pos /\
    w_log w' = w_log corridorWorld.
Proof.
  apply (placeStairs_without_rooms
           (mkFeatureGenerator MAP.WIDTH MAP.HEIGHT) corridorWorld).
  - apply wfGridb_spec. vm_compute. reflexivity.
  - apply strandedDraws_unit.
  - by vm_compute.
  - by vm_compute.
Defined.

(** ** Traps *)

Lemma anySpecial_spec g m neighbors :
  wfGrid (fg_width g) (fg_height g) m ->
  (forall x y, (x, y) ∈ neighbors -> 0 <= x < fg_width g /\ 0 <= y < fg_height g) ->
  exists b, anySpecial g neighbors m = Some b /\
    (b = true <-> exists x y, (x, y) ∈ neighbors /\ specialAt m x y).
Proof.
  intros Hwf. induction neighbors as [|[x y] ns IH]; intros Hin.
  - exists false. split; [done|]. split; [done|]. by intros (? & ? & ?%elem_of_nil & _).
  - destruct (Hin x y) as [Hx Hy]; [left|].
    destruct IH as (b & E & Hb); [by intros; apply Hin; right|].
    destruct (charAt_wf _ _ _ x y Hwf Hx Hy) as [c Hc].
    cbn [anySpecial].
    destruct (Z.ltb_spec x 0); [lia|]. destruct (Z.leb_spec (fg_width g) x); [lia|].
    destruct (Z.ltb_spec y 0); [lia|]. destruct (Z.leb_spec (fg_height g) y); [lia|].
    cbn [orb]. rewrite Hc. cbn [mbind option_bind].
    destruct (isSpecialChar c) eqn:Hs.
    + exists true. split; [done|]. split; [|done]. intros _.
      exists x, y. split; [left|]. by exists c.
    + exists b. split; [done|]. rewrite Hb. split.
      * intros (x' & y' & ? & ?). exists x', y'. by split; [right|].
      * intros (x' & y' & [[= -> ->]|?]%elem_of_cons & Hsp).
        -- destruct Hsp as (c' & Hc' & Hs'). congruence.
        -- by exists x', y'.
Qed.

Lemma trapCells_spec g m cells :
  wfGrid (fg_width g) (fg_height g) m -> NoDup cells ->
  (forall x y, (x, y) ∈ cells ->
     1 <= x < fg_width g - 1 /\ 1 <= y < fg_height g - 1) ->
  exists valid, trapCells g cells m = Some valid /\ NoDup valid /\
    forall x y, (x, y) ∈ valid <-> (x, y) ∈ cells /\ isTrapSpot g m x y.
Proof.
  intros Hwf. induction cells as [|[x y] cells IH]; intros Hnd Hin.
  - exists []. split; [done|]. split; [apply NoDup_nil_2|].
    intros x y. split; [by intros ?%elem_of_nil|]. by intros [?%elem_of_nil _].
  - apply NoDup_cons in Hnd as [Hxy Hnd].
    destruct (Hin x y) as [Hx Hy]; [left|].
    destruct IH as (rest & E & Hndr & Hrest); [done|by intros; apply Hin; right|].
    destruct (charAt_wf _ _ _ x y Hwf) as [c Hc]; [lia..|].
    destruct (anySpecial_spec g m [(x + 1, y); (x - 1, y); (x, y + 1); (x, y - 1)] Hwf)
      as (b & Eb & Hb).
    { intros x' y' Hn. repeat (apply elem_of_cons in Hn as [[= -> ->]|Hn]; [lia|]).
      by apply elem_of_nil in Hn. }
    assert (Hspot : isTrapSpot g m x y <-> c = TILE_TYPES.FLOOR /\ b = false).
    { unfold isTrapSpot. rewrite Hc. split.
      - intros (_ & _ & [= ->] & H1 & H2 & H3 & H4). split; [done|].
        destruct b; [|done]. destruct Hb as [Hb _].
        destruct (Hb eq_refl) as (x' & y' & Hn & Hsp).
        repeat (apply elem_of_cons in Hn as [[= -> ->]|Hn]; [done|]).
        by apply elem_of_nil in Hn.
      - intros [-> ->]. split; [lia|]. split; [lia|]. split; [done|].
        assert (Hno : forall x' y',
                  (x', y') ∈ [(x + 1, y); (x - 1, y); (x, y + 1); (x, y - 1)] ->
                  ~ specialAt m x' y').
        { intros x' y' Hn Hsp. enough (false = true) by done.
          apply Hb. by exists x', y'. }
        split; [apply Hno; by left|]. split; [apply Hno; right; by left|].
        split; [apply Hno; do 2 right; by left|apply Hno; do 3 right; by left]. }
    cbn [trapCells]. rewrite Hc. cbn [mbind option_bind].
    unfold hasSpecialNeighbor.
    destruct (Ascii.eqb_spec c TILE_TYPES.FLOOR) as [Hf|Hf].
    + rewrite Eb, E. cbn [mbind option_bind]. destruct b.
      * exists rest. split; [done|]. split; [done|]. intros x' y'.
        rewrite elem_of_cons, Hrest. split; [intros [? ?]; by split; [right|]|].
        intros [[[= -> ->]|?] Hs]; [|done]. apply Hspot in Hs as [_ ?]. done.
      * exists ((x, y) :: rest). split; [done|]. split.
        { apply NoDup_cons. split; [|done]. by intros [? _]%Hrest. }
        intros x' y'. rewrite !elem_of_cons, Hrest. split.
        -- intros [[= -> ->]|[? ?]]; [|by split; [right|]].
           split; [by left|]. by apply Hspot.
        -- intros [[[= -> ->]|?] ?]; [by left|by right].
    + rewrite E. cbn [mbind option_bind]. exists rest. split; [done|].
      split; [done|]. intros x' y'.
      rewrite elem_of_cons, Hrest. split; [intros [? ?]; by split; [right|]|].
      intros [[[= -> ->]|?] Hs]; [|done]. apply Hspot in Hs as [? _]. done.
Qed.

(** X14: on a map of the generator's size, [findValidTrapPositions] returns
    exactly the floor tiles off the border that have no door (regular,
    locked or secret) and no stairs directly left, right, above or below.
    No position is listed twice and the map is not changed. *)
Theorem findValidTrapPositions_finds_the_free_floor g m :
  wfGrid (fg_width g) (fg_height g) m ->
  exists valid,
    findValidTrapPositions g m = Some (valid, m) /\
    NoDup valid /\
    forall x y, (x, y) ∈ valid <-> isTrapSpot g m x y.
Proof.
  intros Hwf.
  destruct (trapCells_spec g m (rect 1 1 (fg_width g - 2) (fg_height g - 2)) Hwf)
    as (valid & E & Hnd & Hvalid).
  - apply NoDup_rect.
  - intros x y Hxy%elem_of_rect. lia.
  - exists valid. split; [unfold findValidTrapPositions; by rewrite E|].
    split; [done|]. intros x y. rewrite Hvalid, elem_of_rect. split; [by intros [_ ?]|].
    intros Hs. split; [|done]. destruct Hs as (? & ? & _). lia.
Qed.

Lemma findValidTrapPositions_finds_the_free_floor_witness :
  exists valid,
    findValidTrapPositions (mkFeatureGenerator MAP.WIDTH MAP.HEIGHT) corridorMap
    = Some (valid, corridorMap) /\
    NoDup valid /\
    forall x y, (x, y) ∈ valid <->
      isTrapSpot (mkFeatureGenerator MAP.WIDTH MAP.HEIGHT) corridorMap x y.
Proof.
  apply (findValidTrapPositions_finds_the_free_floor
           (mkFeatureGenerator MAP.WIDTH MAP.HEIGHT) corridorMap).
  apply wfGridb_spec. vm_compute. reflexivity.
Defined.

Lemma getTrapType_allowed floor w :
  unitDraws w ->
  exists type w', getTrapType floor w = Some (type, w') /\
    type ∈ trapTypesOn floor /\
    w_map w' = w_map w /\ w_rnd w' = w_rnd w /\ w_log w' = w_log w.
Proof.
  intros Hu. unfold getTrapType, trapTypesOn.
  assert (Hpick : forall n : nat, (1 <= n <= 5)%nat ->
            exists type w',
              (i ← randomInt (Z.of_nat n);
               mret (default "undefined"%string
                       (nthZ ["spike"; "poison"; "alarm"; "teleport"; "confusion"]%string i)))
                w = Some (type, w') /\
              type ∈ take n ["spike"; "poison"; "alarm"; "teleport"; "confusion"]%string /\
              w_map w' = w_map w /\ w_rnd w' = w_rnd w /\ w_log w' = w_log w).
  { intros n Hn.
    destruct (randomInt_range (Z.of_nat n) w Hu) as (i & E & Hi); [lia|].
    eexists _, _. split; [apply bind_Some; eexists _, _; split; [exact E|reflexivity]|].
    split; [|done].
    unfold nthZ. destruct (Z.leb_spec 0 i); [|lia].
    destruct (lookup_lt_is_Some_2
                ["spike"; "poison"; "alarm"; "teleport"; "confusion"]%string
                (Z.to_nat i)) as [type Htype]; [simpl; lia|].
    rewrite Htype. cbn [default]. apply elem_of_take. exists (Z.to_nat i).
    split; [done|lia]. }
  destruct (Z.leb_spec floor 2).
  { exists "spike"%string, w. split; [done|]. split; [|done]. cbn. by left. }
  destruct (Z.leb_spec floor 5); [apply (Hpick 2%nat); lia|].
  destruct (Z.leb_spec floor 8); [apply (Hpick 3%nat); lia|].
  apply (Hpick 5%nat); lia.
Qed.

Lemma removeAt_Permutation {A} (l : list A) i x :
  l !! i = Some x -> l ≡ₚ x :: removeAt i l.
Proof.
  intros H. unfold removeAt. rewrite <- delete_take_drop. by apply delete_Permutation.
Qed.

Lemma damage_range floor d :
  0 <= floor ->
  0 <= d < 3 + Qfloor (inject_Z floor / (3 # 2)) - (1 + floor / 2) + 1 ->
  1 + floor / 2 <= d + (1 + floor / 2) <= 3 + floor * 2 / 3.
Proof.
  intros Hf. replace (Qfloor (inject_Z floor / (3 # 2))) with (floor * 2 / 3).
  - lia.
  - unfold Qfloor, Qdiv, Qmult, Qinv, inject_Z. simpl. reflexivity.
Qed.

Lemma damage_draw floor :
  0 <= floor -> 0 < 3 + Qfloor (inject_Z floor / (3 # 2)) - (1 + floor / 2) + 1.
Proof.
  intros Hf. replace (Qfloor (inject_Z floor / (3 # 2))) with (floor * 2 / 3).
  - assert (floor / 2 <= floor * 2 / 3); [|lia].
    apply Z.div_le_lower_bound; [lia|].
    pose proof (Z.mul_div_le floor 2). lia.
  - unfold Qfloor, Qdiv, Qmult, Qinv, inject_Z. simpl. reflexivity.
Qed.

Lemma placeTrapsLoop_laid wd h count floor chance valid0 m0 w0 valid traps w :
  wfGrid wd h m0 -> unitDraws w0 -> 0 <= floor -> NoDup valid0 ->
  (forall x y, (x, y) ∈ valid0 -> 0 <= x < wd /\ 0 <= y < h) ->
  trapsLaid floor valid0 m0 w0 valid traps w ->
  exists traps' valid' w',
    placeTrapsLoop count floor chance valid traps w = Some (traps', w') /\
    trapsLaid floor valid0 m0 w0 valid' traps' w'.
Proof.
  intros Hwf Hu Hf Hnd Hin. revert valid traps w.
  induction count as [|count IH]; intros valid traps w Hlaid.
  { by exists traps, valid, w. }
  cbn [placeTrapsLoop]. destruct valid as [|p0 valid'].
  { by exists traps, [], w. }
  set (valid := p0 :: valid') in *.
  rewrite bool_decide_eq_true_2 by (simpl; lia).
  destruct Hlaid as (Hsh & Hperm & Htraps & Hframe & Hrnd & Hlog).
  assert (Huw : unitDraws w) by by apply (unitDraws_same w0).
  destruct (randomInt_range (Z.of_nat (length valid)) w Huw) as (index & E1 & Hindex).
  { simpl. lia. }
  set (w1 := mkWorld _ _ _ _) in E1.
  destruct (lookup_lt_is_Some_2 valid (Z.to_nat index)) as [[x y] Hpos]; [lia|].
  assert (Enth : nthZ valid index = Some (x, y)).
  { unfold nthZ. destruct (Z.leb_spec 0 index); [done|lia]. }
  set (r := w_rnd w1 (w_pos w1)).
  set (w2 := mkWorld (w_map w1) (w_rnd w1) (S (w_pos w1)) (w_log w1)).
  destruct (randomInt_range
              (3 + Qfloor (inject_Z floor / (3 # 2)) - (1 + floor / 2) + 1) w2 Huw)
    as (d & E3 & Hd); [by apply damage_draw|].
  set (w3 := mkWorld _ _ _ _) in E3.
  destruct (getTrapType_allowed floor w3 Huw) as (type & w4 & E4 & Htype & Hm4 & Hr4 & Hl4).
  set (isHidden := Qltb r chance).
  set (damage := d + (1 + floor / 2)).
  set (trap := mkTrap x y isHidden damage type).
  assert (Hxy0 : (x, y) ∈ valid0).
  { rewrite <- Hperm. apply elem_of_app. right. by apply list_elem_of_lookup_2 in Hpos. }
  destruct (Hin x y Hxy0) as [Hx Hy].
  assert (Hnd' : NoDup ((trapAt <$> traps) ++ valid)) by by rewrite Hperm.
  assert (Hfresh : (x, y) ∉ trapAt <$> traps).
  { apply NoDup_app in Hnd' as (_ & Hdisj & _). intros Hxy.
    apply (Hdisj _ Hxy). by apply list_elem_of_lookup_2 in Hpos. }
  destruct (tileAt_wf_Some wd h (w_map w) x y) as [t Ht];
    [by apply (wfGrid_shape _ _ m0)|done..|].
  set (w5 := mkWorld (updTile (set_trap isHidden (mkTrapData damage type false))
                        (w_map w4) x y) (w_rnd w4) (w_pos w4) (w_log w4)).
  destruct (IH (removeAt (Z.to_nat index) valid) (traps ++ [trap]) w5)
    as (traps' & valid'' & w' & E & Hlaid').
  { unfold trapsLaid, w5. cbn [w_map w_rnd w_log]. rewrite Hm4, Hr4, Hl4.
    change (w_map w3) with (w_map w). change (w_rnd w3) with (w_rnd w).
    change (w_log w3) with (w_log w).
    split; [by rewrite shape_updTile|]. split.
    { rewrite <- Hperm, fmap_app. cbn [fmap list_fmap]. rewrite <- app_assoc.
      apply Permutation_app_head. cbn [app]. fold (trapAt trap).
      symmetry. by apply removeAt_Permutation. }
    split; [|split; [|by split]].
    - intros t' [Ht'| ->%list_elem_of_singleton]%elem_of_app.
      + destruct (Htraps t' Ht') as [Ht'' Hfits]. split; [|done].
        rewrite tileAt_updTile by lia. rewrite bool_decide_eq_false_2; [done|].
        intros [Ex Ey]. apply Hfresh. apply list_elem_of_fmap. exists t'.
        split; [|done]. unfold trapAt. by rewrite Ex, Ey.
      + cbn [t_x t_y trap]. split.
        * rewrite tileAt_updTile by lia. rewrite bool_decide_eq_true_2 by done.
          by rewrite (Hframe x y Hfresh).
        * split; [|done]. cbn [t_damage trap]. by apply damage_range.
    - intros x' y' Hxy'. rewrite fmap_app in Hxy'.
      apply not_elem_of_app in Hxy' as [Hxy' Hne].
      rewrite tileAt_updTile by lia. rewrite bool_decide_eq_false_2; [by apply Hframe|].
      intros [-> ->]. apply Hne. by left. }
  exists traps', valid'', w'. split; [|done].
  apply bind_Some. exists index, w1. split; [exact E1|]. rewrite Enth.
  apply bind_Some. exists r, w2. split; [done|].
  apply bind_Some. exists d, w3. split; [exact E3|].
  apply bind_Some. exists type, w4. split; [exact E4|].
  apply bind_Some. exists tt, w5. split; [|exact E].
  apply onMap_Some. eexists. split; [|reflexivity].
  unfold writeTile. cbn [fst snd]. rewrite Hm4.
  change (w_map w3) with (w_map w). by rewrite Ht.
Qed.

(** X15: on a map of the generator's size, with random draws in [0, 1) and
    a floor number that is not negative, [placeTraps] returns.  Every trap
    it reports lies on a floor tile of the map it was given that is off the
    border and has no door and no stairs on its four sides; its damage is
    between 1 + floor/2 and 3 + 2*floor/3 (rounded down) and its type is one
    the floor allows (only "spike" up to floor 2).  The tile of a trap gets
    the character '^', the trap's [hidden] flag and its data, untriggered;
    no two traps share a tile, every other tile and the console are
    untouched. *)
Theorem placeTraps_lays_traps_on_free_floor g floor difficulty w :
  wfGrid (fg_width g) (fg_height g) (w_map w) -> unitDraws w -> 0 <= floor ->
  exists traps w',
    placeTraps g floor difficulty w = Some (traps, w') /\
    trapsOn (w_map w) (w_map w') traps /\
    (forall t, t ∈ traps ->
       isTrapSpot g (w_map w) (t_x t) (t_y t) /\ trapFits floor t) /\
    w_log w' = w_log w.
Proof.
  intros Hwf Hu Hf.
  destruct (trapCells_spec g (w_map w) (rect 1 1 (fg_width g - 2) (fg_height g - 2)) Hwf)
    as (valid0 & E0 & Hnd & Hvalid).
  { apply NoDup_rect. }
  { intros x y Hxy%elem_of_rect. lia. }
  set (trapCount := Qfloor (inject_Z (Qfloor (3 + inject_Z floor * (7 # 10)))
                            * (1 + inject_Z difficulty / 100))).
  set (chance := ((6 # 10) + inject_Z floor * (2 # 100)
                  + inject_Z difficulty * (2 # 1000))%Q).
  destruct (placeTrapsLoop_laid (fg_width g) (fg_height g) (Z.to_nat trapCount) floor
              chance valid0 (w_map w) w valid0 [] w Hwf Hu Hf Hnd)
    as (traps & valid' & w' & E & Hsh & Hperm & Htraps & Hframe & _ & Hlog).
  { intros x y [Hxy _]%Hvalid. apply elem_of_rect in Hxy. lia. }
  { split; [done|]. split; [done|]. split; [by intros t ?%elem_of_nil|]. done. }
  exists traps, w'. split; [|split; [|split; [|done]]].
  - unfold placeTraps. apply bind_Some. exists valid0, w. split; [|exact E].
    apply onMap_Some. exists (w_map w). split; [|by destruct w].
    unfold findValidTrapPositions. by rewrite E0.
  - split; [done|]. split; [|split; [|done]].
    + rewrite <- Hperm in Hnd. by apply NoDup_app in Hnd as (? & _ & _).
    + intros t Ht. by apply Htraps.
  - intros t Ht. split; [|by apply Htraps].
    assert (Hin : trapAt t ∈ valid0).
    { rewrite <- Hperm. apply elem_of_app. left. apply list_elem_of_fmap. by exists t. }
    by apply Hvalid in Hin as [_ ?].
Qed.

Lemma placeTraps_lays_traps_on_free_floor_witness :
  exists traps w',
    placeTraps (mkFeatureGenerator MAP.WIDTH MAP.HEIGHT) 1 0 corridorWorld
    = Some (traps, w') /\
    trapsOn (w_map corridorWorld) (w_map w') traps /\
    (forall t, t ∈ traps ->
       isTrapSpot (mkFeatureGenerator MAP.WIDTH MAP.HEIGHT) (w_map corridorWorld)
         (t_x t) (t_y t) /\ trapFits 1 t) /\
    w_log w' = w_log corridorWorld.
Proof.
  apply (placeTraps_lays_traps_on_free_floor
           (mkFeatureGenerator MAP.WIDTH MAP.HEIGHT) 1 0 corridorWorld).
  - apply wfGridb_spec. vm_compute. reflexivity.
  - apply strandedDraws_unit.
  - lia.
Defined.
